(** * web3-listener: a shallow embedding of the watcher core

    The development embeds the pure utilities ([utils/address.ts],
    [utils/event.ts]), the two transaction processors
    ([watcher/blocks.ts], [watcher/pending.ts]), the block continuity
    manager ([watcher/blockContinuity.ts]), the health bookkeeping of
    the WebSocket pool ([rpcPool.ts]) and what [config.ts] and
    [clients.ts] build from the configuration, and proves properties of
    them.

    Conventions.
    - [bigint] values (block numbers, wei amounts) are [Z]; JavaScript
      [number]s that hold integral millisecond clocks and counters are [Z]
      as well.
    - [Set<string>] is [gset string], [Map<string, V>] is [gmap string V].
    - [T | null] and optional fields are [option T].
    - A function that may throw returns an [Outcome]; code that mutates
      object fields and may throw runs in the state-and-exception monad
      [M].  State changes made before a [throw] persist, as they do in
      JavaScript.
    - [async] functions are run to completion one after the other: the
      properties of the engine are about sequences of its operations;
      keeping the operations from overlapping is left to its callers. *)

From Stdlib Require Import ZArith Lia Bool Ascii String Sorted.
From stdpp Require Import base option list gmap sets strings.

Local Open Scope string_scope.
Local Open Scope list_scope.
Local Open Scope Z_scope.

(** ** Exceptions and mutable state *)

(** The result of evaluating an expression that may throw an [Error];
    the payload of [Throw] is the error's [message]. *)
Inductive Outcome (A : Type) : Type :=
| Ok (a : A)
| Throw (message : string).
Arguments Ok {A} a.
Arguments Throw {A} message.

Definition is_ok {A} (o : Outcome A) : bool :=
  match o with Ok _ => true | Throw _ => false end.

(** Computations over a mutable state [S] that may throw. *)
Definition M (S A : Type) : Type := S -> Outcome A * S.

Definition ret {S A} (a : A) : M S A := fun s => (Ok a, s).

Definition bind {S A B} (c : M S A) (k : A -> M S B) : M S B :=
  fun s =>
    match c s with
    | (Ok a, s') => k a s'
    | (Throw e, s') => (Throw e, s')
    end.

Definition throw {S A} (e : string) : M S A := fun s => (Throw e, s).

(** [try { body } catch (error) { handler error }] *)
Definition try_catch {S A} (body : M S A) (handler : string -> M S A) : M S A :=
  fun s =>
    match body s with
    | (Ok a, s') => (Ok a, s')
    | (Throw e, s') => handler e s'
    end.

Definition gets {S A} (f : S -> A) : M S A := fun s => (Ok (f s), s).
Definition modify {S} (f : S -> S) : M S unit := fun s => (Ok tt, f s).
Definition lift {S A} (o : Outcome A) : M S A := fun s => (o, s).

(** The state a computation leaves behind, whatever its outcome. *)
Definition exec {S A} (c : M S A) (s : S) : S := snd (c s).

Declare Scope js_scope.
Delimit Scope js_scope with js.
Notation "'let*' x := c 'in' k" := (bind c (fun x => k))
  (at level 10, x name, c at level 100, k at level 200) : js_scope.
Notation "c ;;; k" := (bind c (fun _ => k))
  (at level 100, k at level 200, right associativity) : js_scope.

(** ** utils/address.ts *)

Module Address.

(** [String.prototype.toLowerCase] on one code unit.  Addresses are
    ASCII (hex digits and the [0x] prefix), so the model maps [A-Z] to
    [a-z] and leaves every other byte alone. *)
Definition toLowerCaseChar (c : ascii) : ascii :=
  let n := nat_of_ascii c in
  if (65 <=? n)%nat && (n <=? 90)%nat then ascii_of_nat (n + 32) else c.

Fixpoint toLowerCase (s : string) : string :=
  match s with
  | EmptyString => EmptyString
  | String c rest => String (toLowerCaseChar c) (toLowerCase rest)
  end.

Definition normalizeAddress (address : string) : string :=
  toLowerCase address.

Definition isAddressWatched (address : string) (watchedSet : gset string) : bool :=
  bool_decide (normalizeAddress address ∈ watchedSet).

Definition getAddressLabel (address : string) (labelMap : gmap string string)
  : option string :=
  labelMap !! normalizeAddress address.

Inductive WatchedSide : Type := SideFrom | SideTo | SideBoth.

(** JavaScript truthiness of a [string | null]: [null] and the empty
    string are falsy. *)
Definition truthy (s : option string) : bool :=
  match s with
  | None => false
  | Some EmptyString => false
  | Some (String _ _) => true
  end.

Definition getWatchedSide (from : string) (to : option string)
    (watchedSet : gset string) : option WatchedSide :=
  let isFromWatched := isAddressWatched from watchedSet in
  let isToWatched :=
    match to with
    | Some t => if truthy to then isAddressWatched t watchedSet else false
    | None => false
    end in
  if isFromWatched && isToWatched then Some SideBoth
  else if isFromWatched then Some SideFrom
  else if isToWatched then Some SideTo
  else None.

(** Changing the case of hex digits: the letters [a-f] and [A-F] are
    the only hex digits that have a case. *)
Definition isHexLetter (c : ascii) : bool :=
  let n := nat_of_ascii c in
  ((65 <=? n)%nat && (n <=? 70)%nat) || ((97 <=? n)%nat && (n <=? 102)%nat).

Definition swapCase (c : ascii) : ascii :=
  let n := nat_of_ascii c in
  if (65 <=? n)%nat && (n <=? 70)%nat then ascii_of_nat (n + 32)
  else if (97 <=? n)%nat && (n <=? 102)%nat then ascii_of_nat (n - 32)
  else c.

(** [caseVariant a a'] holds when [a'] is [a] with the case of some of
    its hex digits changed. *)
Fixpoint caseVariant (a a' : string) : bool :=
  match a, a' with
  | EmptyString, EmptyString => true
  | String c s, String c' s' =>
      (Ascii.eqb c' c || (isHexLetter c && Ascii.eqb c' (swapCase c)))
      && caseVariant s s'
  | _, _ => false
  end.

End Address.

(** ** types.ts and utils/event.ts *)

Module Event.
Import Address.

Record WatchedWallet : Type := {
  label : string;
  address : string;
}.

(** [AppConfig]; the floating-point display field [thresholdETH] plays
    no part in the code below and is left out. *)
Record AppConfig : Type := {
  wssRpcUrl : string;
  thresholdWei : Z;
  logLevel : string;
  watchedWallets : list WatchedWallet;
  watchedAddressesSet : gset string;
  addressLabelMap : gmap string string;
}.

Record RawTransaction : Type := {
  tx_hash : string;
  tx_from : string;
  tx_to : option string;
  tx_value : Z;
  tx_blockNumber : option Z;
}.

Inductive EventType : Type := pending | confirmed.

Record TransferEvent : Type := {
  type : EventType;
  txHash : string;
  blockNumber : option Z;
  from : string;
  fromLabel : option string;
  to : option string;
  toLabel : option string;
  valueWei : Z;
  valueETH : string;
  watchedSide : WatchedSide;
  seenInMempool : bool;
  timestamp : Z;
}.

Section WithFormatter.
(** [formatEther] of the viem library (behind [formatWeiToETH]): a
    total function from wei to a decimal string. *)
Variable formatEther : Z -> string.

Definition formatWeiToETH (wei : Z) : string := formatEther wei.

(** [now] is the reading of [Date.now()]. *)
Definition buildTransferEvent (tx : RawTransaction) (config : AppConfig)
    (type : EventType) (seenInMempool : bool) (now : Z)
  : Outcome TransferEvent :=
  let fromAddress := normalizeAddress (tx_from tx) in
  let toAddress :=
    match tx_to tx with
    | Some t => if truthy (tx_to tx) then Some (normalizeAddress t) else None
    | None => None
    end in
  match getWatchedSide (tx_from tx) (tx_to tx) (watchedAddressesSet config) with
  | None => Throw "Neither from nor to address is watched"
  | Some watchedSide =>
      Ok {| type := type;
            txHash := tx_hash tx;
            blockNumber := tx_blockNumber tx;
            from := fromAddress;
            fromLabel := getAddressLabel fromAddress (addressLabelMap config);
            to := toAddress;
            toLabel :=
              match toAddress with
              | Some t =>
                  if truthy toAddress
                  then getAddressLabel t (addressLabelMap config)
                  else None
              | None => None
              end;
            valueWei := tx_value tx;
            valueETH := formatWeiToETH (tx_value tx);
            watchedSide := watchedSide;
            seenInMempool := seenInMempool;
            timestamp := now |}
  end.
End WithFormatter.

Definition shouldProcessTransaction (tx : RawTransaction) (config : AppConfig)
    (seenTxHashes : gset string) : bool :=
  if bool_decide (tx_hash tx ∈ seenTxHashes) then false
  else if negb (truthy (tx_to tx)) then false
  else if tx_value tx <? thresholdWei config then false
  else
    match getWatchedSide (tx_from tx) (tx_to tx) (watchedAddressesSet config) with
    | Some _ => true
    | None => false
    end.

End Event.


(** ** watcher/blocks.ts and watcher/pending.ts: the two processors *)

Module Watcher.
Import Address Event.

(** A fetched block.  [transactions] holds full transaction objects or,
    when the node returns hashes only, strings.  [processBlock] reads the
    number through the non-null assertion [block.number!]. *)
Record Block : Type := {
  number : Z;
  transactions : list (string + RawTransaction);
}.

(** What the processors do to the world, in the order they do it:
    [seenTxHashes.add(h)] and [onTransfer(event)]. *)
Inductive Effect : Type :=
| AddSeen (h : string)
| Emit (event : TransferEvent).

(** The dedup set shared by both processors (created once in [index.ts])
    and the log of effects. *)
Record Pipeline : Type := {
  seenTxHashes : gset string;
  effects : list Effect;
}.

Definition initialPipeline : Pipeline :=
  {| seenTxHashes := ∅; effects := [] |}.

(** The events handed to the sink, oldest first. *)
Definition emitted (effs : list Effect) : list TransferEvent :=
  omap (fun eff => match eff with Emit ev => Some ev | AddSeen _ => None end) effs.

(** The part of a viem client the pending processor uses:
    [getTransaction] answers with a transaction, with [null], or throws. *)
Record TxClient : Type := {
  getTransaction : string -> Outcome (option RawTransaction);
}.

Section Processors.
Variable formatEther : Z -> string.
Variable config : AppConfig.
(** The sink; it may throw.  *)
Variable onTransfer : TransferEvent -> Outcome unit.
(** [Date.now()], as a function of what has happened so far. *)
Variable Date_now : list Effect -> Z.

Definition seen_has (h : string) : M Pipeline bool :=
  gets (fun s => bool_decide (h ∈ seenTxHashes s)).

Definition seen_add (h : string) : M Pipeline unit :=
  modify (fun s => {| seenTxHashes := {[h]} ∪ seenTxHashes s;
                      effects := effects s ++ [AddSeen h] |}).

Definition call_onTransfer (event : TransferEvent) : M Pipeline unit :=
  fun s => (onTransfer event,
            {| seenTxHashes := seenTxHashes s;
               effects := effects s ++ [Emit event] |}).

Definition withBlockNumber (tx : RawTransaction) (blockNumber : Z) : RawTransaction :=
  {| tx_hash := tx_hash tx; tx_from := tx_from tx; tx_to := tx_to tx;
     tx_value := tx_value tx; tx_blockNumber := Some blockNumber |}.

Definition processBlockTransaction (tx : RawTransaction) (blockNumber : Z)
  : M Pipeline unit :=
  try_catch
    (let txWithBlock := withBlockNumber tx blockNumber in
     let* wasSeenInMempool := seen_has (tx_hash tx) in
     let* should := gets (fun s => shouldProcessTransaction txWithBlock config (seenTxHashes s)) in
     if negb wasSeenInMempool && negb should then ret tt
     else if wasSeenInMempool then ret tt
     else
       seen_add (tx_hash tx) ;;;
       let* now := gets (fun s => Date_now (effects s)) in
       let* event := lift (buildTransferEvent formatEther txWithBlock config confirmed false now) in
       call_onTransfer event)%js
    (fun _ => ret tt).

Fixpoint forEachTransaction (txs : list (string + RawTransaction)) (blockNumber : Z)
  : M Pipeline unit :=
  match txs with
  | [] => ret tt
  | inl _ :: rest => forEachTransaction rest blockNumber
  | inr tx :: rest =>
      (processBlockTransaction tx blockNumber ;;;
       forEachTransaction rest blockNumber)%js
  end.

Definition processBlock (block : Block) : M Pipeline unit :=
  try_catch
    (match transactions block with
     | [] => ret tt
     | _ => forEachTransaction (transactions block) (number block)
     end)
    (fun _ => ret tt).

Definition processPendingTransaction (client : TxClient) (txHash : string)
  : M Pipeline unit :=
  try_catch
    (let* tx := lift (getTransaction client txHash) in
     match tx with
     | None => ret tt
     | Some tx =>
         let* should := gets (fun s => shouldProcessTransaction tx config (seenTxHashes s)) in
         if negb should then ret tt
         else
           seen_add txHash ;;;
           let* now := gets (fun s => Date_now (effects s)) in
           let* event := lift (buildTransferEvent formatEther tx config pending true now) in
           call_onTransfer event
     end)%js
    (fun _ => ret tt).

(** One atomic piece of work.  Neither processor awaits between its
    dedup check and its emission, so an interleaving of the two paths is
    a sequence of these: a pending hash handled against the client that
    delivered it, or one transaction of a confirmed block. *)
Inductive Step : Type :=
| PendingStep (client : TxClient) (txHash : string)
| BlockTxStep (tx : RawTransaction) (blockNumber : Z).

Definition step (s : Step) : M Pipeline unit :=
  match s with
  | PendingStep client txHash => processPendingTransaction client txHash
  | BlockTxStep tx blockNumber => processBlockTransaction tx blockNumber
  end.

Fixpoint run (schedule : list Step) (p : Pipeline) : Pipeline :=
  match schedule with
  | [] => p
  | s :: rest => run rest (exec (step s) p)
  end.

(** The steps a block contributes: its full transactions, in order. *)
Definition blockSteps (block : Block) : list Step :=
  omap (fun t => match t with
               | inl _ => None
               | inr tx => Some (BlockTxStep tx (number block))
               end) (transactions block).

(** A client answers for the hash it was asked about. *)
Definition answersFor (client : TxClient) (txHash : string) : bool :=
  match getTransaction client txHash with
  | Ok (Some tx) => bool_decide (tx_hash tx = txHash)
  | _ => true
  end.

Definition faithfulStep (s : Step) : bool :=
  match s with
  | PendingStep client txHash => answersFor client txHash
  | BlockTxStep _ _ => true
  end.

Definition faithfulSchedule (schedule : list Step) : bool :=
  forallb faithfulStep schedule.

End Processors.

(** The pipeline after hash [h] was added and [event] emitted. *)
Definition accepted (h : string) (event : TransferEvent) (p : Pipeline) : Pipeline :=
  {| seenTxHashes := {[h]} ∪ seenTxHashes p;
     effects := effects p ++ [AddSeen h; Emit event] |}.

(** The dedup invariant: no hash was emitted twice, every emitted hash
    is in the dedup set, and every emission comes after the insertion of
    its hash. *)
Definition deduplicated (p : Pipeline) : Prop :=
  NoDup (txHash <$> emitted (effects p)) ∧
  (∀ event, event ∈ emitted (effects p) → txHash event ∈ seenTxHashes p) ∧
  (∀ i event, effects p !! i = Some (Emit event) →
              ∃ j, (j < i)%nat ∧ effects p !! j = Some (AddSeen (txHash event))).

(** [explainedBy s event]: [event] is what step [s] hands to the sink.
    A pending step builds its event from the transaction the client
    returned; a block step builds it from the block's transaction, with
    the block's number. *)
Definition explainedBy (s : Step) (event : TransferEvent) : Prop :=
  match s with
  | PendingStep client txHash' =>
      type event = pending ∧ seenInMempool event = true ∧
      ∃ tx, getTransaction client txHash' = Ok (Some tx) ∧
            txHash event = tx_hash tx ∧
            blockNumber event = tx_blockNumber tx
  | BlockTxStep tx blockNumber' =>
      type event = confirmed ∧ seenInMempool event = false ∧
      txHash event = tx_hash tx ∧
      blockNumber event = Some blockNumber'
  end.

End Watcher.


(** ** watcher/blockContinuity.ts: the block continuity manager *)

Module Continuity.
Import Watcher.

(** The calls the manager makes to its collaborators and the writes to
    [lastProcessedBlockNumber], oldest first. *)
Inductive Call : Type :=
| GetBlockNumber
| GetBlock (blockNumber : Z)
| OnBlock (block : Block)
| OnError (message : string)
| Assign (blockNumber : Z).

(** The part of a viem [PublicClient] the manager uses.  A node is free
    to answer differently each time, so an answer is a function of the
    calls made so far. *)
Record PublicClient : Type := {
  getBlockNumber : list Call -> Outcome Z;
  getBlock : Z -> list Call -> Outcome Block;
}.

Record BlockContinuityConfig : Type := {
  onBlock : Block -> list Call -> Outcome unit;
  onError : option (string -> list Call -> Outcome unit);
}.

Record BlockContinuityManager : Type := {
  lastProcessedBlockNumber : option Z;
  isInitialized : bool;
  client : PublicClient;
  calls : list Call;
}.

(** [new BlockContinuityManager(client, config)] *)
Definition newManager (client : PublicClient) : BlockContinuityManager :=
  {| lastProcessedBlockNumber := None; isInitialized := false;
     client := client; calls := [] |}.

Definition record (c : Call) (m : BlockContinuityManager) : BlockContinuityManager :=
  {| lastProcessedBlockNumber := lastProcessedBlockNumber m;
     isInitialized := isInitialized m;
     client := client m;
     calls := calls m ++ [c] |}.

(** [this.lastProcessedBlockNumber = n] *)
Definition set_lastProcessedBlockNumber (n : Z) : M BlockContinuityManager unit :=
  modify (fun m => {| lastProcessedBlockNumber := Some n;
                      isInitialized := isInitialized m;
                      client := client m;
                      calls := calls m ++ [Assign n] |}).

Definition set_isInitialized (b : bool) : M BlockContinuityManager unit :=
  modify (fun m => {| lastProcessedBlockNumber := lastProcessedBlockNumber m;
                      isInitialized := b;
                      client := client m;
                      calls := calls m |}).

Definition set_client (c : PublicClient) : M BlockContinuityManager unit :=
  modify (fun m => {| lastProcessedBlockNumber := lastProcessedBlockNumber m;
                      isInitialized := isInitialized m;
                      client := c;
                      calls := calls m |}).

Definition call_getBlockNumber : M BlockContinuityManager Z :=
  fun m => (getBlockNumber (client m) (calls m), record GetBlockNumber m).

Definition call_getBlock (n : Z) : M BlockContinuityManager Block :=
  fun m => (getBlock (client m) n (calls m), record (GetBlock n) m).

Section Manager.
Variable config : BlockContinuityConfig.

Definition call_onBlock (block : Block) : M BlockContinuityManager unit :=
  fun m => (onBlock config block (calls m), record (OnBlock block) m).

(** [if (this.config.onError) this.config.onError(error)] *)
Definition call_onError (message : string) : M BlockContinuityManager unit :=
  match onError config with
  | Some handler => fun m => (handler message (calls m), record (OnError message) m)
  | None => ret tt
  end.

Definition initialize : M BlockContinuityManager unit :=
  (let* initialized := gets isInitialized in
   if initialized then ret tt
   else
     try_catch
       (let* latestBlockNumber := call_getBlockNumber in
        set_lastProcessedBlockNumber latestBlockNumber ;;;
        set_isInitialized true)
       (fun error => throw error))%js.

Definition fetchAndProcessBlock (blockNumber : Z) : M BlockContinuityManager unit :=
  try_catch
    (let* block := call_getBlock blockNumber in
     call_onBlock block)%js
    (fun error => throw error).

(** The [for] loop of [backfillBlocks].  [fuel] bounds the number of
    iterations; [backfillBlocks] supplies exactly as many as the loop
    makes. *)
Fixpoint backfillLoop (fuel : nat) (blockNum endBlock : Z)
  : M BlockContinuityManager unit :=
  match fuel with
  | O => ret tt
  | S fuel' =>
      if blockNum <=? endBlock then
        (try_catch
           (fetchAndProcessBlock blockNum ;;;
            set_lastProcessedBlockNumber blockNum)
           (fun error => call_onError error) ;;;
         backfillLoop fuel' (blockNum + 1) endBlock)%js
      else ret tt
  end.

Definition backfillBlocks (startBlock endBlock : Z) : M BlockContinuityManager unit :=
  backfillLoop (Z.to_nat (endBlock - startBlock + 1)) startBlock endBlock.

Definition processNewBlock (newBlockNumber : Z) : M BlockContinuityManager unit :=
  (let* initialized := gets isInitialized in
   (if negb initialized then initialize else ret tt) ;;;
   let* last := gets lastProcessedBlockNumber in
   match last with
   | None =>
       fetchAndProcessBlock newBlockNumber ;;;
       set_lastProcessedBlockNumber newBlockNumber
   | Some lastProcessed =>
       let expectedBlockNumber := lastProcessed + 1 in
       if newBlockNumber =? expectedBlockNumber then
         fetchAndProcessBlock newBlockNumber ;;;
         set_lastProcessedBlockNumber newBlockNumber
       else if newBlockNumber >? expectedBlockNumber then
         backfillBlocks expectedBlockNumber (newBlockNumber - 1) ;;;
         fetchAndProcessBlock newBlockNumber ;;;
         set_lastProcessedBlockNumber newBlockNumber
       else if newBlockNumber <=? lastProcessed then ret tt
       else ret tt
   end)%js.

Definition handleReconnection (newClient : PublicClient) : M BlockContinuityManager unit :=
  (set_client newClient ;;;
   let* initialized := gets isInitialized in
   let* last := gets lastProcessedBlockNumber in
   match initialized, last with
   | true, Some lastProcessed =>
       try_catch
         (let* latestBlockNumber := call_getBlockNumber in
          if latestBlockNumber >? lastProcessed then
            backfillBlocks (lastProcessed + 1) latestBlockNumber ;;;
            set_lastProcessedBlockNumber latestBlockNumber
          else if latestBlockNumber =? lastProcessed then ret tt
          else set_lastProcessedBlockNumber latestBlockNumber)
         (fun error => throw error)
   | _, _ => initialize
   end)%js.

(** A run of the engine: its callers ([watchBlocks], the reconnect
    handler of [index.ts]) catch and log whatever an operation throws and
    go on with the next one. *)
Inductive Op : Type :=
| Initialize
| ProcessNewBlock (newBlockNumber : Z)
| HandleReconnection (newClient : PublicClient).

Definition perform (op : Op) : M BlockContinuityManager unit :=
  match op with
  | Initialize => initialize
  | ProcessNewBlock n => processNewBlock n
  | HandleReconnection c => handleReconnection c
  end.

Fixpoint runOps (ops : list Op) (m : BlockContinuityManager) : BlockContinuityManager :=
  match ops with
  | [] => m
  | op :: rest => runOps rest (exec (perform op) m)
  end.

(** [op] is a reconnection to a node whose head is behind
    [lastProcessedBlockNumber]. *)
Definition reconnectsBehind (op : Op) (m : BlockContinuityManager) : bool :=
  match op, isInitialized m, lastProcessedBlockNumber m with
  | HandleReconnection newClient, true, Some lastProcessed =>
      match getBlockNumber newClient (calls m) with
      | Ok latestBlockNumber => latestBlockNumber <? lastProcessed
      | Throw _ => false
      end
  | _, _, _ => false
  end.

Fixpoint neverReconnectsBehind (ops : list Op) (m : BlockContinuityManager) : bool :=
  match ops with
  | [] => true
  | op :: rest =>
      negb (reconnectsBehind op m) && neverReconnectsBehind rest (exec (perform op) m)
  end.

(** What a reconnection that finds the node's head behind writes over:
    the value the engine held and the head it takes instead. *)
Definition behindHead (op : Op) (m : BlockContinuityManager) : list (Z * Z) :=
  match op, isInitialized m, lastProcessedBlockNumber m with
  | HandleReconnection newClient, true, Some lastProcessed =>
      match getBlockNumber newClient (calls m) with
      | Ok latestBlockNumber =>
          if latestBlockNumber <? lastProcessed
          then [(lastProcessed, latestBlockNumber)]
          else []
      | Throw _ => []
      end
  | _, _, _ => []
  end.

(** Those of a whole run, in order. *)
Fixpoint behindHeads (ops : list Op) (m : BlockContinuityManager) : list (Z * Z) :=
  match ops with
  | [] => []
  | op :: rest => behindHead op m ++ behindHeads rest (exec (perform op) m)
  end.

End Manager.

(** Observations on the log of calls. *)
Definition onBlockNumbers (cs : list Call) : list Z :=
  omap (fun c => match c with OnBlock b => Some (number b) | _ => None end) cs.

Definition reportedErrors (cs : list Call) : list string :=
  omap (fun c => match c with OnError e => Some e | _ => None end) cs.

Definition assigned (cs : list Call) : list Z :=
  omap (fun c => match c with Assign n => Some n | _ => None end) cs.

Definition fetched (cs : list Call) : list Z :=
  omap (fun c => match c with GetBlock n => Some n | _ => None end) cs.

Definition blocksHanded (cs : list Call) : list Block :=
  omap (fun c => match c with OnBlock b => Some b | _ => None end) cs.

(** For a node whose answer to [getBlock k] is [fetch k] whenever it is
    asked: the blocks of a range that can be fetched, and the errors of
    those that cannot. *)
Definition fetchedBlocks (fetch : Z -> Outcome Block) (range : list Z) : list Block :=
  omap (fun k => match fetch k with Ok b => Some b | Throw _ => None end) range.

Definition fetchErrors (fetch : Z -> Outcome Block) (range : list Z) : list string :=
  omap (fun k => match fetch k with Ok _ => None | Throw e => Some e end) range.

(** The engine's invariant: the field holds the value written last, an
    engine that is not initialized holds nothing, and the values written
    so far never went down. *)
Definition consistent (m : BlockContinuityManager) : Prop :=
  lastProcessedBlockNumber m = last (assigned (calls m)) ∧
  (isInitialized m = false → lastProcessedBlockNumber m = None) ∧
  StronglySorted Z.le (assigned (calls m)).

(** [consistent], initialized, and holding at most [bound]. *)
Definition consistentBelow (bound : Z) (m : BlockContinuityManager) : Prop :=
  consistent m ∧ isInitialized m = true ∧
  ∀ l, lastProcessedBlockNumber m = Some l → l ≤ bound.

(** Two states that differ only by calls that are not writes. *)
Definition sameView (m m' : BlockContinuityManager) : Prop :=
  lastProcessedBlockNumber m' = lastProcessedBlockNumber m ∧
  isInitialized m' = isInitialized m ∧
  assigned (calls m') = assigned (calls m).

(** The places where a sequence of values goes down: each value that is
    followed by a smaller one, with that smaller one. *)
Fixpoint descents (ws : list Z) : list (Z * Z) :=
  match ws with
  | [] => []
  | a :: rest =>
      match rest with
      | b :: _ => if b <? a then (a, b) :: descents rest else descents rest
      | [] => []
      end
  end.

(** From [m] to [m'] the engine wrote values that never go down,
    starting from the one [m] held, and [m'] holds the last of them. *)
Definition ascends (m m' : BlockContinuityManager) : Prop :=
  ∃ ws, assigned (calls m') = assigned (calls m) ++ ws ∧
        lastProcessedBlockNumber m'
        = last (option_list (lastProcessedBlockNumber m) ++ ws) ∧
        StronglySorted Z.le (option_list (lastProcessedBlockNumber m) ++ ws).

Definition heldBelow (bound : Z) (m : BlockContinuityManager) : Prop :=
  ∀ l, lastProcessedBlockNumber m = Some l → l ≤ bound.

(** A node that, when it serves a block, serves the one it was asked
    for. *)
Definition honest (c : PublicClient) : Prop :=
  ∀ k h b, getBlock c k h = Ok b → number b = k.

Definition honestOps (ops : list Op) : Prop :=
  Forall (λ op, match op with
                | HandleReconnection newClient => honest newClient
                | _ => True
                end) ops.

(** The blocks handed to [onBlock] so far came in strictly ascending
    order and none is beyond [lastProcessedBlockNumber]. *)
Definition inOrder (m : BlockContinuityManager) : Prop :=
  honest (client m) ∧
  (isInitialized m = false → lastProcessedBlockNumber m = None) ∧
  StronglySorted Z.lt (onBlockNumbers (calls m)) ∧
  ∀ x, x ∈ onBlockNumbers (calls m) →
       ∃ l, lastProcessedBlockNumber m = Some l ∧ x ≤ l.

(** [inOrder], initialized, and holding at most [bound]. *)
Definition inOrderBelow (bound : Z) (m : BlockContinuityManager) : Prop :=
  inOrder m ∧ isInitialized m = true ∧
  ∀ l, lastProcessedBlockNumber m = Some l → l ≤ bound.

(** Two states that differ only by calls other than [onBlock]. *)
Definition sameBlocks (m m' : BlockContinuityManager) : Prop :=
  lastProcessedBlockNumber m' = lastProcessedBlockNumber m ∧
  isInitialized m' = isInitialized m ∧
  client m' = client m ∧
  onBlockNumbers (calls m') = onBlockNumbers (calls m).

(** [getLastProcessedBlockNumber] and [isReady]. *)
Definition getLastProcessedBlockNumber (m : BlockContinuityManager) : option Z :=
  lastProcessedBlockNumber m.

Definition isReady (m : BlockContinuityManager) : bool :=
  isInitialized m &&
  match lastProcessedBlockNumber m with Some _ => true | None => false end.

(** The engine holds a block number exactly when it is initialized. *)
Definition settled (m : BlockContinuityManager) : Prop :=
  isInitialized m = true ↔ is_Some (lastProcessedBlockNumber m).

(** From [m] to [m'] the flag is kept and a block number, once held,
    is still held. *)
Definition grows (m m' : BlockContinuityManager) : Prop :=
  isInitialized m' = isInitialized m ∧
  (is_Some (lastProcessedBlockNumber m) → is_Some (lastProcessedBlockNumber m')).

End Continuity.


(** ** rpcPool.ts: endpoint health and rotation *)

Module RpcPool.

Inductive EndpointStatus : Type := HEALTHY | DEGRADED | DOWN.

Definition isDown (s : EndpointStatus) : bool :=
  match s with DOWN => true | _ => false end.

Record EndpointHealth : Type := {
  url : string;
  status : EndpointStatus;
  failCount : Z;
  lastErrorTime : Z;
  lastSuccessTime : Z;
  nextAvailableTime : Z;
}.

Record RpcPoolConfig : Type := {
  baseDelay : Z;
  maxCooldown : Z;
  healthCheckInterval : Z;
  requestTimeout : Z;
}.

Definition DEFAULT_CONFIG : RpcPoolConfig :=
  {| baseDelay := 5000; maxCooldown := 300000;
     healthCheckInterval := 60000; requestTimeout := 10000 |}.

(** The fields of [WsRpcPool] that the bookkeeping reads and writes; the
    callback registry and the health-check timer are left out. *)
Record WsRpcPool : Type := {
  endpoints : list string;
  healthMap : gmap string EndpointHealth;
  currentIndex : nat;
  currentClient : option Continuity.PublicClient;
  currentEndpoint : option string;
  config : RpcPoolConfig;
  isConnecting : bool;
  isDestroyed : bool;
}.

Definition freshHealth (url : string) (now : Z) : EndpointHealth :=
  {| url := url; status := HEALTHY; failCount := 0; lastErrorTime := 0;
     lastSuccessTime := now; nextAvailableTime := 0 |}.

(** The fields as the constructor sets them; [now] is the clock while
    the health records are created. *)
Definition initialPool (endpoints : list string) (config : RpcPoolConfig) (now : Z)
  : WsRpcPool :=
  {| endpoints := endpoints;
     healthMap := foldl (fun hm url => <[url := freshHealth url now]> hm) ∅ endpoints;
     currentIndex := 0;
     currentClient := None;
     currentEndpoint := None;
     config := config;
     isConnecting := false;
     isDestroyed := false |}.

(** The constructor: it refuses an empty list of endpoints. *)
Definition newPool (endpoints : list string) (config : RpcPoolConfig) (now : Z)
  : Outcome WsRpcPool :=
  match endpoints with
  | [] => Throw "At least one WebSocket endpoint is required"
  | _ => Ok (initialPool endpoints config now)
  end.

Definition set_healthMap (hm : gmap string EndpointHealth) (p : WsRpcPool) : WsRpcPool :=
  {| endpoints := endpoints p; healthMap := hm; currentIndex := currentIndex p;
     currentClient := currentClient p; currentEndpoint := currentEndpoint p;
     config := config p; isConnecting := isConnecting p; isDestroyed := isDestroyed p |}.

Definition set_currentIndex (i : nat) (p : WsRpcPool) : WsRpcPool :=
  {| endpoints := endpoints p; healthMap := healthMap p; currentIndex := i;
     currentClient := currentClient p; currentEndpoint := currentEndpoint p;
     config := config p; isConnecting := isConnecting p; isDestroyed := isDestroyed p |}.

(** [this.currentClient = null; this.currentEndpoint = null] *)
Definition dropClient (p : WsRpcPool) : WsRpcPool :=
  {| endpoints := endpoints p; healthMap := healthMap p; currentIndex := currentIndex p;
     currentClient := None; currentEndpoint := None;
     config := config p; isConnecting := isConnecting p; isDestroyed := isDestroyed p |}.

(** [this.healthMap.get(endpoint)!] followed by a field access: a
    missing record is a [TypeError]. *)
Definition getHealth (endpoint : string) : M WsRpcPool EndpointHealth :=
  fun p =>
    match healthMap p !! endpoint with
    | Some health => (Ok health, p)
    | None => (Throw "TypeError: Cannot read properties of undefined", p)
    end.

(** Health records are objects stored in the map and mutated in place;
    writing the fields of one is an update of the map at its key. *)
Definition putHealth (endpoint : string) (health : EndpointHealth) : M WsRpcPool unit :=
  modify (fun p => set_healthMap (<[endpoint := health]> (healthMap p)) p).

(** [this.endpoints[i]], and the record of that endpoint. *)
Definition healthAt (i : nat) : M WsRpcPool (string * EndpointHealth) :=
  fun p =>
    match endpoints p !! i with
    | Some endpoint => bind (getHealth endpoint) (fun h => ret (endpoint, h)) p
    | None => (Throw "TypeError: Cannot read properties of undefined", p)
    end.

(** [health.nextAvailableTime <= now && health.status !== DOWN] *)
Definition usable (now : Z) (health : EndpointHealth) : bool :=
  (nextAvailableTime health <=? now) && negb (isDown (status health)).

(** [handleConnectionError]; [now] and [now'] are the two readings of
    [Date.now()], for [lastErrorTime] and for the cooldown. *)
Definition handleConnectionError (endpoint : string) (now now' : Z) : M WsRpcPool unit :=
  (let* health := getHealth endpoint in
   let failCount' := failCount health + 1 in
   let* cfg := gets config in
   let cooldown := Z.min (2 ^ failCount' * baseDelay cfg) (maxCooldown cfg) in
   putHealth endpoint
     {| url := url health;
        status := if failCount' >=? 3 then DOWN else DEGRADED;
        failCount := failCount';
        lastErrorTime := now;
        lastSuccessTime := lastSuccessTime health;
        nextAvailableTime := now' + cooldown |})%js.

(** The [do ... while] loop of [rotateToNextHealthyEndpoint]; it comes
    back to [startIndex] after [endpoints.length] iterations at most. *)
Fixpoint rotateLoop (fuel : nat) (startIndex : nat) (now : Z) : M WsRpcPool unit :=
  match fuel with
  | O => ret tt
  | S fuel' =>
      (let* n := gets (fun p => length (endpoints p)) in
       let* i := gets currentIndex in
       let i' := ((i + 1) mod n)%nat in
       modify (set_currentIndex i') ;;;
       let* eh := healthAt i' in
       if usable now (snd eh) then ret tt
       else if (i' =? startIndex)%nat then ret tt
       else rotateLoop fuel' startIndex now)%js
  end.

Definition rotateToNextHealthyEndpoint (now : Z) : M WsRpcPool unit :=
  (let* startIndex := gets currentIndex in
   let* n := gets (fun p => length (endpoints p)) in
   rotateLoop n startIndex now)%js.

(** [handleDisconnection], up to the point where it awaits
    [connectToHealthyEndpoint]: the bookkeeping it does itself.  [now]
    is the reading for [lastErrorTime], [now'] the one taken by the
    rotation. *)
Definition handleDisconnection (endpoint : string) (now now' : Z) : M WsRpcPool unit :=
  (let* destroyed := gets isDestroyed in
   if destroyed then ret tt
   else
     let* health := gets (fun p => healthMap p !! endpoint) in
     match health with
     | None => ret tt
     | Some health =>
         putHealth endpoint
           {| url := url health;
              status := DEGRADED;
              failCount := failCount health + 1;
              lastErrorTime := now;
              lastSuccessTime := lastSuccessTime health;
              nextAvailableTime := nextAvailableTime health |} ;;;
         modify dropClient ;;;
         rotateToNextHealthyEndpoint now'
     end)%js.

Definition recordSuccess (endpoint : string) (now : Z) : M WsRpcPool unit :=
  (let* health := getHealth endpoint in
   putHealth endpoint
     {| url := url health; status := HEALTHY; failCount := 0;
        lastErrorTime := lastErrorTime health;
        lastSuccessTime := now; nextAvailableTime := 0 |})%js.

(** The [while (attempts < this.endpoints.length)] loop of
    [getCurrentHealthyEndpoint]; [fuel] is the number of attempts left. *)
Fixpoint walkRing (fuel : nat) (now : Z) : M WsRpcPool (option string) :=
  match fuel with
  | O => ret None
  | S fuel' =>
      (let* i := gets currentIndex in
       let* eh := healthAt i in
       if usable now (snd eh) then ret (Some (fst eh))
       else
         let* n := gets (fun p => length (endpoints p)) in
         modify (set_currentIndex ((i + 1) mod n)%nat) ;;;
         walkRing fuel' now)%js
  end.

(** The [for (const endpoint of this.endpoints)] scan for the earliest
    [nextAvailableTime]. *)
Fixpoint scanEarliest (es : list string) (bestEndpoint : string) (earliestTime : Z)
  : M WsRpcPool string :=
  match es with
  | [] => ret bestEndpoint
  | endpoint :: rest =>
      (let* health := getHealth endpoint in
       if nextAvailableTime health <? earliestTime
       then scanEarliest rest endpoint (nextAvailableTime health)
       else scanEarliest rest bestEndpoint earliestTime)%js
  end.

Definition getCurrentHealthyEndpoint (now : Z) : M WsRpcPool string :=
  (let* n := gets (fun p => length (endpoints p)) in
   let* found := walkRing n now in
   match found with
   | Some endpoint => ret endpoint
   | None =>
       let* i := gets currentIndex in
       let* best := healthAt i in
       let* es := gets endpoints in
       scanEarliest es (fst best) (nextAvailableTime (snd best))
   end)%js.

(** [getClient]: the active client, or an error before [connect]. *)
Definition getClient : M WsRpcPool Continuity.PublicClient :=
  (let* current := gets currentClient in
   match current with
   | None => throw "WebSocket client not connected. Call connect() first."
   | Some client => ret client
   end)%js.

(** [destroy]; the timer and the callback registry it clears are not
    part of the model. *)
Definition destroy : M WsRpcPool unit :=
  modify (fun p =>
    {| endpoints := endpoints p; healthMap := healthMap p;
       currentIndex := currentIndex p;
       currentClient := None; currentEndpoint := None;
       config := config p; isConnecting := isConnecting p; isDestroyed := true |}).

(** The loop of [getNextRetryTime] over the health records;
    [minWaitTime] is [None] while it is [Infinity]. *)
Fixpoint scanWaits (values : list EndpointHealth) (now : Z) (minWaitTime : option Z)
    (baseDelay : Z) : Z :=
  match values with
  | [] => match minWaitTime with None => baseDelay | Some w => w end
  | health :: rest =>
      if nextAvailableTime health >? now
      then
        let waitTime := nextAvailableTime health - now in
        scanWaits rest now
          (Some (match minWaitTime with
                 | None => waitTime
                 | Some w => Z.min w waitTime
                 end))
          baseDelay
      else 0
  end.

(** [getNextRetryTime].  The source walks [healthMap.values()] in
    insertion order, the model in key order. *)
Definition getNextRetryTime (now : Z) (p : WsRpcPool) : Z :=
  scanWaits ((map_to_list (healthMap p)).*2) now None (baseDelay (config p)).

(** What the constructor establishes and every method keeps: the index
    is inside the ring and every endpoint has a health record. *)
Definition wellFormed (p : WsRpcPool) : Prop :=
  (currentIndex p < length (endpoints p))%nat ∧
  ∀ e, e ∈ endpoints p → is_Some (healthMap p !! e).

(** The endpoint at ring position [j] counted from [i]. *)
Definition ringAt (p : WsRpcPool) (i j : nat) : option string :=
  endpoints p !! ((i + j) mod length (endpoints p))%nat.

(** [e] is neither down nor cooling off at time [now]. *)
Definition usableEndpoint (p : WsRpcPool) (now : Z) (e : string) : bool :=
  match healthMap p !! e with
  | Some health => usable now health
  | None => false
  end.

Definition nextAvailableOf (p : WsRpcPool) (e : string) : Z :=
  match healthMap p !! e with
  | Some health => nextAvailableTime health
  | None => 0
  end.

End RpcPool.

(** ** Configuration ([config.ts]) *)

Module Config.
Import Address Event.

(** [loadWallets], from the wallets the file holds once it has passed
    validation: their addresses are put in lower case. *)
Definition loadWallets (validated : list WatchedWallet) : list WatchedWallet :=
  (fun wallet => {| label := label wallet;
                    address := toLowerCase (address wallet) |}) <$> validated.

(** [loadConfig], from an environment and a wallets file that have
    passed validation.  [thresholdWei] is the outcome of
    [BigInt(env.TRANSFER_THRESHOLD_ETH) * BigInt(10 ** 18)], which throws
    on a threshold that is not a whole number.  [new Map(entries)] sets
    the entries in order, a later one replacing an earlier one with the
    same key. *)
Definition loadConfig (BASE_WSS_RPC_URL : string) (thresholdWei : Outcome Z)
    (LOG_LEVEL : string) (validated : list WatchedWallet) : Outcome AppConfig :=
  let watchedWallets := loadWallets validated in
  if (length watchedWallets =? 0)%nat
  then Throw "No wallets configured in config/wallets.json"
  else
    match thresholdWei with
    | Throw e => Throw e
    | Ok thresholdWei =>
        Ok {| wssRpcUrl := BASE_WSS_RPC_URL;
              thresholdWei := thresholdWei;
              logLevel := LOG_LEVEL;
              watchedWallets := watchedWallets;
              watchedAddressesSet := list_to_set (address <$> watchedWallets);
              addressLabelMap :=
                foldl (fun (m : gmap string string) w => <[address w := label w]> m)
                      ∅ watchedWallets |}
    end.

End Config.

(** ** The pool of the application ([clients.ts]) *)

Module Clients.
Import RpcPool.

Definition DEFAULT_WSS_RPC_ENDPOINTS : list string :=
  ["wss://base.gateway.tenderly.co";
   "wss://base.callstaticrpc.com";
   "wss://base-rpc.publicnode.com";
   "wss://base-mainnet.infura.io/ws/v3/7a978bfcd53a4a03aa45791bf57e40a4"].

(** [self.indexOf(url)]: the first position of [url], or -1. *)
Fixpoint indexOf (self : list string) (url : string) : Z :=
  match self with
  | [] => -1
  | x :: rest =>
      if String.eqb x url then 0
      else let i := indexOf rest url in if i <? 0 then -1 else i + 1
  end.

(** [self.filter((url, index, self) => self.indexOf(url) === index)] *)
Definition firstOccurrences (self : list string) : list string :=
  omap (fun '(index, url) =>
          if indexOf self url =? Z.of_nat index then Some url else None)
       (imap pair self).

(** [initializeWsPool]: the singleton [wsPool] is the state; a pool it
    holds is destroyed before the new one is built. *)
Definition initializeWsPool (wssEndpoints : list string) (config : RpcPoolConfig)
    (now : Z) : M (option WsRpcPool) unit :=
  fun wsPool =>
    let wsPool := exec destroy <$> wsPool in
    match newPool wssEndpoints config now with
    | Ok pool => (Ok tt, Some pool)
    | Throw e => (Throw e, wsPool)
    end.

Definition getWsPool : M (option WsRpcPool) WsRpcPool :=
  fun wsPool =>
    match wsPool with
    | None =>
        (Throw "WebSocket pool not initialized. Call initializeWsPool() first.", wsPool)
    | Some pool => (Ok pool, wsPool)
    end.

(** [initializeRpcPools]; [wssRpcUrl] is [config.wssRpcUrl]. *)
Definition initializeRpcPools (wssRpcUrl : string) (now : Z) : M (option WsRpcPool) unit :=
  let wssEndpoints := firstOccurrences (wssRpcUrl :: DEFAULT_WSS_RPC_ENDPOINTS) in
  initializeWsPool wssEndpoints DEFAULT_CONFIG now.

End Clients.


(** ** Sample data, after the repository's tests *)

Module Samples.
Import Address Event.

Definition binance1 : string := "0xd551234ae421e3bcba99a0da6d736074f22192ff".
Definition coinbase1 : string := "0x503828976d22510aad0201ac7ec88293211d23da".
Definition stranger : string := "0x1234567890123456789012345678901234567890".

Definition ETH : Z := 10 ^ 18.

(** [mockConfig] of the event tests: a threshold of 100 ETH and two
    watched wallets. *)
Definition mockConfig : AppConfig :=
  {| wssRpcUrl := "wss://test";
     thresholdWei := 100 * ETH;
     logLevel := "info";
     watchedWallets := [ {| label := "Binance 1"; address := binance1 |};
                         {| label := "Coinbase 1"; address := coinbase1 |} ];
     watchedAddressesSet := {[ binance1; coinbase1 ]};
     addressLabelMap := {[ binance1 := "Binance 1"; coinbase1 := "Coinbase 1" ]} |}.

(** A transfer of [value] wei from a watched wallet to a stranger. *)
Definition transferFromBinance (hash : string) (value : Z) : RawTransaction :=
  {| tx_hash := hash; tx_from := binance1; tx_to := Some stranger;
     tx_value := value; tx_blockNumber := None |}.

(** The same sender and value, with the empty string as recipient. *)
Definition transferToEmpty : RawTransaction :=
  {| tx_hash := "0x123"; tx_from := binance1; tx_to := Some "";
     tx_value := 150 * ETH; tx_blockNumber := None |}.

(** Stand-ins for the collaborators of the processors: a formatter,
    a sink that never throws and a clock. *)
Definition showWei : Z → string := λ _, "".
Definition quietSink : TransferEvent → Outcome unit := λ _, Ok tt.
Definition frozenClock : list Watcher.Effect → Z := λ _, 0.

(** A node that answers a pending hash with a transaction that has been
    mined in the meantime: [blockNumber] is set. *)
Definition minedTransfer : RawTransaction :=
  {| tx_hash := "0xabc"; tx_from := binance1; tx_to := Some stranger;
     tx_value := 150 * ETH; tx_blockNumber := Some 12345 |}.

Definition racingClient : Watcher.TxClient :=
  {| Watcher.getTransaction := λ _, Ok (Some minedTransfer) |}.

(** A node that answers a pending hash with the pending transaction. *)
Definition mempoolClient : Watcher.TxClient :=
  {| Watcher.getTransaction := λ h, Ok (Some (transferFromBinance h (150 * ETH))) |}.

(** Scenario S6: the hash [0xabc] arrives on the pending stream and is
    then delivered in block 7. *)
Definition dedupSchedule : list Watcher.Step :=
  [ Watcher.PendingStep mempoolClient "0xabc";
    Watcher.BlockTxStep (transferFromBinance "0xabc" (150 * ETH)) 7 ].

(** The event the pending step of [dedupSchedule] hands to the sink. *)
Definition pendingSample : TransferEvent :=
  {| type := pending; txHash := "0xabc"; blockNumber := None;
     from := binance1; fromLabel := Some "Binance 1";
     to := Some stranger; toLabel := None;
     valueWei := 150 * ETH; valueETH := "";
     watchedSide := SideFrom; seenInMempool := true; timestamp := 0 |}.

(** The mock collaborators of the continuity tests: [onBlock] and
    [onError] record their argument and return. *)
Definition recordingConfig : Continuity.BlockContinuityConfig :=
  {| Continuity.onBlock := λ _ _, Ok tt;
     Continuity.onError := Some (λ _ _, Ok tt) |}.

Definition emptyBlock (n : Z) : Watcher.Block :=
  {| Watcher.number := n; Watcher.transactions := [] |}.

(** A node whose head is [head] and that serves every block. *)
Definition steadyClient (head : Z) : Continuity.PublicClient :=
  {| Continuity.getBlockNumber := λ _, Ok head;
     Continuity.getBlock := λ k _, Ok (emptyBlock k) |}.

(** The node of the backfill-error test: block 103 cannot be fetched. *)
Definition fetchExcept103 (k : Z) : Outcome Watcher.Block :=
  if k =? 103 then Throw "Failed to fetch block 103" else Ok (emptyBlock k).

Definition brokenAt103 : Continuity.PublicClient :=
  {| Continuity.getBlockNumber := λ _, Ok 100;
     Continuity.getBlock := λ k _, fetchExcept103 k |}.

(** Scenario S3: [getBlock(103)] fails the first time it is asked and
    succeeds afterwards. *)
Definition failsOnceAt103 : Continuity.PublicClient :=
  {| Continuity.getBlockNumber := λ _, Ok 100;
     Continuity.getBlock := λ k history,
       if (k =? 103) && negb (bool_decide (103 ∈ Continuity.fetched history))
       then Throw "Failed to fetch block 103"
       else Ok (emptyBlock k) |}.

(** A pool of two endpoints as the constructor leaves it at time 0,
    and the same pool after [wss://a] failed three times in a row. *)
Definition twoEndpoints : RpcPool.WsRpcPool :=
  RpcPool.initialPool ["wss://a"; "wss://b"] RpcPool.DEFAULT_CONFIG 0.

Definition afterThreeErrors : RpcPool.WsRpcPool :=
  exec (RpcPool.handleConnectionError "wss://a" 300 300)
    (exec (RpcPool.handleConnectionError "wss://a" 200 200)
       (exec (RpcPool.handleConnectionError "wss://a" 100 100) twoEndpoints)).

End Samples.


(** * Properties *)

(** ** Generic facts about the monad *)

Lemma exec_bind {S A B} (c : M S A) (k : A -> M S B) (s : S) :
  exec (bind c k) s =
  match c s with
  | (Ok a, s') => exec (k a) s'
  | (Throw _, s') => s'
  end.
Proof. unfold exec, bind. by destruct (c s) as [[a|e] s']. Qed.

(** ** Addresses *)

Section AddressFacts.
Import Address.

Lemma toLowerCaseChar_swapCase (c : ascii) :
  isHexLetter c = true → toLowerCaseChar (swapCase c) = toLowerCaseChar c.
Proof.
  destruct c as [[] [] [] [] [] [] [] []]; vm_compute; congruence.
Qed.

Lemma caseVariant_normalizeAddress (a a' : string) :
  caseVariant a a' = true → normalizeAddress a' = normalizeAddress a.
Proof.
  unfold normalizeAddress. revert a'.
  induction a as [|c s IH]; intros [|c' s']; simpl; try done.
  intros [Hc Hs]%andb_prop. f_equal; [|by apply IH].
  apply orb_prop in Hc as [Hc|[Hhex Hc]%andb_prop].
  - by apply Ascii.eqb_eq in Hc as ->.
  - apply Ascii.eqb_eq in Hc as ->. by apply toLowerCaseChar_swapCase.
Qed.

Lemma isAddressWatched_true (a : string) (watched : gset string) :
  isAddressWatched a watched = true ↔ normalizeAddress a ∈ watched.
Proof. unfold isAddressWatched. by rewrite bool_decide_eq_true. Qed.


End AddressFacts.

(** C9.  Whether an address is watched does not depend on the case of
    its hex digits: if [a'] is [a] with the case of any of its hex digits
    changed, [isAddressWatched] gives the same answer for both, for every
    watched set. *)
Theorem isAddressWatched_case_insensitive (a a' : string) (watched : gset string) :
  Address.caseVariant a a' = true →
  Address.isAddressWatched a' watched = Address.isAddressWatched a watched.
Proof.
  intros Hv. unfold Address.isAddressWatched.
  by rewrite (caseVariant_normalizeAddress a a' Hv).
Qed.

Lemma isAddressWatched_case_insensitive_witness :
  Address.isAddressWatched "0xD551234Ae421e3BCBA99A0dA6d736074f22192Ff"
    {[ "0xd551234ae421e3bcba99a0da6d736074f22192ff" ]}
  = Address.isAddressWatched "0xd551234ae421e3bcba99a0da6d736074f22192ff"
    {[ "0xd551234ae421e3bcba99a0da6d736074f22192ff" ]}.
Proof.
  apply (isAddressWatched_case_insensitive
           "0xd551234ae421e3bcba99a0da6d736074f22192ff"
           "0xD551234Ae421e3BCBA99A0dA6d736074f22192Ff").
  reflexivity.
Defined.

(** ** Admission of a transaction *)

Section EventFacts.
Import Address Event.

Lemma shouldProcessTransaction_true (tx : RawTransaction) (config : AppConfig)
    (seen : gset string) :
  shouldProcessTransaction tx config seen = true ↔
  (tx_hash tx ∉ seen) ∧ truthy (tx_to tx) = true ∧
  thresholdWei config ≤ tx_value tx ∧
  is_Some (getWatchedSide (tx_from tx) (tx_to tx) (watchedAddressesSet config)).
Proof.
  unfold shouldProcessTransaction.
  case_bool_decide as Hseen; [split; [done|by intros (? & _)]|].
  destruct (truthy (tx_to tx)); simpl; [|split; [done|by intros (_ & ? & _)]].
  destruct (Z.ltb_spec (tx_value tx) (thresholdWei config)).
  { split; [done|]. intros (_ & _ & ? & _). lia. }
  destruct (getWatchedSide _ _ _); [by eauto|].
  split; [done|]. by intros (_ & _ & _ & [? ?]).
Qed.


End EventFacts.




(** Off that domain: the guard is a truthiness test, so a recipient
    that is the empty string is treated like [null]. *)
Example empty_recipient_is_refused :
  Event.shouldProcessTransaction Samples.transferToEmpty Samples.mockConfig ∅ = false.
Proof. reflexivity. Qed.

(** ** Building an event *)

(** C10.  [buildTransferEvent] throws exactly when [getWatchedSide]
    answers [null]; for a transaction that [shouldProcessTransaction]
    accepted under the same config it returns an event. *)
Theorem buildTransferEvent_throws_iff (formatEther : Z → string)
    (tx : Event.RawTransaction) (config : Event.AppConfig)
    (type : Event.EventType) (seenInMempool : bool) (now : Z) :
  ((∃ message,
      Event.buildTransferEvent formatEther tx config type seenInMempool now
      = Throw message) ↔
   Address.getWatchedSide (Event.tx_from tx) (Event.tx_to tx)
     (Event.watchedAddressesSet config) = None) ∧
  (∀ seen, Event.shouldProcessTransaction tx config seen = true →
           ∃ event,
             Event.buildTransferEvent formatEther tx config type seenInMempool now
             = Ok event).
Proof.
  split.
  - unfold Event.buildTransferEvent.
    destruct (Address.getWatchedSide _ _ _) as [side|].
    + split; [by intros [? ?]|done].
    + split; [done|]. intros _. by eexists.
  - intros seen (_ & _ & _ & [side Hside])%shouldProcessTransaction_true.
    unfold Event.buildTransferEvent. rewrite Hside. eauto.
Qed.

Lemma buildTransferEvent_throws_iff_witness :
  ∃ event,
    Event.buildTransferEvent (λ _, "150")
      (Samples.transferFromBinance "0xdef" (150 * Samples.ETH)) Samples.mockConfig
      Event.pending true 0 = Ok event.
Proof.
  apply (proj2 (buildTransferEvent_throws_iff (λ _, "150")
                  (Samples.transferFromBinance "0xdef" (150 * Samples.ETH))
                  Samples.mockConfig Event.pending true 0) ∅).
  reflexivity.
Defined.

(** ** The two processors *)

Section WatcherFacts.
Import Address Event Watcher.
Variable formatEther : Z → string.
Variable config : AppConfig.
Variable onTransfer : TransferEvent → Outcome unit.
Variable Date_now : list Effect → Z.

Local Abbreviation processBlockTransaction :=
  (processBlockTransaction formatEther config onTransfer Date_now).
Local Abbreviation processPendingTransaction :=
  (processPendingTransaction formatEther config onTransfer Date_now).
Local Abbreviation step := (step formatEther config onTransfer Date_now).
Local Abbreviation run := (run formatEther config onTransfer Date_now).

Lemma buildTransferEvent_fields tx type' seenInMempool' now event :
  buildTransferEvent formatEther tx config type' seenInMempool' now = Ok event →
  type event = type' ∧ txHash event = tx_hash tx ∧
  blockNumber event = tx_blockNumber tx ∧ seenInMempool event = seenInMempool'.
Proof.
  unfold buildTransferEvent.
  destruct (getWatchedSide _ _ _); [|done]. by intros [= <-].
Qed.

Lemma shouldProcessTransaction_builds tx seen type' seenInMempool' now :
  shouldProcessTransaction tx config seen = true →
  ∃ event, buildTransferEvent formatEther tx config type' seenInMempool' now = Ok event.
Proof.
  intros (_ & _ & _ & [side Hside])%shouldProcessTransaction_true.
  unfold buildTransferEvent. rewrite Hside. eauto.
Qed.

(** A block transaction either leaves the pipeline alone or is accepted:
    its hash was new, it is added, and one confirmed event is emitted. *)
Lemma processBlockTransaction_cases tx blockNumber' p :
  exec (processBlockTransaction tx blockNumber') p = p ∨
  ∃ event,
    (tx_hash tx ∉ seenTxHashes p) ∧
    explainedBy (BlockTxStep tx blockNumber') event ∧
    exec (processBlockTransaction tx blockNumber') p = accepted (tx_hash tx) event p.
Proof.
  unfold Watcher.processBlockTransaction, exec, try_catch, bind, gets, seen_has,
    seen_add, modify, lift, call_onTransfer, ret; simpl.
  destruct (shouldProcessTransaction _ config (seenTxHashes p)) eqn:Hshould.
  - pose proof Hshould as (Hnew & _)%shouldProcessTransaction_true.
    simpl in Hnew. rewrite bool_decide_eq_false_2 by done. simpl.
    destruct (shouldProcessTransaction_builds _ _ confirmed false
                (Date_now (effects p ++ [AddSeen (tx_hash tx)])) Hshould)
      as [event Hev].
    rewrite Hev. right. exists event.
    apply buildTransferEvent_fields in Hev as (? & ? & ? & ?).
    split; [done|]. split; [done|].
    unfold accepted. rewrite <- app_assoc. simpl.
    by destruct (onTransfer event).
  - left. by case_bool_decide.
Qed.

(** A pending hash either leaves the pipeline alone or is accepted: the
    fetched transaction's hash was new, the requested hash is added, and
    one pending event is emitted. *)
Lemma processPendingTransaction_cases client txHash' p :
  exec (processPendingTransaction client txHash') p = p ∨
  ∃ tx event,
    getTransaction client txHash' = Ok (Some tx) ∧
    (tx_hash tx ∉ seenTxHashes p) ∧
    explainedBy (PendingStep client txHash') event ∧
    txHash event = tx_hash tx ∧
    exec (processPendingTransaction client txHash') p = accepted txHash' event p.
Proof.
  unfold Watcher.processPendingTransaction, exec, try_catch, bind, gets,
    seen_add, modify, lift, call_onTransfer, ret; simpl.
  destruct (getTransaction client txHash') as [[tx|]|msg] eqn:Hget; simpl; try by left.
  destruct (shouldProcessTransaction tx config (seenTxHashes p)) eqn:Hshould; simpl;
    [|by left].
  pose proof Hshould as (Hnew & _)%shouldProcessTransaction_true.
  destruct (shouldProcessTransaction_builds _ _ pending true
              (Date_now (effects p ++ [AddSeen txHash'])) Hshould) as [event Hev].
  rewrite Hev. right. exists tx, event.
  apply buildTransferEvent_fields in Hev as (? & ? & ? & ?).
  split; [done|]. split; [done|]. split; [by eauto 10|]. split; [done|].
  unfold accepted. rewrite <- app_assoc. simpl.
  by destruct (onTransfer event).
Qed.

Lemma emitted_app (l1 l2 : list Effect) :
  emitted (l1 ++ l2) = emitted l1 ++ emitted l2.
Proof. unfold emitted. apply omap_app. Qed.

(** Every step either does nothing or accepts one event that it explains;
    with a client that answers for the hash it was asked about, the hash
    added is the hash of the event. *)
Lemma step_cases s p :
  exec (step s) p = p ∨
  ∃ h event,
    explainedBy s event ∧ (txHash event ∉ seenTxHashes p) ∧
    (faithfulStep s = true → h = txHash event) ∧
    exec (step s) p = accepted h event p.
Proof.
  destruct s as [client h|tx bn]; simpl.
  - destruct (processPendingTransaction_cases client h p)
      as [?|(tx & event & Hget & Hnew & Hex & Hhash & Hexec)]; [by left|].
    right. exists h, event.
    split; [done|]. split; [by rewrite Hhash|]. split; [|done].
    simpl. unfold answersFor. rewrite Hget, Hhash.
    by intros ->%bool_decide_eq_true.
  - destruct (processBlockTransaction_cases tx bn p)
      as [?|(event & Hnew & Hex & Hexec)]; [by left|].
    right. exists (tx_hash tx), event.
    pose proof Hex as (_ & _ & Hhash & _).
    split; [done|]. split; [by rewrite Hhash|]. by split.
Qed.

(** [processBlock] is the run of the block's transaction steps. *)
Lemma processBlock_run block p :
  exec (processBlock formatEther config onTransfer Date_now block) p
  = run (blockSteps block) p.
Proof.
  unfold processBlock, blockSteps, exec, try_catch.
  assert (Hloop : ∀ txs q,
    forEachTransaction formatEther config onTransfer Date_now txs (number block) q
    = (Ok tt, run (omap (λ t, match t with
                              | inl _ => None
                              | inr tx => Some (BlockTxStep tx (number block))
                              end) txs) q)).
  { induction txs as [|[h|tx] txs IH]; intros q; simpl; [done|apply IH|].
    unfold bind at 1.
    assert (Hok : fst (processBlockTransaction tx (number block) q) = Ok tt).
    { unfold Watcher.processBlockTransaction, try_catch, ret.
      match goal with
      | |- fst (match ?c with _ => _ end) = _ => by destruct c as [[[]|?] ?]
      end. }
    unfold exec. destruct (processBlockTransaction tx (number block) q) as [r q'].
    simpl in Hok. subst r. apply IH. }
  destruct (transactions block) as [|t txs] eqn:Htxs; [done|].
  by rewrite Hloop.
Qed.

End WatcherFacts.

Section PipelineInvariants.
Import Address Event Watcher.
Variable formatEther : Z → string.
Variable config : AppConfig.
Variable onTransfer : TransferEvent → Outcome unit.
Variable Date_now : list Effect → Z.

Local Abbreviation run := (run formatEther config onTransfer Date_now).
Local Abbreviation step := (step formatEther config onTransfer Date_now).

Lemma emitted_accepted h event p :
  emitted (effects (accepted h event p)) = emitted (effects p) ++ [event].
Proof. unfold accepted; simpl. by rewrite emitted_app. Qed.

(** Every event in the sink after a run was there before or is explained
    by a step of the schedule. *)
Lemma run_explained schedule : ∀ p event,
  event ∈ emitted (effects (run schedule p)) →
  event ∈ emitted (effects p) ∨ ∃ s, s ∈ schedule ∧ explainedBy s event.
Proof.
  induction schedule as [|s rest IH]; intros p event Hin; simpl in Hin; [by left|].
  apply IH in Hin as [Hin|(s' & Hs' & Hex)].
  - destruct (step_cases formatEther config onTransfer Date_now s p)
      as [Heq|(h & ev & Hex & _ & _ & Heq)]; rewrite Heq in Hin; [by left|].
    rewrite emitted_accepted in Hin.
    apply elem_of_app in Hin as [?| ->%list_elem_of_singleton]; [by left|].
    right. exists s. split; [left|done].
  - right. exists s'. split; [by right|done].
Qed.

Lemma deduplicated_initial : deduplicated initialPipeline.
Proof.
  split; [constructor|]. split; [by intros ? ?%elem_of_nil|]. by intros i ev.
Qed.

Lemma deduplicated_accepted event p :
  deduplicated p → txHash event ∉ seenTxHashes p →
  deduplicated (accepted (txHash event) event p).
Proof.
  intros (Hnodup & Hseen & Horder) Hnew. split; [|split].
  - rewrite emitted_accepted, fmap_app. apply NoDup_app.
    split; [done|]. split; [|apply NoDup_singleton].
    intros h (ev & -> & Hev)%list_elem_of_fmap [= Heq]%list_elem_of_singleton.
    apply Hnew. rewrite <- Heq. by apply Hseen.
  - intros ev. rewrite emitted_accepted.
    intros [Hev| ->%list_elem_of_singleton]%elem_of_app; simpl.
    + apply elem_of_union_r. by apply Hseen.
    + apply elem_of_union_l. by apply elem_of_singleton.
  - intros i ev. simpl.
    destruct (decide (i < length (effects p))%nat) as [Hlt|Hge].
    + rewrite lookup_app_l by done. intros (j & Hj & Hlook)%Horder.
      exists j. split; [done|]. rewrite lookup_app_l by lia. done.
    + rewrite lookup_app_r by lia.
      destruct (i - length (effects p))%nat as [|[|k]] eqn:Hk; simpl; try done.
      intros [= <-]. exists (length (effects p)). split; [lia|].
      rewrite lookup_app_r by lia. by rewrite Nat.sub_diag.
Qed.

Lemma run_deduplicated schedule : ∀ p,
  faithfulSchedule schedule = true → deduplicated p → deduplicated (run schedule p).
Proof.
  induction schedule as [|s rest IH]; intros p Hfaithful Hp; simpl; [done|].
  simpl in Hfaithful. apply andb_prop in Hfaithful as [Hs Hrest].
  apply IH; [done|].
  destruct (step_cases formatEther config onTransfer Date_now s p)
    as [ ->|(h & ev & _ & Hnew & Hh & ->)]; [done|].
  rewrite (Hh Hs). by apply deduplicated_accepted.
Qed.

Lemma NoDup_fmap_eq {A B} (f : A → B) (l : list A) (x y : A) :
  NoDup (f <$> l) → x ∈ l → y ∈ l → f x = f y → x = y.
Proof.
  induction l as [|a l IH]; simpl; [by intros _ ?%elem_of_nil|].
  intros [Ha Hl]%NoDup_cons [ ->|Hx]%elem_of_cons [ ->|Hy]%elem_of_cons Heq; try done.
  - exfalso. apply Ha. rewrite Heq. by apply list_elem_of_fmap_2.
  - exfalso. apply Ha. rewrite <- Heq. by apply list_elem_of_fmap_2.
  - by apply IH.
Qed.

End PipelineInvariants.

(** C2.  Whatever the interleaving of pending hashes and block
    transactions, run against one dedup set and with clients that answer
    for the hash they were asked about: no two events handed to the sink
    carry the same [txHash]; the hash of every emitted event was added to
    the dedup set before the event was emitted; and a hash emitted as
    pending is never emitted as confirmed. *)
Theorem at_most_one_event_per_hash (formatEther : Z → string)
    (config : Event.AppConfig) (onTransfer : Event.TransferEvent → Outcome unit)
    (Date_now : list Watcher.Effect → Z) (schedule : list Watcher.Step) :
  Watcher.faithfulSchedule schedule = true →
  NoDup (Event.txHash <$>
         Watcher.emitted
           (Watcher.effects
              (Watcher.run formatEther config onTransfer Date_now schedule
                 Watcher.initialPipeline))) ∧
  (∀ i event,
     Watcher.effects
       (Watcher.run formatEther config onTransfer Date_now schedule
          Watcher.initialPipeline) !! i = Some (Watcher.Emit event) →
     ∃ j, (j < i)%nat ∧
          Watcher.effects
            (Watcher.run formatEther config onTransfer Date_now schedule
               Watcher.initialPipeline) !! j
          = Some (Watcher.AddSeen (Event.txHash event))) ∧
  (∀ event event',
     event ∈ Watcher.emitted
               (Watcher.effects
                  (Watcher.run formatEther config onTransfer Date_now schedule
                     Watcher.initialPipeline)) →
     event' ∈ Watcher.emitted
                (Watcher.effects
                   (Watcher.run formatEther config onTransfer Date_now schedule
                      Watcher.initialPipeline)) →
     Event.type event = Event.pending →
     Event.type event' = Event.confirmed →
     Event.txHash event ≠ Event.txHash event').
Proof.
  intros Hfaithful.
  destruct (run_deduplicated formatEther config onTransfer Date_now schedule
              Watcher.initialPipeline Hfaithful deduplicated_initial)
    as (Hnodup & _ & Horder).
  split; [done|]. split; [done|].
  intros ev ev' Hev Hev' Hp Hc Heq.
  assert (ev = ev') as -> by (by eapply NoDup_fmap_eq).
  congruence.
Qed.

Lemma at_most_one_event_per_hash_witness :
  NoDup (Event.txHash <$>
         Watcher.emitted
           (Watcher.effects
              (Watcher.run Samples.showWei Samples.mockConfig Samples.quietSink
                 Samples.frozenClock Samples.dedupSchedule Watcher.initialPipeline))).
Proof.
  apply (at_most_one_event_per_hash Samples.showWei Samples.mockConfig
           Samples.quietSink Samples.frozenClock Samples.dedupSchedule).
  reflexivity.
Defined.

(** Scenario S6: the hash is emitted once, as pending; the block that
    carries it later emits nothing. *)
Example dedup_across_streams :
  (λ event, (Event.type event, Event.txHash event)) <$>
  Watcher.emitted
    (Watcher.effects
       (Watcher.run Samples.showWei Samples.mockConfig Samples.quietSink
          Samples.frozenClock Samples.dedupSchedule Watcher.initialPipeline))
  = [(Event.pending, "0xabc")].
Proof. reflexivity. Qed.

(** C7, as the code has it.  Every event handed to the sink comes from a
    step of the schedule.  A pending event has [seenInMempool = true] and
    carries the [blockNumber] of the transaction the client returned for
    the hash (none when that transaction has none); a confirmed event has
    [seenInMempool = false] and carries the number of the block its
    transaction came in. *)
Theorem emitted_event_shape (formatEther : Z → string)
    (config : Event.AppConfig) (onTransfer : Event.TransferEvent → Outcome unit)
    (Date_now : list Watcher.Effect → Z) (schedule : list Watcher.Step)
    (event : Event.TransferEvent) :
  event ∈ Watcher.emitted
            (Watcher.effects
               (Watcher.run formatEther config onTransfer Date_now schedule
                  Watcher.initialPipeline)) →
  (Event.type event = Event.pending →
   Event.seenInMempool event = true ∧
   ∃ client h tx,
     Watcher.PendingStep client h ∈ schedule ∧
     Watcher.getTransaction client h = Ok (Some tx) ∧
     Event.txHash event = Event.tx_hash tx ∧
     Event.blockNumber event = Event.tx_blockNumber tx) ∧
  (Event.type event = Event.confirmed →
   Event.seenInMempool event = false ∧
   ∃ tx blockNumber,
     Watcher.BlockTxStep tx blockNumber ∈ schedule ∧
     Event.txHash event = Event.tx_hash tx ∧
     Event.blockNumber event = Some blockNumber).
Proof.
  intros [Hin|(s & Hs & Hex)]%run_explained; [by apply elem_of_nil in Hin|].
  destruct s as [client h|tx bn]; simpl in Hex.
  - destruct Hex as (Hty & Hseen & tx & Hget & Hhash & Hbn).
    split; [|congruence]. intros _. split; [done|]. by exists client, h, tx.
  - destruct Hex as (Hty & Hseen & Hhash & Hbn).
    split; [congruence|]. intros _. split; [done|]. by exists tx, bn.
Qed.

Lemma emitted_event_shape_witness :
  Event.seenInMempool Samples.pendingSample = true ∧
  ∃ client h tx,
    Watcher.PendingStep client h ∈ Samples.dedupSchedule ∧
    Watcher.getTransaction client h = Ok (Some tx) ∧
    Event.txHash Samples.pendingSample = Event.tx_hash tx ∧
    Event.blockNumber Samples.pendingSample = Event.tx_blockNumber tx.
Proof.
  refine (proj1 (emitted_event_shape Samples.showWei Samples.mockConfig
                   Samples.quietSink Samples.frozenClock Samples.dedupSchedule
                   Samples.pendingSample _) _).
  - vm_compute. apply list_elem_of_here.
  - reflexivity.
Defined.

(** C7, as stated, fails on the pending path when the node answers the
    hash with a transaction that already sits in a block: the event is
    emitted as pending and carries that block number. *)
Lemma pending_event_without_blockNumber_counterexample :
  ¬ (∀ event,
       event ∈ Watcher.emitted
                 (Watcher.effects
                    (Watcher.run Samples.showWei Samples.mockConfig Samples.quietSink
                       Samples.frozenClock
                       [Watcher.PendingStep Samples.racingClient "0xabc"]
                       Watcher.initialPipeline)) →
       Event.type event = Event.pending → Event.blockNumber event = None).
Proof.
  intros Hclaim.
  assert (Hin : ∃ event,
            event ∈ Watcher.emitted
                      (Watcher.effects
                         (Watcher.run Samples.showWei Samples.mockConfig
                            Samples.quietSink Samples.frozenClock
                            [Watcher.PendingStep Samples.racingClient "0xabc"]
                            Watcher.initialPipeline)) ∧
            Event.type event = Event.pending ∧
            Event.blockNumber event = Some 12345).
  { eexists. split; [vm_compute; apply list_elem_of_here|]. by split. }
  destruct Hin as (event & Hin & Hty & Hbn).
  specialize (Hclaim event Hin Hty). congruence.
Qed.

(** ** The continuity engine *)

Lemma bind_Ok {S A B} (c : M S A) (k : A → M S B) s a s' :
  c s = (Ok a, s') → bind c k s = k a s'.
Proof. unfold bind. by intros ->. Qed.

Lemma bind_Throw {S A B} (c : M S A) (k : A → M S B) s e s' :
  c s = (Throw e, s') → bind c k s = (Throw e, s').
Proof. unfold bind. by intros ->. Qed.

Lemma try_catch_Ok {S A} (c : M S A) (h : string → M S A) s a s' :
  c s = (Ok a, s') → try_catch c h s = (Ok a, s').
Proof. unfold try_catch. by intros ->. Qed.

Lemma try_catch_Throw {S A} (c : M S A) (h : string → M S A) s e s' :
  c s = (Throw e, s') → try_catch c h s = h e s'.
Proof. unfold try_catch. by intros ->. Qed.

Lemma seqZ_singleton (m : Z) : seqZ m 1 = [m].
Proof. rewrite seqZ_cons by lia. by rewrite seqZ_nil by lia. Qed.

Section CallLog.
Import Watcher Continuity.

Lemma onBlockNumbers_app cs cs' :
  onBlockNumbers (cs ++ cs') = onBlockNumbers cs ++ onBlockNumbers cs'.
Proof. apply omap_app. Qed.

Lemma assigned_app cs cs' : assigned (cs ++ cs') = assigned cs ++ assigned cs'.
Proof. apply omap_app. Qed.

Lemma blocksHanded_app cs cs' :
  blocksHanded (cs ++ cs') = blocksHanded cs ++ blocksHanded cs'.
Proof. apply omap_app. Qed.

Lemma reportedErrors_app cs cs' :
  reportedErrors (cs ++ cs') = reportedErrors cs ++ reportedErrors cs'.
Proof. apply omap_app. Qed.

Lemma fetched_app cs cs' : fetched (cs ++ cs') = fetched cs ++ fetched cs'.
Proof. apply omap_app. Qed.

Lemma onBlockNumbers_blocksHanded cs :
  onBlockNumbers cs = number <$> blocksHanded cs.
Proof.
  induction cs as [|[| | | |] cs IH]; simpl; try done. by f_equal.
Qed.

End CallLog.

Section Fetching.
Import Watcher Continuity.
Variable config : BlockContinuityConfig.

Lemma fetchAndProcessBlock_served k m b :
  getBlock (client m) k (calls m) = Ok b →
  onBlock config b (calls m ++ [GetBlock k]) = Ok tt →
  fetchAndProcessBlock config k m
  = (Ok tt, record (OnBlock b) (record (GetBlock k) m)).
Proof.
  intros Hget Hon.
  unfold fetchAndProcessBlock, try_catch, bind, call_getBlock, call_onBlock.
  rewrite Hget. simpl. by rewrite Hon.
Qed.

Lemma fetchAndProcessBlock_failed k m e :
  getBlock (client m) k (calls m) = Throw e →
  fetchAndProcessBlock config k m = (Throw e, record (GetBlock k) m).
Proof.
  intros Hget.
  unfold fetchAndProcessBlock, try_catch, bind, call_getBlock, throw.
  by rewrite Hget.
Qed.

Lemma initialize_fresh (c0 : PublicClient) (n0 : Z) :
  getBlockNumber c0 [] = Ok n0 →
  initialize (newManager c0)
  = (Ok tt, {| lastProcessedBlockNumber := Some n0; isInitialized := true;
               client := c0; calls := [GetBlockNumber; Assign n0] |}).
Proof.
  intros Hhead.
  unfold initialize, bind at 1, gets; simpl.
  unfold try_catch, bind at 1, call_getBlockNumber; simpl.
  by rewrite Hhead.
Qed.

(** A node that serves every block it is asked for, and an [onBlock]
    that never throws. *)
Variable c : PublicClient.
Hypothesis serves : ∀ k h, ∃ b, getBlock c k h = Ok b ∧ number b = k.
Hypothesis onBlock_returns : ∀ b h, onBlock config b h = Ok tt.

Lemma backfillLoop_serving fuel : ∀ k e m,
  client m = c → fuel = Z.to_nat (e - k + 1) →
  ∃ m', backfillLoop config fuel k e m = (Ok tt, m') ∧
        client m' = c ∧ isInitialized m' = isInitialized m ∧
        onBlockNumbers (calls m') = onBlockNumbers (calls m) ++ seqZ k (e - k + 1) ∧
        lastProcessedBlockNumber m'
        = (if decide (k ≤ e) then Some e else lastProcessedBlockNumber m).
Proof.
  induction fuel as [|fuel IH]; intros k e m Hc Hfuel; simpl.
  - exists m. rewrite seqZ_nil by lia. rewrite app_nil_r.
    rewrite decide_False by lia. done.
  - rewrite Zle_imp_le_bool by lia.
    destruct (serves k (calls m)) as (b & Hget & Hnum).
    rewrite <- Hc in Hget.
    pose proof (fetchAndProcessBlock_served k m b Hget (onBlock_returns _ _)) as Hfetch.
    erewrite bind_Ok; cycle 1.
    { apply try_catch_Ok. erewrite bind_Ok by exact Hfetch. reflexivity. }
    destruct (IH (k + 1) e
                {| lastProcessedBlockNumber := Some k;
                   isInitialized := isInitialized m;
                   client := client m;
                   calls := ((calls m ++ [GetBlock k]) ++ [OnBlock b]) ++ [Assign k] |})
      as (m' & Hrun & Hc' & Hinit' & Hnums & Hlast); [done|lia|].
    exists m'. simpl in *. split; [exact Hrun|]. split; [done|]. split; [done|].
    split.
    + rewrite Hnums, !onBlockNumbers_app. simpl. rewrite Hnum, !app_nil_r.
      rewrite (seqZ_cons k (e - k + 1)) by lia. rewrite <- app_assoc. simpl.
      do 3 f_equal; lia.
    + rewrite Hlast. rewrite (decide_True (P := k ≤ e)) by lia.
      by case_decide; [|f_equal; lia].
Qed.

(** A head beyond [lastProcessedBlockNumber]: the blocks in between and
    the head itself are handed to [onBlock], in order. *)
Lemma processNewBlock_serving n l m :
  client m = c → isInitialized m = true →
  lastProcessedBlockNumber m = Some l → l < n →
  ∃ m', processNewBlock config n m = (Ok tt, m') ∧
        client m' = c ∧ isInitialized m' = true ∧
        lastProcessedBlockNumber m' = Some n ∧
        onBlockNumbers (calls m') = onBlockNumbers (calls m) ++ seqZ (l + 1) (n - l).
Proof.
  intros Hc Hinit Hlast Hlt.
  unfold processNewBlock, bind at 1, gets. rewrite Hinit. simpl.
  unfold bind at 1, ret. unfold bind at 1, gets. rewrite Hlast.
  destruct (Z.eqb_spec n (l + 1)) as [->|Hne].
  - destruct (serves (l + 1) (calls m)) as (b & Hget & Hnum).
    rewrite <- Hc in Hget.
    erewrite bind_Ok
      by exact (fetchAndProcessBlock_served _ m b Hget (onBlock_returns _ _)).
    eexists. split; [reflexivity|]. simpl. repeat split; try done.
    rewrite !onBlockNumbers_app. simpl. rewrite Hnum, app_nil_r.
    rewrite <- app_assoc. simpl. by replace (l + 1 - l) with 1 by lia.
  - rewrite (proj2 (Z.gtb_gt n (l + 1))) by lia.
    destruct (backfillLoop_serving (Z.to_nat (n - 1 - (l + 1) + 1)) (l + 1) (n - 1) m Hc eq_refl)
      as (m1 & Hrun & Hc1 & Hinit1 & Hnums1 & _).
    unfold backfillBlocks. erewrite bind_Ok by exact Hrun.
    destruct (serves n (calls m1)) as (b & Hget & Hnum).
    rewrite <- Hc1 in Hget.
    erewrite bind_Ok
      by exact (fetchAndProcessBlock_served _ m1 b Hget (onBlock_returns _ _)).
    eexists. split; [reflexivity|]. simpl. repeat split; try done; try congruence.
    rewrite !onBlockNumbers_app, Hnums1. simpl. rewrite Hnum, app_nil_r.
    rewrite <- !app_assoc. f_equal.
    replace (n - l) with ((n - 1 - (l + 1) + 1) + 1) by lia.
    rewrite (seqZ_app (l + 1) (n - 1 - (l + 1) + 1) 1) by lia.
    f_equal. rewrite seqZ_cons by lia. rewrite seqZ_nil by lia.
    simpl. f_equal. lia.
Qed.

End Fetching.

Section Coverage.
Import Watcher Continuity.
Variable config : BlockContinuityConfig.
Variable c : PublicClient.
Hypothesis serves : ∀ k h, ∃ b, getBlock c k h = Ok b ∧ number b = k.
Hypothesis onBlock_returns : ∀ b h, onBlock config b h = Ok tt.

Lemma runOps_heads heads : ∀ l m,
  client m = c → isInitialized m = true →
  lastProcessedBlockNumber m = Some l → Sorted Z.lt (l :: heads) →
  l ≤ default l (last heads) ∧
  onBlockNumbers (calls (runOps config (ProcessNewBlock <$> heads) m))
  = onBlockNumbers (calls m) ++ seqZ (l + 1) (default l (last heads) - l) ∧
  lastProcessedBlockNumber (runOps config (ProcessNewBlock <$> heads) m)
  = Some (default l (last heads)).
Proof.
  induction heads as [|h rest IH]; intros l m Hc Hinit Hlast Hsorted.
  - simpl. rewrite seqZ_nil by lia. by rewrite app_nil_r.
  - apply Sorted_inv in Hsorted as [Hrest Hhd]. apply HdRel_inv in Hhd.
    destruct (processNewBlock_serving config c serves onBlock_returns h l m
                Hc Hinit Hlast Hhd) as (m' & Hrun & Hc' & Hinit' & Hlast' & Hnums).
    rewrite fmap_cons.
    change (runOps config (ProcessNewBlock h :: (ProcessNewBlock <$> rest)) m)
      with (runOps config (ProcessNewBlock <$> rest)
              (snd (processNewBlock config h m))).
    rewrite Hrun. cbn [snd].
    destruct (IH h m' Hc' Hinit' Hlast' Hrest) as (Hle & Hnums' & Hlast'').
    assert (Hdef : default l (last (h :: rest)) = default h (last rest))
      by (rewrite last_cons; by destruct (last rest)).
    rewrite Hdef. split; [lia|]. split; [|done].
    rewrite Hnums', Hnums, <- app_assoc. f_equal.
    replace (default h (last rest) - l)
      with ((h - l) + (default h (last rest) - h)) by lia.
    rewrite seqZ_app by lia. do 2 f_equal. lia.
Qed.

End Coverage.

(** C1.  Initialize the engine at head [n0] and feed it strictly
    increasing heads, all above [n0]; if every [getBlock] serves the block
    that was asked for and [onBlock] never throws, the block numbers
    handed to [onBlock] are [n0+1, n0+2, ..., nk] in this order, each
    once, and [lastProcessedBlockNumber] ends at [nk] (the last head). *)
Theorem coverage (config : Continuity.BlockContinuityConfig)
    (c : Continuity.PublicClient) (n0 : Z) (heads : list Z) :
  Continuity.getBlockNumber c [] = Ok n0 →
  (∀ k h, ∃ b, Continuity.getBlock c k h = Ok b ∧ Watcher.number b = k) →
  (∀ b h, Continuity.onBlock config b h = Ok tt) →
  Sorted Z.lt (n0 :: heads) →
  Continuity.onBlockNumbers
    (Continuity.calls
       (Continuity.runOps config
          (Continuity.Initialize :: (Continuity.ProcessNewBlock <$> heads))
          (Continuity.newManager c)))
  = seqZ (n0 + 1) (default n0 (last heads) - n0) ∧
  Continuity.lastProcessedBlockNumber
    (Continuity.runOps config
       (Continuity.Initialize :: (Continuity.ProcessNewBlock <$> heads))
       (Continuity.newManager c))
  = Some (default n0 (last heads)).
Proof.
  intros Hhead Hserves Hon Hsorted.
  change (Continuity.runOps config
            (Continuity.Initialize :: (Continuity.ProcessNewBlock <$> heads))
            (Continuity.newManager c))
    with (Continuity.runOps config (Continuity.ProcessNewBlock <$> heads)
            (snd (Continuity.initialize (Continuity.newManager c)))).
  rewrite (initialize_fresh c n0 Hhead). cbn [snd].
  destruct (runOps_heads config c Hserves Hon heads n0
              {| Continuity.lastProcessedBlockNumber := Some n0;
                 Continuity.isInitialized := true;
                 Continuity.client := c;
                 Continuity.calls := [Continuity.GetBlockNumber; Continuity.Assign n0] |})
    as (_ & Hnums & Hlast); [done..|].
  split; [|exact Hlast]. by rewrite Hnums.
Qed.

Lemma coverage_witness :
  Continuity.onBlockNumbers
    (Continuity.calls
       (Continuity.runOps Samples.recordingConfig
          (Continuity.Initialize :: (Continuity.ProcessNewBlock <$> [101; 105]))
          (Continuity.newManager (Samples.steadyClient 100))))
  = seqZ (100 + 1) (default 100 (last [101; 105]) - 100) ∧
  Continuity.lastProcessedBlockNumber
    (Continuity.runOps Samples.recordingConfig
       (Continuity.Initialize :: (Continuity.ProcessNewBlock <$> [101; 105]))
       (Continuity.newManager (Samples.steadyClient 100)))
  = Some (default 100 (last [101; 105])).
Proof.
  apply (coverage Samples.recordingConfig (Samples.steadyClient 100) 100 [101; 105]).
  - reflexivity.
  - intros k h. by exists (Samples.emptyBlock k).
  - reflexivity.
  - repeat constructor; lia.
Defined.

(** Scenarios S1 and S2. *)
Example normal_sequence :
  Continuity.onBlockNumbers
    (Continuity.calls
       (Continuity.runOps Samples.recordingConfig
          [Continuity.Initialize; Continuity.ProcessNewBlock 101;
           Continuity.ProcessNewBlock 102; Continuity.ProcessNewBlock 103]
          (Continuity.newManager (Samples.steadyClient 100))))
  = [101; 102; 103].
Proof. reflexivity. Qed.

Example gap_and_fill :
  Continuity.onBlockNumbers
    (Continuity.calls
       (Continuity.runOps Samples.recordingConfig
          [Continuity.Initialize; Continuity.ProcessNewBlock 101;
           Continuity.ProcessNewBlock 105]
          (Continuity.newManager (Samples.steadyClient 100))))
  = [101; 102; 103; 104; 105].
Proof. reflexivity. Qed.

Section Tolerance.
Import Watcher Continuity.
Variable config : BlockContinuityConfig.
Variable c : PublicClient.
Variable fetch : Z → Outcome Block.
Variable handler : string → list Call → Outcome unit.
Hypothesis answers : ∀ k h, getBlock c k h = fetch k.
Hypothesis onBlock_returns : ∀ b h, onBlock config b h = Ok tt.
Hypothesis has_handler : onError config = Some handler.
Hypothesis handler_returns : ∀ e h, handler e h = Ok tt.

Lemma call_onError_reported e m :
  call_onError config e m = (Ok tt, record (OnError e) m).
Proof. unfold call_onError. by rewrite has_handler, handler_returns. Qed.

(** One iteration of the backfill loop: the block is fetched; it is
    handed to [onBlock] and becomes [lastProcessedBlockNumber], or its
    error is handed to [onError].  Either way the iteration returns. *)
Lemma backfill_iteration k m :
  client m = c →
  try_catch
    (bind (fetchAndProcessBlock config k) (λ _, set_lastProcessedBlockNumber k))
    (λ error, call_onError config error) m
  = match fetch k with
    | Ok b =>
        (Ok tt, {| lastProcessedBlockNumber := Some k;
                   isInitialized := isInitialized m;
                   client := client m;
                   calls := ((calls m ++ [GetBlock k]) ++ [OnBlock b]) ++ [Assign k] |})
    | Throw e => (Ok tt, record (OnError e) (record (GetBlock k) m))
    end.
Proof.
  intros Hc. destruct (fetch k) as [b|e] eqn:Hk.
  - apply try_catch_Ok. erewrite bind_Ok; cycle 1.
    { apply fetchAndProcessBlock_served; [|apply onBlock_returns].
      by rewrite Hc, answers. }
    reflexivity.
  - erewrite try_catch_Throw; [apply call_onError_reported|].
    apply bind_Throw, fetchAndProcessBlock_failed. by rewrite Hc, answers.
Qed.

Lemma backfillLoop_tolerant fuel : ∀ k e m,
  client m = c → fuel = Z.to_nat (e - k + 1) →
  ∃ m', backfillLoop config fuel k e m = (Ok tt, m') ∧
        client m' = c ∧ isInitialized m' = isInitialized m ∧
        fetched (calls m') = fetched (calls m) ++ seqZ k (e - k + 1) ∧
        blocksHanded (calls m')
        = blocksHanded (calls m) ++ fetchedBlocks fetch (seqZ k (e - k + 1)) ∧
        reportedErrors (calls m')
        = reportedErrors (calls m) ++ fetchErrors fetch (seqZ k (e - k + 1)).
Proof.
  induction fuel as [|fuel IH]; intros k e m Hc Hfuel; simpl.
  - exists m. rewrite seqZ_nil by lia. simpl. by rewrite !app_nil_r.
  - rewrite Zle_imp_le_bool by lia.
    pose proof (backfill_iteration k m Hc) as Hiter.
    rewrite (seqZ_cons k (e - k + 1)) by lia.
    replace (Z.pred (e - k + 1)) with (e - (k + 1) + 1) by lia.
    replace (Z.succ k) with (k + 1) by lia.
    unfold fetchedBlocks, fetchErrors. simpl.
    fold (fetchedBlocks fetch (seqZ (k + 1) (e - (k + 1) + 1))).
    fold (fetchErrors fetch (seqZ (k + 1) (e - (k + 1) + 1))).
    destruct (fetch k) as [b|err]; erewrite bind_Ok by exact Hiter.
    + edestruct (IH (k + 1) e) as (m' & Hrun & Hc' & Hinit' & Hf & Hb & He);
        [| |exists m'; split; [exact Hrun|]]; [done|lia|].
      simpl in *. split; [done|]. split; [done|].
      rewrite Hf, Hb, He, !fetched_app, !blocksHanded_app, !reportedErrors_app.
      simpl. rewrite !app_nil_r, <- !app_assoc. done.
    + edestruct (IH (k + 1) e) as (m' & Hrun & Hc' & Hinit' & Hf & Hb & He);
        [| |exists m'; split; [exact Hrun|]]; [done|lia|].
      simpl in *. split; [done|]. split; [done|].
      rewrite Hf, Hb, He, !fetched_app, !blocksHanded_app, !reportedErrors_app.
      simpl. rewrite !app_nil_r, <- !app_assoc. done.
Qed.

Lemma processNewBlock_tolerant m l n b :
  client m = c → isInitialized m = true →
  lastProcessedBlockNumber m = Some l → l + 1 < n → fetch n = Ok b →
  ∃ m', processNewBlock config n m = (Ok tt, m') ∧
        lastProcessedBlockNumber m' = Some n ∧
        fetched (calls m') = fetched (calls m) ++ seqZ (l + 1) (n - l) ∧
        blocksHanded (calls m')
        = blocksHanded (calls m) ++ fetchedBlocks fetch (seqZ (l + 1) (n - l)) ∧
        reportedErrors (calls m')
        = reportedErrors (calls m) ++ fetchErrors fetch (seqZ (l + 1) (n - l - 1)).
Proof.
  intros Hc Hinit Hlast Hgap Hn.
  unfold processNewBlock, bind at 1, gets. rewrite Hinit. simpl.
  unfold bind at 1, ret. unfold bind at 1, gets. rewrite Hlast.
  rewrite (proj2 (Z.eqb_neq n (l + 1))) by lia.
  rewrite (proj2 (Z.gtb_gt n (l + 1))) by lia.
  destruct (backfillLoop_tolerant (Z.to_nat (n - 1 - (l + 1) + 1)) (l + 1) (n - 1) m
              Hc eq_refl) as (m1 & Hrun & Hc1 & Hinit1 & Hf & Hb & He).
  replace (n - 1 - (l + 1) + 1) with (n - l - 1) in Hf, Hb, He by lia.
  unfold backfillBlocks. erewrite bind_Ok by exact Hrun.
  erewrite bind_Ok; cycle 1.
  { apply fetchAndProcessBlock_served; [|apply onBlock_returns].
    rewrite Hc1, answers. exact Hn. }
  eexists. split; [reflexivity|]. simpl. split; [done|].
  rewrite !fetched_app, !blocksHanded_app, !reportedErrors_app, Hf, Hb, He.
  simpl. rewrite !app_nil_r, <- !app_assoc.
  set (len := n - l - 1) in *.
  replace (n - l) with (len + 1) by lia.
  rewrite (seqZ_app (l + 1) len 1) by lia.
  replace (l + 1 + len) with n by lia.
  rewrite seqZ_singleton.
  unfold fetchedBlocks. rewrite omap_app. simpl. rewrite Hn. done.
Qed.

End Tolerance.

(** C6.  While a gap is backfilled, a block whose fetch fails is
    reported through [onError] and skipped; the loop goes on: every block
    of the gap and the head are fetched, those that could be fetched are
    handed to [onBlock] in order, and [lastProcessedBlockNumber] ends at
    the head.  In scenario S3 (initialized at 100, heads 101 then 105,
    [getBlock(103)] failing once) [onBlock] sees 101, 102, 104, 105, one
    error is reported and [lastProcessedBlockNumber] is 105. *)
Theorem backfill_tolerates_fetch_errors :
  (∀ (config : Continuity.BlockContinuityConfig) (c : Continuity.PublicClient)
     (fetch : Z → Outcome Watcher.Block)
     (handler : string → list Continuity.Call → Outcome unit)
     (m : Continuity.BlockContinuityManager) (l n : Z) (b : Watcher.Block),
     (∀ k h, Continuity.getBlock c k h = fetch k) →
     (∀ blk h, Continuity.onBlock config blk h = Ok tt) →
     Continuity.onError config = Some handler →
     (∀ e h, handler e h = Ok tt) →
     Continuity.client m = c → Continuity.isInitialized m = true →
     Continuity.lastProcessedBlockNumber m = Some l → l + 1 < n →
     fetch n = Ok b →
     ∃ m', Continuity.processNewBlock config n m = (Ok tt, m') ∧
           Continuity.lastProcessedBlockNumber m' = Some n ∧
           Continuity.fetched (Continuity.calls m')
           = Continuity.fetched (Continuity.calls m) ++ seqZ (l + 1) (n - l) ∧
           Continuity.blocksHanded (Continuity.calls m')
           = Continuity.blocksHanded (Continuity.calls m)
             ++ Continuity.fetchedBlocks fetch (seqZ (l + 1) (n - l)) ∧
           Continuity.reportedErrors (Continuity.calls m')
           = Continuity.reportedErrors (Continuity.calls m)
             ++ Continuity.fetchErrors fetch (seqZ (l + 1) (n - l - 1))) ∧
  Continuity.onBlockNumbers
    (Continuity.calls
       (Continuity.runOps Samples.recordingConfig
          [Continuity.Initialize; Continuity.ProcessNewBlock 101;
           Continuity.ProcessNewBlock 105]
          (Continuity.newManager Samples.failsOnceAt103)))
  = [101; 102; 104; 105] ∧
  Continuity.reportedErrors
    (Continuity.calls
       (Continuity.runOps Samples.recordingConfig
          [Continuity.Initialize; Continuity.ProcessNewBlock 101;
           Continuity.ProcessNewBlock 105]
          (Continuity.newManager Samples.failsOnceAt103)))
  = ["Failed to fetch block 103"] ∧
  Continuity.lastProcessedBlockNumber
    (Continuity.runOps Samples.recordingConfig
       [Continuity.Initialize; Continuity.ProcessNewBlock 101;
        Continuity.ProcessNewBlock 105]
       (Continuity.newManager Samples.failsOnceAt103))
  = Some 105.
Proof.
  split; [|by vm_compute].
  intros config c fetch handler m l n b Hans Hon Hhas Hret Hc Hinit Hlast Hgap Hn.
  by eapply processNewBlock_tolerant.
Qed.

Lemma backfill_tolerates_fetch_errors_witness :
  ∃ m',
    Continuity.processNewBlock Samples.recordingConfig 105
      (Continuity.runOps Samples.recordingConfig
         [Continuity.Initialize; Continuity.ProcessNewBlock 101]
         (Continuity.newManager Samples.brokenAt103))
    = (Ok tt, m') ∧
    Continuity.lastProcessedBlockNumber m' = Some 105 ∧
    Continuity.fetched (Continuity.calls m') = [101] ++ seqZ (101 + 1) (105 - 101) ∧
    Continuity.blocksHanded (Continuity.calls m')
    = [Samples.emptyBlock 101]
      ++ Continuity.fetchedBlocks Samples.fetchExcept103 (seqZ (101 + 1) (105 - 101)) ∧
    Continuity.reportedErrors (Continuity.calls m')
    = [] ++ Continuity.fetchErrors Samples.fetchExcept103 (seqZ (101 + 1) (105 - 101 - 1)).
Proof.
  apply (proj1 backfill_tolerates_fetch_errors Samples.recordingConfig
           Samples.brokenAt103 Samples.fetchExcept103 (λ _ _, Ok tt)
           (Continuity.runOps Samples.recordingConfig
              [Continuity.Initialize; Continuity.ProcessNewBlock 101]
              (Continuity.newManager Samples.brokenAt103))
           101 105 (Samples.emptyBlock 105));
    reflexivity.
Defined.

(** The repository's own version of the scenario: block 103 can never
    be fetched. *)
Example backfill_despite_errors :
  Continuity.onBlockNumbers
    (Continuity.calls
       (Continuity.runOps Samples.recordingConfig
          [Continuity.Initialize; Continuity.ProcessNewBlock 101;
           Continuity.ProcessNewBlock 105]
          (Continuity.newManager Samples.brokenAt103)))
  = [101; 102; 104; 105].
Proof. reflexivity. Qed.

(** ** Monotonicity of [lastProcessedBlockNumber] *)

Section Monotone.
Import Watcher Continuity.

Lemma last_None_nil {A} (l : list A) : last l = None → l = [].
Proof.
  destruct l as [|a l]; [done|]. rewrite last_cons. by destruct (last l).
Qed.

Lemma StronglySorted_snoc (l : list Z) (x : Z) :
  StronglySorted Z.le l → (∀ y, last l = Some y → y ≤ x) →
  StronglySorted Z.le (l ++ [x]).
Proof.
  induction 1 as [|a l Hsorted IH Hall]; intros Hlast; simpl.
  - repeat constructor.
  - assert (Hax : a ≤ x).
    { destruct (last l) as [y|] eqn:Hy.
      - assert (a ≤ y).
        { rewrite Forall_forall in Hall. by apply Hall, last_Some_elem_of. }
        assert (y ≤ x) by (apply Hlast; by rewrite last_cons, Hy). lia.
      - apply Hlast. by rewrite last_cons, Hy. }
    constructor.
    + apply IH. intros y Hy. apply Hlast. by rewrite last_cons, Hy.
    + apply Forall_app. split; [done|]. by constructor.
Qed.

Lemma sameView_consistent m m' : sameView m m' → consistent m → consistent m'.
Proof. intros (Hl & Hi & Ha) (? & ? & ?). unfold consistent. by rewrite Hl, Hi, Ha. Qed.

Lemma sameView_consistentBelow b m m' :
  sameView m m' → consistentBelow b m → consistentBelow b m'.
Proof.
  intros Hv (Hc & Hi & Hb). pose proof Hv as (Hl & Hi' & _).
  split; [by eapply sameView_consistent|]. by rewrite Hl, Hi'.
Qed.

Lemma consistentBelow_weaken b b' m :
  b ≤ b' → consistentBelow b m → consistentBelow b' m.
Proof.
  intros Hle (Hc & Hi & Hb). split; [done|]. split; [done|].
  intros l Hl. specialize (Hb l Hl). lia.
Qed.

Lemma sameView_refl m : sameView m m.
Proof. done. Qed.

Lemma sameView_record call m :
  (∀ n, call ≠ Assign n) → sameView m (record call m).
Proof.
  intros Hcall. split; [done|]. split; [done|]. simpl.
  rewrite assigned_app. destruct call; simpl; try by rewrite app_nil_r.
  by destruct (Hcall blockNumber).
Qed.

Lemma sameView_trans m1 m2 m3 : sameView m1 m2 → sameView m2 m3 → sameView m1 m3.
Proof.
  intros (? & ? & ?) (? & ? & ?). unfold sameView. split; [|split]; congruence.
Qed.

(** Writing [n] over a value that is not above [n]. *)
Lemma consistent_assign n m :
  consistent m → isInitialized m = true →
  (∀ l, lastProcessedBlockNumber m = Some l → l ≤ n) →
  consistentBelow n (exec (set_lastProcessedBlockNumber n) m).
Proof.
  intros (Hlast & Hinit & Hsorted) Hi Hle.
  unfold exec, set_lastProcessedBlockNumber, modify; simpl.
  split; [|split; [done|by intros l [= ->]]].
  split; [|split]; simpl.
  - rewrite assigned_app. simpl. by rewrite last_snoc.
  - congruence.
  - rewrite assigned_app. simpl. apply StronglySorted_snoc; [done|].
    intros y Hy. apply Hle. congruence.
Qed.

Section WithConfig.
Variable config : BlockContinuityConfig.

Lemma fetchAndProcessBlock_sameView k m :
  sameView m (exec (fetchAndProcessBlock config k) m).
Proof.
  unfold exec, fetchAndProcessBlock, try_catch, bind, call_getBlock, call_onBlock, throw.
  destruct (getBlock (client m) k (calls m)) as [b|e]; simpl.
  - destruct (onBlock config b _); simpl;
      (eapply sameView_trans; [apply (sameView_record (GetBlock k))|
                               apply (sameView_record (OnBlock b))]); done.
  - by apply sameView_record.
Qed.

Lemma call_onError_sameView e m : sameView m (exec (call_onError config e) m).
Proof.
  unfold exec, call_onError. destruct (onError config) as [handler|]; simpl.
  - by apply sameView_record.
  - apply sameView_refl.
Qed.

(** One iteration of the backfill loop keeps the engine consistent and
    leaves it holding at most [k]. *)
Lemma backfill_iteration_consistent k m :
  consistentBelow (k - 1) m →
  consistentBelow k
    (exec (try_catch
             (bind (fetchAndProcessBlock config k)
                   (λ _, set_lastProcessedBlockNumber k))
             (λ error, call_onError config error)) m).
Proof.
  intros Hm.
  pose proof (fetchAndProcessBlock_sameView k m) as Hview.
  unfold exec in *. unfold try_catch, bind.
  destruct (fetchAndProcessBlock config k m) as [[[]|e] m1]; simpl in *.
  - pose proof (sameView_consistentBelow _ _ _ Hview Hm) as (Hc & Hi & Hb).
    apply (consistent_assign k m1 Hc Hi).
    intros l Hl. specialize (Hb l Hl). lia.
  - apply consistentBelow_weaken with (k - 1); [lia|].
    eapply sameView_consistentBelow; [|exact Hm].
    eapply sameView_trans; [exact Hview|]. apply call_onError_sameView.
Qed.

Lemma backfillLoop_consistent fuel : ∀ k e m,
  consistentBelow (k - 1) m →
  consistentBelow (Z.max (k - 1) e) (exec (backfillLoop config fuel k e) m).
Proof.
  induction fuel as [|fuel IH]; intros k e m Hm; simpl.
  - apply consistentBelow_weaken with (k - 1); [lia|done].
  - destruct (Z.leb_spec k e) as [Hle|Hgt].
    + apply (backfill_iteration_consistent k) in Hm.
      rewrite exec_bind. unfold exec in Hm.
      destruct (try_catch _ _ m) as [[[]|err] m1]; simpl in Hm.
      * apply consistentBelow_weaken with (Z.max (k + 1 - 1) e); [lia|].
        apply IH. by replace (k + 1 - 1) with k by lia.
      * apply consistentBelow_weaken with k; [lia|done].
    + apply consistentBelow_weaken with (k - 1); [lia|done].
Qed.

Lemma initialize_consistent m : consistent m → consistent (exec initialize m).
Proof.
  intros Hm. unfold exec, initialize, bind at 1, gets.
  destruct (isInitialized m) eqn:Hi; [done|].
  unfold try_catch, bind at 1, call_getBlockNumber.
  destruct (getBlockNumber (client m) (calls m)) as [latest|e]; simpl.
  - destruct Hm as (Hlast & Hnone & _). specialize (Hnone Hi).
    rewrite Hnone in Hlast. symmetry in Hlast. apply last_None_nil in Hlast.
    split; [|split]; simpl.
    + by rewrite !assigned_app, Hlast.
    + done.
    + rewrite !assigned_app, Hlast. simpl. repeat constructor.
  - eapply sameView_consistent; [|exact Hm]. by apply sameView_record.
Qed.

(** After the initialization step of [processNewBlock] and of
    [handleReconnection] the engine is initialized, unless the step
    threw. *)
Lemma initialize_outcome m :
  consistent m → isInitialized m = false →
  (∃ e m', initialize m = (Throw e, m') ∧ consistent m') ∨
  (∃ latest m', initialize m = (Ok tt, m') ∧ consistentBelow latest m' ∧
                lastProcessedBlockNumber m' = Some latest).
Proof.
  intros Hm Hi. pose proof (initialize_consistent m Hm) as Hc. unfold exec in Hc.
  assert (Hrun : initialize m
                 = match getBlockNumber (client m) (calls m) with
                   | Ok latest =>
                       (Ok tt, {| lastProcessedBlockNumber := Some latest;
                                  isInitialized := true;
                                  client := client m;
                                  calls := (calls m ++ [GetBlockNumber])
                                           ++ [Assign latest] |})
                   | Throw e => (Throw e, record GetBlockNumber m)
                   end).
  { unfold initialize, bind at 1, gets. rewrite Hi.
    unfold try_catch, bind at 1, call_getBlockNumber.
    by destruct (getBlockNumber (client m) (calls m)). }
  rewrite Hrun in *.
  destruct (getBlockNumber (client m) (calls m)) as [latest|e]; simpl in Hc.
  - right. eexists latest, _. split; [reflexivity|]. split; [|done].
    split; [done|]. split; [done|]. simpl. intros l [= ->]. lia.
  - left. by eexists e, _.
Qed.

Lemma consistent_fetch_assign n m :
  consistent m → isInitialized m = true →
  (∀ l, lastProcessedBlockNumber m = Some l → l ≤ n) →
  consistent
    (exec (bind (fetchAndProcessBlock config n)
                (λ _, set_lastProcessedBlockNumber n)) m).
Proof.
  intros Hm Hi Hle. rewrite exec_bind.
  pose proof (fetchAndProcessBlock_sameView n m) as Hview. unfold exec in Hview.
  destruct (fetchAndProcessBlock config n m) as [[[]|e] m1]; simpl in Hview.
  - pose proof Hview as (Hl & Hi' & _).
    apply consistent_assign; [by eapply sameView_consistent|congruence|].
    rewrite Hl. exact Hle.
  - by eapply sameView_consistent.
Qed.

(** The part of [processNewBlock] that follows the initialization. *)
Lemma classify_consistent n m :
  consistent m → isInitialized m = true →
  consistent
    (exec (bind (gets lastProcessedBlockNumber)
             (λ last,
                match last with
                | None =>
                    bind (fetchAndProcessBlock config n)
                      (λ _, set_lastProcessedBlockNumber n)
                | Some lastProcessed =>
                    if n =? lastProcessed + 1
                    then bind (fetchAndProcessBlock config n)
                           (λ _, set_lastProcessedBlockNumber n)
                    else if n >? lastProcessed + 1
                    then bind (backfillBlocks config (lastProcessed + 1) (n - 1))
                           (λ _, bind (fetchAndProcessBlock config n)
                                   (λ _, set_lastProcessedBlockNumber n))
                    else if n <=? lastProcessed then ret tt else ret tt
                end)) m).
Proof.
  intros Hm Hi. rewrite exec_bind. unfold gets.
  destruct (lastProcessedBlockNumber m) as [l|] eqn:Hl.
  - destruct (Z.eqb_spec n (l + 1)) as [->|Hne].
    { apply consistent_fetch_assign; [done..|]. intros l' Hl'. rewrite Hl in Hl'.
      injection Hl' as <-. lia. }
    destruct (Z.gtb_spec n (l + 1)) as [Hgt|Hle].
    + rewrite exec_bind.
      assert (Hbelow : consistentBelow (l + 1 - 1) m).
      { split; [done|]. split; [done|]. intros l' Hl'. rewrite Hl in Hl'.
        injection Hl' as <-. lia. }
      apply (backfillLoop_consistent (Z.to_nat (n - 1 - (l + 1) + 1)) _ (n - 1)) in Hbelow.
      unfold exec in Hbelow. unfold backfillBlocks.
      destruct (backfillLoop config _ (l + 1) (n - 1) m) as [[[]|e] m1];
        simpl in Hbelow; destruct Hbelow as (Hc1 & Hi1 & Hb1); [|done].
      apply consistent_fetch_assign; [done..|].
      intros l' Hl'. specialize (Hb1 l' Hl'). lia.
    + by destruct (n <=? l).
  - apply consistent_fetch_assign; [done..|]. intros l' Hl'. congruence.
Qed.

Lemma processNewBlock_consistent n m :
  consistent m → consistent (exec (processNewBlock config n) m).
Proof.
  intros Hm. unfold processNewBlock. rewrite exec_bind. unfold gets at 1.
  rewrite exec_bind.
  destruct (isInitialized m) eqn:Hi; simpl.
  - unfold ret. by apply classify_consistent.
  - destruct (initialize_outcome m Hm Hi)
      as [(e & m' & -> & Hm')|(latest & m' & -> & (Hm' & Hi' & _) & _)]; [done|].
    by apply classify_consistent.
Qed.

Lemma handleReconnection_consistent newClient m :
  consistent m → reconnectsBehind (HandleReconnection newClient) m = false →
  consistent (exec (handleReconnection config newClient) m).
Proof.
  intros Hm Hahead. unfold handleReconnection, reconnectsBehind in *.
  rewrite exec_bind. unfold set_client, modify. rewrite exec_bind. unfold gets at 1.
  rewrite exec_bind. unfold gets at 1. cbn [lastProcessedBlockNumber isInitialized].
  set (m0 := {| lastProcessedBlockNumber := lastProcessedBlockNumber m;
                isInitialized := isInitialized m;
                client := newClient; calls := calls m |}).
  assert (Hm0 : consistent m0) by done.
  destruct (isInitialized m) eqn:Hi;
    [destruct (lastProcessedBlockNumber m) as [l|] eqn:Hl|];
    try by apply initialize_consistent.
  unfold exec, try_catch, bind at 1, call_getBlockNumber. simpl.
  destruct (getBlockNumber newClient (calls m)) as [latest|e]; simpl.
  - destruct (Z.gtb_spec latest l) as [Hgt|Hle].
    + assert (Hbelow : consistentBelow (l + 1 - 1) (record GetBlockNumber m0)).
      { split; [|split; [done|]].
        - eapply sameView_consistent; [|exact Hm0]. by apply sameView_record.
        - simpl. intros l' [= <-]. lia. }
      apply (backfillLoop_consistent (Z.to_nat (latest - (l + 1) + 1)) _ latest) in Hbelow.
      unfold exec in Hbelow. unfold backfillBlocks, bind.
      destruct (backfillLoop config _ (l + 1) latest _) as [[[]|e] m1];
        simpl in *; destruct Hbelow as (Hc1 & Hi1 & Hb1); [|done].
      apply consistent_assign; [done..|].
      intros l' Hl'. specialize (Hb1 l' Hl'). lia.
    + destruct (Z.eqb_spec latest l) as [->|Hne]; simpl.
      * eapply sameView_consistent; [|exact Hm0]. by apply sameView_record.
      * apply Z.ltb_ge in Hahead. lia.
  - unfold throw. simpl.
    eapply sameView_consistent; [|exact Hm0]. by apply sameView_record.
Qed.

Lemma runOps_consistent ops : ∀ m,
  consistent m → neverReconnectsBehind config ops m = true →
  consistent (runOps config ops m).
Proof.
  induction ops as [|op ops IH]; intros m Hm Hops; simpl in *; [done|].
  apply andb_prop in Hops as [Hop Hrest]. apply negb_true_iff in Hop.
  apply IH; [|done].
  destruct op as [|n|newClient]; simpl.
  - by apply initialize_consistent.
  - by apply processNewBlock_consistent.
  - by apply handleReconnection_consistent.
Qed.

(** Reconnecting to a node whose head is behind: the engine takes the
    node's head. *)
Lemma handleReconnection_behind newClient m l latest :
  isInitialized m = true → lastProcessedBlockNumber m = Some l →
  getBlockNumber newClient (calls m) = Ok latest → latest < l →
  lastProcessedBlockNumber (exec (handleReconnection config newClient) m) = Some latest ∧
  fst (handleReconnection config newClient m) = Ok tt.
Proof.
  intros Hi Hl Hget Hlt.
  unfold exec, handleReconnection, bind, set_client, modify, gets, try_catch,
    call_getBlockNumber; simpl.
  rewrite Hi, Hl; simpl. rewrite Hget; simpl.
  destruct (Z.gtb_spec latest l); [lia|].
  rewrite (proj2 (Z.eqb_neq latest l)) by lia. done.
Qed.

End WithConfig.
End Monotone.

(** ** Readiness of the engine *)

Section Ready.
Import Watcher Continuity.
Variable config : BlockContinuityConfig.

Lemma initialize_uninitialized m :
  isInitialized m = false →
  initialize m
  = match getBlockNumber (client m) (calls m) with
    | Ok latest =>
        (Ok tt, {| lastProcessedBlockNumber := Some latest;
                   isInitialized := true;
                   client := client m;
                   calls := (calls m ++ [GetBlockNumber]) ++ [Assign latest] |})
    | Throw e => (Throw e, record GetBlockNumber m)
    end.
Proof.
  intros Hi. unfold initialize, bind at 1, gets. rewrite Hi.
  unfold try_catch, bind at 1, call_getBlockNumber.
  by destruct (getBlockNumber (client m) (calls m)).
Qed.

Lemma grows_refl m : grows m m.
Proof. done. Qed.

Lemma grows_trans m1 m2 m3 : grows m1 m2 → grows m2 m3 → grows m1 m3.
Proof.
  intros [Hi1 Hl1] [Hi2 Hl2]. split; [congruence|]. intros H. by apply Hl2, Hl1.
Qed.

Lemma sameView_grows m m' : sameView m m' → grows m m'.
Proof. intros (Hl & Hi & _). split; [done|]. by rewrite Hl. Qed.

Lemma assign_grows n m : grows m (exec (set_lastProcessedBlockNumber n) m).
Proof. split; [done|]. intros _. by eexists. Qed.

Lemma bind_grows {A} (c : M BlockContinuityManager A)
    (k : A → M BlockContinuityManager unit) m :
  grows m (exec c m) → (∀ a m1, grows m1 (exec (k a) m1)) →
  grows m (exec (bind c k) m).
Proof.
  intros Hc Hk. rewrite exec_bind. unfold exec in Hc.
  destruct (c m) as [[a|e] m1]; simpl in Hc; [|done].
  eapply grows_trans; [exact Hc|apply Hk].
Qed.

Lemma fetch_assign_grows k m :
  grows m (exec (bind (fetchAndProcessBlock config k)
                   (λ _, set_lastProcessedBlockNumber k)) m).
Proof.
  apply bind_grows.
  - apply sameView_grows, fetchAndProcessBlock_sameView.
  - intros _ m1. apply assign_grows.
Qed.

Lemma backfill_iteration_grows k m :
  grows m (exec (try_catch
                   (bind (fetchAndProcessBlock config k)
                      (λ _, set_lastProcessedBlockNumber k))
                   (λ error, call_onError config error)) m).
Proof.
  pose proof (fetch_assign_grows k m) as Hbody. unfold exec in *. unfold try_catch.
  destruct (bind (fetchAndProcessBlock config k) _ m) as [[[]|e] m1]; simpl in *;
    [done|].
  eapply grows_trans; [exact Hbody|].
  apply sameView_grows, call_onError_sameView.
Qed.

Lemma backfillLoop_grows fuel : ∀ k e m,
  grows m (exec (backfillLoop config fuel k e) m).
Proof.
  induction fuel as [|fuel IH]; intros k e m; simpl; [done|].
  destruct (k <=? e); [|done].
  apply bind_grows; [apply backfill_iteration_grows|].
  intros _ m1. apply IH.
Qed.

Lemma settled_grows m m' :
  settled m → isInitialized m = true → grows m m' →
  settled m' ∧ isInitialized m' = true.
Proof.
  intros Hs Hi [Hi' Hl']. rewrite Hi in Hi'. split; [|done].
  split; [intros _; by apply Hl', Hs|done].
Qed.

Lemma settled_sameView m m' : settled m → sameView m m' → settled m'.
Proof. intros Hs (Hl & Hi & _). unfold settled. by rewrite Hl, Hi. Qed.

Lemma initialize_settled m :
  settled m →
  settled (exec initialize m) ∧
  (fst (initialize m) = Ok tt → isInitialized (exec initialize m) = true).
Proof.
  intros Hs. unfold exec. destruct (isInitialized m) eqn:Hi.
  { assert (Hrun : initialize m = (Ok tt, m))
      by (unfold initialize, bind at 1, gets; by rewrite Hi).
    by rewrite Hrun. }
  rewrite (initialize_uninitialized m Hi).
  destruct (getBlockNumber (client m) (calls m)) as [latest|e]; simpl.
  - split; [|done]. split; [by eexists|done].
  - split; [|done]. eapply settled_sameView; [|by apply (sameView_record GetBlockNumber)].
    exact Hs.
Qed.

Lemma classify_grows n m :
  grows m
    (exec (bind (gets lastProcessedBlockNumber)
             (λ last,
                match last with
                | None =>
                    bind (fetchAndProcessBlock config n)
                      (λ _, set_lastProcessedBlockNumber n)
                | Some lastProcessed =>
                    if n =? lastProcessed + 1
                    then bind (fetchAndProcessBlock config n)
                           (λ _, set_lastProcessedBlockNumber n)
                    else if n >? lastProcessed + 1
                    then bind (backfillBlocks config (lastProcessed + 1) (n - 1))
                           (λ _, bind (fetchAndProcessBlock config n)
                                   (λ _, set_lastProcessedBlockNumber n))
                    else if n <=? lastProcessed then ret tt else ret tt
                end)) m).
Proof.
  apply bind_grows; [done|]. intros [l|] m1; [|apply fetch_assign_grows].
  destruct (n =? l + 1); [apply fetch_assign_grows|].
  destruct (n >? l + 1).
  - apply bind_grows; [apply backfillLoop_grows|].
    intros _ m2. apply fetch_assign_grows.
  - by destruct (n <=? l).
Qed.

Lemma processNewBlock_settled n m :
  settled m →
  settled (exec (processNewBlock config n) m) ∧
  (isInitialized m = true → isInitialized (exec (processNewBlock config n) m) = true).
Proof.
  intros Hs. remember (exec (processNewBlock config n) m) as m' eqn:Hm'.
  unfold processNewBlock in Hm'. rewrite exec_bind in Hm'. unfold gets at 1 in Hm'.
  rewrite exec_bind in Hm'.
  destruct (isInitialized m) eqn:Hi; simpl in Hm'.
  - unfold ret in Hm'. subst m'.
    destruct (settled_grows m _ Hs Hi (classify_grows n m)) as [Hs' Hi']. by split.
  - destruct (initialize_settled m Hs) as [Hinit Hok]. unfold exec in Hinit, Hok.
    destruct (initialize m) as [[[]|e] m1]; simpl in *; subst m'; [|done].
    split; [|done].
    apply (settled_grows m1 _ Hinit (Hok eq_refl) (classify_grows n m1)).
Qed.

Lemma handleReconnection_settled newClient m :
  settled m →
  settled (exec (handleReconnection config newClient) m) ∧
  (isInitialized m = true →
   isInitialized (exec (handleReconnection config newClient) m) = true).
Proof.
  intros Hs. remember (exec (handleReconnection config newClient) m) as m' eqn:Hm'.
  unfold handleReconnection in Hm'.
  rewrite exec_bind in Hm'. unfold set_client, modify in Hm'.
  rewrite exec_bind in Hm'. unfold gets at 1 in Hm'.
  rewrite exec_bind in Hm'. unfold gets at 1 in Hm'.
  cbn [lastProcessedBlockNumber isInitialized] in Hm'.
  set (m0 := {| lastProcessedBlockNumber := lastProcessedBlockNumber m;
                isInitialized := isInitialized m;
                client := newClient; calls := calls m |}) in Hm'.
  assert (Hs0 : settled m0) by done.
  assert (Hi0 : isInitialized m0 = isInitialized m) by done.
  destruct (isInitialized m) eqn:Hi;
    [destruct (lastProcessedBlockNumber m) as [l|] eqn:Hl|].
  - cut (grows m0 m').
    { intros Hg. destruct (settled_grows m0 _ Hs0 Hi0 Hg). by split. }
    subst m'.
    unfold exec, try_catch, bind at 1, call_getBlockNumber.
    destruct (getBlockNumber (client m0) (calls m0)) as [latest|e]; simpl.
    2:{ by apply sameView_grows, (sameView_record GetBlockNumber). }
    eapply grows_trans;
      [apply sameView_grows, (sameView_record GetBlockNumber m0); done|].
    match goal with
    | |- grows ?s (snd (let (o, s') := ?c ?s in _)) =>
        cut (grows s (exec c s));
        [unfold exec; by destruct (c s) as [[[]|?] ?]|]
    end.
    destruct (latest >? l).
    + apply bind_grows; [apply backfillLoop_grows|]. intros _ m1. apply assign_grows.
    + destruct (latest =? l); [done|apply assign_grows].
  - exfalso. destruct Hs as [Hs _]. destruct (Hs Hi) as [? ?]. congruence.
  - destruct (initialize_settled m0 Hs0) as [Hinit _]. subst m'. by split.
Qed.

Lemma runOps_settled ops : ∀ m,
  settled m → settled (runOps config ops m) ∧
  (isInitialized m = true → isInitialized (runOps config ops m) = true).
Proof.
  induction ops as [|op ops IH]; intros m Hs; simpl; [done|].
  assert (Hstep : settled (exec (perform config op) m) ∧
                  (isInitialized m = true →
                   isInitialized (exec (perform config op) m) = true)).
  { destruct op as [|n|newClient]; simpl.
    - destruct (initialize_settled m Hs) as [Hinit _]. split; [done|].
      intros Hi. unfold exec.
      assert (Hrun : initialize m = (Ok tt, m))
        by (unfold initialize, bind at 1, gets; by rewrite Hi).
      by rewrite Hrun.
    - by apply processNewBlock_settled.
    - by apply handleReconnection_settled. }
  destruct Hstep as [Hs1 Hi1]. destruct (IH _ Hs1) as [Hs2 Hi2].
  split; [done|]. intros Hi. by apply Hi2, Hi1.
Qed.

Lemma runOps_app ops ops' m :
  runOps config (ops ++ ops') m = runOps config ops' (runOps config ops m).
Proof. revert m. induction ops as [|op ops IH]; intros m; simpl; [done|apply IH]. Qed.

End Ready.

(** ** Where the written values go down *)

Section Descents.
Import Watcher Continuity.
Variable config : BlockContinuityConfig.

Lemma last_option_list {A} (o : option A) : last (option_list o) = o.
Proof. by destruct o. Qed.

Lemma last_app_last (L ws : list Z) :
  last (option_list (last L) ++ ws) = last (L ++ ws).
Proof.
  rewrite !last_app. destruct (last ws); [done|]. apply last_option_list.
Qed.

Lemma sorted_app_last (L ws : list Z) :
  StronglySorted Z.le L → StronglySorted Z.le (option_list (last L) ++ ws) →
  StronglySorted Z.le (L ++ ws).
Proof.
  induction 1 as [|a L Hsorted IH Hall]; intros Hws; [done|].
  rewrite last_cons in Hws. simpl.
  destruct (last L) as [z|] eqn:Hz.
  - constructor; [by apply IH|].
    apply Forall_app. split; [done|].
    assert (a ≤ z) by (rewrite Forall_forall in Hall; by apply Hall, last_Some_elem_of).
    apply StronglySorted_inv in Hws as [_ Hzws].
    eapply Forall_impl; [exact Hzws|]. simpl. intros y Hy. lia.
  - apply last_None_nil in Hz as ->. exact Hws.
Qed.

Lemma descents_sorted (ws : list Z) : StronglySorted Z.le ws → descents ws = [].
Proof.
  induction 1 as [|a ws Hsorted IH Hall]; [done|].
  destruct ws as [|b ws]; [done|]. cbn [descents] in *.
  apply Forall_inv in Hall. destruct (Z.ltb_spec b a); [lia|done].
Qed.

Lemma descents_app (L ws : list Z) :
  descents (L ++ ws) = descents L ++ descents (option_list (last L) ++ ws).
Proof.
  induction L as [|a L IH]; [done|].
  destruct L as [|b L]; [done|].
  rewrite last_cons. change (last (b :: L)) with (last (b :: L)) in *.
  destruct (last (b :: L)) as [z|] eqn:Hz.
  2:{ by apply last_None_nil in Hz. }
  cbn [app descents] in *. destruct (b <? a); [|exact IH].
  by rewrite IH.
Qed.

Lemma sameView_ascends m m' : sameView m m' → ascends m m'.
Proof.
  intros (Hl & _ & Ha). exists []. rewrite !app_nil_r, Ha, Hl, last_option_list.
  split; [done|]. split; [done|].
  destruct (lastProcessedBlockNumber m); repeat constructor.
Qed.

Lemma ascends_trans m1 m2 m3 : ascends m1 m2 → ascends m2 m3 → ascends m1 m3.
Proof.
  intros (ws1 & Ha1 & Hl1 & Hs1) (ws2 & Ha2 & Hl2 & Hs2).
  exists (ws1 ++ ws2). rewrite Hl1 in Hl2, Hs2.
  split; [by rewrite Ha2, Ha1, app_assoc|]. rewrite app_assoc. split.
  - by rewrite Hl2, last_app_last.
  - by apply sorted_app_last.
Qed.

Lemma assign_ascends n m :
  heldBelow n m → ascends m (exec (set_lastProcessedBlockNumber n) m).
Proof.
  intros Hle. exists [n]. unfold exec, set_lastProcessedBlockNumber, modify; simpl.
  rewrite assigned_app. split; [done|]. split; [by rewrite last_snoc|].
  destruct (lastProcessedBlockNumber m) as [l|] eqn:Hl; simpl.
  - repeat constructor. by apply Hle.
  - repeat constructor.
Qed.

Lemma sameView_heldBelow b m m' : sameView m m' → heldBelow b m → heldBelow b m'.
Proof. intros (Hl & _) Hb. unfold heldBelow. by rewrite Hl. Qed.

Lemma heldBelow_weaken b b' m : b ≤ b' → heldBelow b m → heldBelow b' m.
Proof. intros Hle Hb l Hl. specialize (Hb l Hl). lia. Qed.

Lemma fetch_assign_ascends k m :
  heldBelow k m →
  ascends m (exec (bind (fetchAndProcessBlock config k)
                     (λ _, set_lastProcessedBlockNumber k)) m) ∧
  heldBelow k (exec (bind (fetchAndProcessBlock config k)
                       (λ _, set_lastProcessedBlockNumber k)) m) ∧
  (∀ e m1, bind (fetchAndProcessBlock config k)
             (λ _, set_lastProcessedBlockNumber k) m = (Throw e, m1) →
           sameView m m1).
Proof.
  intros Hb. pose proof (fetchAndProcessBlock_sameView config k m) as Hview.
  unfold exec in *. unfold bind.
  destruct (fetchAndProcessBlock config k m) as [[[]|e] m1]; simpl in *.
  - split; [|split; [by intros l [= ->]|done]].
    eapply ascends_trans; [by apply sameView_ascends|].
    apply (assign_ascends k m1). by eapply sameView_heldBelow.
  - split; [by apply sameView_ascends|].
    split; [by eapply sameView_heldBelow|]. by intros e' m' [= <- <-].
Qed.

Lemma backfill_iteration_ascends k m :
  heldBelow k m →
  ascends m
    (exec (try_catch
             (bind (fetchAndProcessBlock config k)
                (λ _, set_lastProcessedBlockNumber k))
             (λ error, call_onError config error)) m) ∧
  heldBelow k
    (exec (try_catch
             (bind (fetchAndProcessBlock config k)
                (λ _, set_lastProcessedBlockNumber k))
             (λ error, call_onError config error)) m).
Proof.
  intros Hb. destruct (fetch_assign_ascends k m Hb) as (Hup & Hbelow & Hthrow).
  unfold exec in *. unfold try_catch.
  destruct (bind (fetchAndProcessBlock config k) _ m) as [[[]|e] m1]; simpl in *;
    [done|].
  pose proof (call_onError_sameView config e m1) as Hview.
  split.
  - eapply ascends_trans; [exact Hup|by apply sameView_ascends].
  - by eapply sameView_heldBelow.
Qed.

Lemma backfillLoop_ascends fuel : ∀ k e m,
  heldBelow (k - 1) m →
  ascends m (exec (backfillLoop config fuel k e) m) ∧
  heldBelow (Z.max (k - 1) e) (exec (backfillLoop config fuel k e) m).
Proof.
  induction fuel as [|fuel IH]; intros k e m Hb; simpl.
  - split; [by apply sameView_ascends|]. apply heldBelow_weaken with (k - 1); [lia|done].
  - destruct (Z.leb_spec k e) as [Hle|Hgt].
    + destruct (backfill_iteration_ascends k m) as [Hup Hbelow].
      { apply heldBelow_weaken with (k - 1); [lia|done]. }
      rewrite exec_bind. unfold exec in Hup, Hbelow.
      destruct (try_catch _ _ m) as [[[]|err] m1]; simpl in Hup, Hbelow.
      * destruct (IH (k + 1) e m1) as [Hup' Hbelow'].
        { by replace (k + 1 - 1) with k by lia. }
        split; [by eapply ascends_trans|].
        apply heldBelow_weaken with (Z.max (k + 1 - 1) e); [lia|done].
      * split; [done|]. apply heldBelow_weaken with k; [lia|done].
    + split; [by apply sameView_ascends|].
      apply heldBelow_weaken with (k - 1); [lia|done].
Qed.

Lemma initialize_ascends m : settled m → ascends m (exec initialize m).
Proof.
  intros Hs. unfold exec. destruct (isInitialized m) eqn:Hi.
  { assert (Hrun : initialize m = (Ok tt, m))
      by (unfold initialize, bind at 1, gets; by rewrite Hi).
    rewrite Hrun. by apply sameView_ascends. }
  assert (Hnone : lastProcessedBlockNumber m = None).
  { destruct (lastProcessedBlockNumber m) as [l|] eqn:Hl; [|done].
    destruct Hs as [_ Hs]. rewrite Hs in Hi; [done|by eexists]. }
  rewrite (initialize_uninitialized m Hi).
  destruct (getBlockNumber (client m) (calls m)) as [latest|e]; simpl.
  - exists [latest]. simpl. rewrite !assigned_app, Hnone. simpl.
    rewrite app_nil_r. split; [done|]. split; [done|]. repeat constructor.
  - by apply sameView_ascends, (sameView_record GetBlockNumber).
Qed.

Lemma classify_ascends n m :
  ascends m
    (exec (bind (gets lastProcessedBlockNumber)
             (λ last,
                match last with
                | None =>
                    bind (fetchAndProcessBlock config n)
                      (λ _, set_lastProcessedBlockNumber n)
                | Some lastProcessed =>
                    if n =? lastProcessed + 1
                    then bind (fetchAndProcessBlock config n)
                           (λ _, set_lastProcessedBlockNumber n)
                    else if n >? lastProcessed + 1
                    then bind (backfillBlocks config (lastProcessed + 1) (n - 1))
                           (λ _, bind (fetchAndProcessBlock config n)
                                   (λ _, set_lastProcessedBlockNumber n))
                    else if n <=? lastProcessed then ret tt else ret tt
                end)) m).
Proof.
  rewrite exec_bind. unfold gets.
  destruct (lastProcessedBlockNumber m) as [l|] eqn:Hl.
  - assert (Hheld : heldBelow l m).
    { intros l' Hl'. rewrite Hl in Hl'. injection Hl' as <-. lia. }
    destruct (Z.eqb_spec n (l + 1)) as [->|Hne].
    { apply fetch_assign_ascends. apply heldBelow_weaken with l; [lia|done]. }
    destruct (Z.gtb_spec n (l + 1)) as [Hgt|Hle].
    + rewrite exec_bind.
      destruct (backfillLoop_ascends (Z.to_nat (n - 1 - (l + 1) + 1)) (l + 1) (n - 1) m)
        as [Hup Hbelow].
      { by replace (l + 1 - 1) with l by lia. }
      unfold exec in Hup, Hbelow. unfold backfillBlocks.
      destruct (backfillLoop config _ (l + 1) (n - 1) m) as [[[]|e] m1];
        simpl in Hup, Hbelow; [|done].
      eapply ascends_trans; [exact Hup|].
      apply fetch_assign_ascends.
      apply heldBelow_weaken with (Z.max (l + 1 - 1) (n - 1)); [lia|done].
    + destruct (n <=? l); by apply sameView_ascends.
  - apply fetch_assign_ascends. intros l' Hl'. congruence.
Qed.

Lemma processNewBlock_ascends n m :
  settled m → ascends m (exec (processNewBlock config n) m).
Proof.
  intros Hs. unfold processNewBlock. rewrite exec_bind. unfold gets at 1.
  rewrite exec_bind.
  destruct (isInitialized m) eqn:Hi; simpl.
  - unfold ret. apply classify_ascends.
  - pose proof (initialize_ascends m Hs) as Hinit. unfold exec in Hinit.
    destruct (initialize m) as [[[]|e] m1]; simpl in *; [|done].
    eapply ascends_trans; [exact Hinit|apply classify_ascends].
Qed.

(** What a reconnection writes: values that do not go down, unless it
    finds the node's head behind, and then that head alone. *)
Lemma handleReconnection_writes newClient m :
  settled m →
  ∃ ws,
    assigned (calls (exec (handleReconnection config newClient) m))
    = assigned (calls m) ++ ws ∧
    lastProcessedBlockNumber (exec (handleReconnection config newClient) m)
    = last (option_list (lastProcessedBlockNumber m) ++ ws) ∧
    descents (option_list (lastProcessedBlockNumber m) ++ ws)
    = behindHead (HandleReconnection newClient) m.
Proof.
  intros Hs.
  assert (Hup : ∀ m', ascends m m' →
            behindHead (HandleReconnection newClient) m = [] →
            ∃ ws, assigned (calls m') = assigned (calls m) ++ ws ∧
                  lastProcessedBlockNumber m'
                  = last (option_list (lastProcessedBlockNumber m) ++ ws) ∧
                  descents (option_list (lastProcessedBlockNumber m) ++ ws)
                  = behindHead (HandleReconnection newClient) m).
  { intros m' (ws & Ha & Hl & Hsorted) Hnone. exists ws.
    split; [done|]. split; [done|]. by rewrite Hnone, descents_sorted. }
  remember (exec (handleReconnection config newClient) m) as m' eqn:Hm'.
  unfold handleReconnection in Hm'.
  rewrite exec_bind in Hm'. unfold set_client, modify in Hm'.
  rewrite exec_bind in Hm'. unfold gets at 1 in Hm'.
  rewrite exec_bind in Hm'. unfold gets at 1 in Hm'.
  cbn [lastProcessedBlockNumber isInitialized] in Hm'.
  set (m0 := {| lastProcessedBlockNumber := lastProcessedBlockNumber m;
                isInitialized := isInitialized m;
                client := newClient; calls := calls m |}) in Hm'.
  assert (Hm0 : sameView m m0) by done.
  assert (Hs0 : settled m0) by done.
  assert (Hrec : sameView m (record GetBlockNumber m0))
    by (eapply sameView_trans; [exact Hm0|by apply sameView_record]).
  unfold behindHead in *.
  destruct (isInitialized m) eqn:Hi;
    [destruct (lastProcessedBlockNumber m) as [l|] eqn:Hl|].
  - unfold exec, try_catch, bind at 1, call_getBlockNumber in Hm'.
    change (getBlockNumber (client m0) (calls m0))
      with (getBlockNumber newClient (calls m)) in Hm'.
    destruct (getBlockNumber newClient (calls m)) as [latest|e]; simpl in Hm'.
    2:{ apply Hup; [|done]. subst m'.
        by apply sameView_ascends. }
    destruct (Z.gtb_spec latest l) as [Hgt|Hle].
    + destruct (Z.ltb_spec latest l) as [?|_]; [lia|]. apply Hup; [|done].
      eapply ascends_trans; [apply sameView_ascends, Hrec|].
      destruct (backfillLoop_ascends (Z.to_nat (latest - (l + 1) + 1)) (l + 1) latest
                  (record GetBlockNumber m0)) as [Hloop Hbelow].
      { simpl. intros l' [= <-]. lia. }
      unfold exec in Hloop, Hbelow. unfold backfillBlocks, bind in Hm'.
      destruct (backfillLoop config _ (l + 1) latest _) as [[[]|e] m1];
        simpl in *; subst m'; [|done].
      eapply ascends_trans; [exact Hloop|].
      apply (assign_ascends latest m1).
      apply heldBelow_weaken with (Z.max (l + 1 - 1) latest); [lia|done].
    + destruct (Z.eqb_spec latest l) as [->|Hne]; simpl in Hm'.
      * rewrite Z.ltb_irrefl in *. apply Hup; [|done]. subst m'.
        by apply sameView_ascends.
      * destruct (Z.ltb_spec latest l) as [Hlt|?]; [|lia].
        exists [latest]. subst m'. simpl. rewrite !assigned_app. simpl.
        rewrite app_nil_r. split; [done|]. split; [done|].
        by rewrite (proj2 (Z.ltb_lt latest l) Hlt).
  - apply Hup; [|done]. subst m'.
    eapply ascends_trans; [exact (sameView_ascends _ _ Hm0)|]. by apply initialize_ascends.
  - apply Hup; [|done]. subst m'.
    eapply ascends_trans; [exact (sameView_ascends _ _ Hm0)|]. by apply initialize_ascends.
Qed.

Lemma perform_writes op m :
  settled m →
  ∃ ws,
    assigned (calls (exec (perform config op) m)) = assigned (calls m) ++ ws ∧
    lastProcessedBlockNumber (exec (perform config op) m)
    = last (option_list (lastProcessedBlockNumber m) ++ ws) ∧
    descents (option_list (lastProcessedBlockNumber m) ++ ws) = behindHead op m.
Proof.
  intros Hs. destruct op as [|n|newClient]; simpl.
  - destruct (initialize_ascends m Hs) as (ws & Ha & Hl & Hsorted).
    exists ws. split; [done|]. split; [done|]. by apply descents_sorted.
  - destruct (processNewBlock_ascends n m Hs) as (ws & Ha & Hl & Hsorted).
    exists ws. split; [done|]. split; [done|]. by apply descents_sorted.
  - by apply handleReconnection_writes.
Qed.

Lemma runOps_descents ops : ∀ m,
  settled m → lastProcessedBlockNumber m = last (assigned (calls m)) →
  descents (assigned (calls (runOps config ops m)))
  = descents (assigned (calls m)) ++ behindHeads config ops m ∧
  lastProcessedBlockNumber (runOps config ops m)
  = last (assigned (calls (runOps config ops m))).
Proof.
  induction ops as [|op ops IH]; intros m Hs Hlast; simpl.
  - by rewrite app_nil_r.
  - destruct (perform_writes op m Hs) as (ws & Ha & Hl & Hdown).
    destruct (IH (exec (perform config op) m)) as [Hrest Hheld].
    + by apply (runOps_settled config [op] m).
    + by rewrite Hl, Ha, Hlast, last_app_last.
    + split; [|done].
      by rewrite Hrest, Ha, descents_app, <- Hlast, Hdown, app_assoc.
Qed.

End Descents.

(** C3, as the code has it.  In a run of [initialize],
    [processNewBlock] and [handleReconnection] from a new engine the
    field [lastProcessedBlockNumber] holds the value written last, and
    the values written go down exactly at the reconnections that find
    the new node's head behind the engine, from the value held to that
    head: whatever the nodes and the callbacks do, the descents of the
    sequence of writes are the heads found behind, in order.  So in a
    run without such a reconnection the values never go down; and a
    reconnection that finds the head behind leaves the engine holding
    that head. *)
Theorem lastProcessed_monotone_unless_behind :
  (∀ (config : Continuity.BlockContinuityConfig) (c : Continuity.PublicClient)
     (ops : list Continuity.Op),
     Continuity.neverReconnectsBehind config ops (Continuity.newManager c) = true →
     StronglySorted Z.le
       (Continuity.assigned
          (Continuity.calls (Continuity.runOps config ops (Continuity.newManager c)))) ∧
     Continuity.lastProcessedBlockNumber
       (Continuity.runOps config ops (Continuity.newManager c))
     = last (Continuity.assigned
               (Continuity.calls
                  (Continuity.runOps config ops (Continuity.newManager c))))) ∧
  (∀ (config : Continuity.BlockContinuityConfig)
     (m : Continuity.BlockContinuityManager) (newClient : Continuity.PublicClient)
     (l latest : Z),
     Continuity.isInitialized m = true →
     Continuity.lastProcessedBlockNumber m = Some l →
     Continuity.getBlockNumber newClient (Continuity.calls m) = Ok latest →
     latest < l →
     Continuity.lastProcessedBlockNumber
       (exec (Continuity.handleReconnection config newClient) m) = Some latest) ∧
  (∀ (config : Continuity.BlockContinuityConfig) (c : Continuity.PublicClient)
     (ops : list Continuity.Op),
     Continuity.descents
       (Continuity.assigned
          (Continuity.calls (Continuity.runOps config ops (Continuity.newManager c))))
     = Continuity.behindHeads config ops (Continuity.newManager c) ∧
     Continuity.lastProcessedBlockNumber
       (Continuity.runOps config ops (Continuity.newManager c))
     = last (Continuity.assigned
               (Continuity.calls
                  (Continuity.runOps config ops (Continuity.newManager c))))).
Proof.
  split; [|split].
  - intros config c ops Hops.
    destruct (runOps_consistent config ops (Continuity.newManager c))
      as (Hlast & _ & Hsorted); [|done|done].
    split; [done|]. split; [done|]. constructor.
  - intros config m newClient l latest Hi Hl Hget Hlt.
    by eapply handleReconnection_behind.
  - intros config c ops.
    apply (runOps_descents config ops (Continuity.newManager c)); [|done].
    split; [done|]. by intros [? ?].
Qed.

Lemma lastProcessed_monotone_unless_behind_witness :
  StronglySorted Z.le
    (Continuity.assigned
       (Continuity.calls
          (Continuity.runOps Samples.recordingConfig
             [Continuity.Initialize; Continuity.ProcessNewBlock 101;
              Continuity.ProcessNewBlock 102;
              Continuity.HandleReconnection (Samples.steadyClient 106)]
             (Continuity.newManager (Samples.steadyClient 100))))).
Proof.
  apply (proj1 lastProcessed_monotone_unless_behind Samples.recordingConfig
           (Samples.steadyClient 100)
           [Continuity.Initialize; Continuity.ProcessNewBlock 101;
            Continuity.ProcessNewBlock 102;
            Continuity.HandleReconnection (Samples.steadyClient 106)]).
  reflexivity.
Defined.

(** Scenario S5: the reconnection backfills 103 to 106. *)
Example reconnection_backfill :
  Continuity.onBlockNumbers
    (Continuity.calls
       (Continuity.runOps Samples.recordingConfig
          [Continuity.Initialize; Continuity.ProcessNewBlock 101;
           Continuity.ProcessNewBlock 102;
           Continuity.HandleReconnection (Samples.steadyClient 106)]
          (Continuity.newManager (Samples.steadyClient 100))))
  = [101; 102; 103; 104; 105; 106].
Proof. reflexivity. Qed.

(** C3, as stated, fails: an engine initialized at 100 that reconnects
    to a node whose head is 90 writes 90 over 100. *)
Lemma lastProcessed_monotone_counterexample :
  ¬ StronglySorted Z.le
      (Continuity.assigned
         (Continuity.calls
            (Continuity.runOps Samples.recordingConfig
               [Continuity.Initialize;
                Continuity.HandleReconnection (Samples.steadyClient 90)]
               (Continuity.newManager (Samples.steadyClient 100))))).
Proof.
  assert (Heq : Continuity.assigned
                  (Continuity.calls
                     (Continuity.runOps Samples.recordingConfig
                        [Continuity.Initialize;
                         Continuity.HandleReconnection (Samples.steadyClient 90)]
                        (Continuity.newManager (Samples.steadyClient 100))))
                = [100; 90]) by reflexivity.
  rewrite Heq. intros Hsorted.
  apply StronglySorted_inv in Hsorted as [_ Hall].
  apply Forall_inv in Hall. lia.
Qed.

(** A run with a reconnection that finds the head behind, followed by
    a head: the writes go down once, from 100 to 90, and up from there. *)
Example descent_at_behind_reconnection :
  Continuity.assigned
    (Continuity.calls
       (Continuity.runOps Samples.recordingConfig
          [Continuity.Initialize;
           Continuity.HandleReconnection (Samples.steadyClient 90);
           Continuity.ProcessNewBlock 95]
          (Continuity.newManager (Samples.steadyClient 100))))
  = [100; 90; 91; 92; 93; 94; 95] ∧
  Continuity.behindHeads Samples.recordingConfig
    [Continuity.Initialize;
     Continuity.HandleReconnection (Samples.steadyClient 90);
     Continuity.ProcessNewBlock 95]
    (Continuity.newManager (Samples.steadyClient 100))
  = [(100, 90)].
Proof. split; reflexivity. Qed.

(** ** Endpoint health *)

Section HealthBookkeeping.
Import RpcPool.

Lemma handleConnectionError_result endpoint now now' p health :
  healthMap p !! endpoint = Some health →
  handleConnectionError endpoint now now' p
  = (Ok tt,
     set_healthMap
       (<[endpoint :=
            {| url := url health;
               status := if failCount health + 1 >=? 3 then DOWN else DEGRADED;
               failCount := failCount health + 1;
               lastErrorTime := now;
               lastSuccessTime := lastSuccessTime health;
               nextAvailableTime :=
                 now' + Z.min (2 ^ (failCount health + 1) * baseDelay (config p))
                          (maxCooldown (config p)) |}]> (healthMap p)) p).
Proof.
  intros Hh. unfold handleConnectionError, bind, getHealth, gets, putHealth, modify.
  by rewrite Hh.
Qed.

Lemma healthAt_reads i p : snd (healthAt i p) = p.
Proof.
  unfold healthAt, bind, getHealth, ret.
  destruct (endpoints p !! i) as [e|]; [|done].
  by destruct (healthMap p !! e).
Qed.

(** The rotation moves [currentIndex] and nothing else. *)
Lemma rotateLoop_frame fuel : ∀ startIndex now p,
  healthMap (exec (rotateLoop fuel startIndex now) p) = healthMap p ∧
  currentClient (exec (rotateLoop fuel startIndex now) p) = currentClient p ∧
  currentEndpoint (exec (rotateLoop fuel startIndex now) p) = currentEndpoint p.
Proof.
  induction fuel as [|fuel IH]; intros startIndex now p; simpl; [done|].
  repeat (rewrite exec_bind; unfold gets, modify; cbn [fst snd]).
  match goal with
  | |- context [healthAt ?i ?q] =>
      pose proof (healthAt_reads i q) as Hread;
      destruct (healthAt i q) as [[[e h]|err] q']; simpl in Hread; subst q'
  end; [|done].
  simpl. destruct (usable now h); [done|].
  destruct (_ =? startIndex)%nat; [done|].
  apply (IH startIndex now (set_currentIndex _ p)).
Qed.

Lemma rotateToNextHealthyEndpoint_frame now p :
  healthMap (exec (rotateToNextHealthyEndpoint now) p) = healthMap p ∧
  currentClient (exec (rotateToNextHealthyEndpoint now) p) = currentClient p ∧
  currentEndpoint (exec (rotateToNextHealthyEndpoint now) p) = currentEndpoint p.
Proof.
  change (exec (rotateToNextHealthyEndpoint now) p)
    with (exec (rotateLoop (length (endpoints p)) (currentIndex p) now) p).
  apply rotateLoop_frame.
Qed.

Lemma handleDisconnection_exec endpoint now now' p health :
  isDestroyed p = false → healthMap p !! endpoint = Some health →
  exec (handleDisconnection endpoint now now') p
  = exec (rotateToNextHealthyEndpoint now')
      (dropClient
         (set_healthMap
            (<[endpoint :=
                 {| url := url health;
                    status := DEGRADED;
                    failCount := failCount health + 1;
                    lastErrorTime := now;
                    lastSuccessTime := lastSuccessTime health;
                    nextAvailableTime := nextAvailableTime health |}]> (healthMap p))
            p)).
Proof.
  intros Hd Hh. unfold handleDisconnection.
  rewrite exec_bind. unfold gets at 1. rewrite Hd.
  rewrite exec_bind. unfold gets at 1. rewrite Hh.
  rewrite exec_bind. unfold putHealth, modify at 1.
  rewrite exec_bind. unfold modify at 1. done.
Qed.

Lemma handleDisconnection_health endpoint now now' p health :
  isDestroyed p = false → healthMap p !! endpoint = Some health →
  healthMap (exec (handleDisconnection endpoint now now') p)
  = <[endpoint :=
        {| url := url health;
           status := DEGRADED;
           failCount := failCount health + 1;
           lastErrorTime := now;
           lastSuccessTime := lastSuccessTime health;
           nextAvailableTime := nextAvailableTime health |}]> (healthMap p) ∧
  currentClient (exec (handleDisconnection endpoint now now') p) = None ∧
  currentEndpoint (exec (handleDisconnection endpoint now now') p) = None.
Proof.
  intros Hd Hh. rewrite (handleDisconnection_exec endpoint now now' p health Hd Hh).
  by destruct (rotateToNextHealthyEndpoint_frame now'
                 (dropClient
                    (set_healthMap
                       (<[endpoint :=
                            {| url := url health;
                               status := DEGRADED;
                               failCount := failCount health + 1;
                               lastErrorTime := now;
                               lastSuccessTime := lastSuccessTime health;
                               nextAvailableTime := nextAvailableTime health |}]>
                          (healthMap p)) p))) as (-> & -> & ->).
Qed.

End HealthBookkeeping.

(** C5, as the code has it.  An error handled by
    [handleConnectionError] (a failed connection attempt, or the socket's
    [error] signal) increments [failCount], sets [lastErrorTime] to the
    clock, sets [nextAvailableTime] to the clock plus
    [min(2^failCount * baseDelay, maxCooldown)] for the incremented
    [failCount], and makes the status Degraded below three failures and
    Down from three on.  The socket's [close] signal, handled by
    [handleDisconnection], increments [failCount], sets [lastErrorTime],
    sets the status to Degraded and leaves [nextAvailableTime] as it
    was; it also drops the current client. *)
Theorem failure_bookkeeping (p : RpcPool.WsRpcPool) (endpoint : string)
    (health : RpcPool.EndpointHealth) (now now' : Z) :
  RpcPool.healthMap p !! endpoint = Some health →
  (∃ p' health',
     RpcPool.handleConnectionError endpoint now now' p = (Ok tt, p') ∧
     RpcPool.healthMap p' !! endpoint = Some health' ∧
     RpcPool.failCount health' = RpcPool.failCount health + 1 ∧
     RpcPool.lastErrorTime health' = now ∧
     RpcPool.nextAvailableTime health'
     = now' + Z.min (2 ^ RpcPool.failCount health' * RpcPool.baseDelay (RpcPool.config p))
                (RpcPool.maxCooldown (RpcPool.config p)) ∧
     RpcPool.status health'
     = (if RpcPool.failCount health' <? 3 then RpcPool.DEGRADED else RpcPool.DOWN)) ∧
  (RpcPool.isDestroyed p = false →
   ∃ health',
     RpcPool.healthMap (exec (RpcPool.handleDisconnection endpoint now now') p) !! endpoint
     = Some health' ∧
     RpcPool.failCount health' = RpcPool.failCount health + 1 ∧
     RpcPool.lastErrorTime health' = now ∧
     RpcPool.nextAvailableTime health' = RpcPool.nextAvailableTime health ∧
     RpcPool.status health' = RpcPool.DEGRADED ∧
     RpcPool.currentClient (exec (RpcPool.handleDisconnection endpoint now now') p) = None).
Proof.
  intros Hh. split.
  - eexists _, _. split; [by apply handleConnectionError_result|].
    simpl. rewrite lookup_insert_eq. split; [done|]. simpl.
    repeat split.
    destruct (Z.geb_spec (RpcPool.failCount health + 1) 3),
             (Z.ltb_spec (RpcPool.failCount health + 1) 3); (done || lia).
  - intros Hd.
    destruct (handleDisconnection_health endpoint now now' p health Hd Hh)
      as (Hmap & Hclient & _).
    rewrite Hmap, lookup_insert_eq. by eexists.
Qed.

Lemma failure_bookkeeping_witness :
  ∃ p' health',
    RpcPool.handleConnectionError "wss://a" 1000 1000 Samples.twoEndpoints = (Ok tt, p') ∧
    RpcPool.healthMap p' !! "wss://a" = Some health' ∧
    RpcPool.failCount health' = 0 + 1 ∧
    RpcPool.lastErrorTime health' = 1000 ∧
    RpcPool.nextAvailableTime health'
    = 1000 + Z.min (2 ^ RpcPool.failCount health' * 5000) 300000 ∧
    RpcPool.status health'
    = (if RpcPool.failCount health' <? 3 then RpcPool.DEGRADED else RpcPool.DOWN).
Proof.
  apply (proj1 (failure_bookkeeping Samples.twoEndpoints "wss://a"
                  (RpcPool.freshHealth "wss://a" 0) 1000 1000 eq_refl)).
Defined.

(** Three failures in a row take the endpoint from Degraded to Down,
    with cooldowns of 10 s, 20 s and 40 s. *)
Example three_errors :
  (λ h, (RpcPool.status h, RpcPool.failCount h, RpcPool.nextAvailableTime h))
    <$> RpcPool.healthMap Samples.afterThreeErrors !! "wss://a"
  = Some (RpcPool.DOWN, 3, 300 + 40000).
Proof. reflexivity. Qed.

(** C5, as stated, fails on the [close] signal: when the socket of a
    healthy endpoint closes at time 1000, [nextAvailableTime] stays 0
    instead of becoming 1000 plus the cooldown of 10 s. *)
Lemma close_signal_counterexample :
  ¬ (∀ health',
       RpcPool.healthMap
         (exec (RpcPool.handleDisconnection "wss://a" 1000 1000) Samples.twoEndpoints)
         !! "wss://a" = Some health' →
       RpcPool.failCount health' = 1 ∧
       RpcPool.lastErrorTime health' = 1000 ∧
       RpcPool.nextAvailableTime health'
       = 1000 + Z.min (2 ^ RpcPool.failCount health' * 5000) 300000 ∧
       RpcPool.status health' = RpcPool.DEGRADED).
Proof.
  intros Hclaim.
  destruct (Hclaim {| RpcPool.url := "wss://a"; RpcPool.status := RpcPool.DEGRADED;
                      RpcPool.failCount := 1; RpcPool.lastErrorTime := 1000;
                      RpcPool.lastSuccessTime := 0;
                      RpcPool.nextAvailableTime := 0 |} eq_refl)
    as (_ & _ & Hnext & _).
  by vm_compute in Hnext.
Qed.

(** ** Endpoint selection *)

Section Selection.
Import RpcPool.
Variable now : Z.

Lemma set_currentIndex_same p : set_currentIndex (currentIndex p) p = p.
Proof. by destruct p. Qed.

Lemma healthAt_current p i e h :
  endpoints p !! i = Some e → healthMap p !! e = Some h →
  healthAt i p = (Ok (e, h), p).
Proof.
  intros He Hh. unfold healthAt, bind, getHealth, ret. by rewrite He, Hh.
Qed.

Lemma wellFormed_current p :
  wellFormed p →
  ∃ e h, endpoints p !! currentIndex p = Some e ∧ healthMap p !! e = Some h.
Proof.
  intros [Hidx Hall].
  destruct (lookup_lt_is_Some_2 (endpoints p) (currentIndex p) Hidx) as [e He].
  destruct (Hall e) as [h Hh]; [by eapply list_elem_of_lookup_2|]. eauto.
Qed.

Lemma wellFormed_step p :
  wellFormed p →
  wellFormed (set_currentIndex ((currentIndex p + 1) mod length (endpoints p))%nat p).
Proof.
  intros [Hidx Hall]. split; [|done]. simpl.
  apply Nat.mod_upper_bound. lia.
Qed.

Lemma ringAt_step p j :
  ringAt (set_currentIndex ((currentIndex p + 1) mod length (endpoints p))%nat p)
    ((currentIndex p + 1) mod length (endpoints p))%nat j
  = ringAt p (currentIndex p) (S j).
Proof.
  unfold ringAt. simpl. rewrite Nat.Div0.add_mod_idemp_l. f_equal. f_equal. lia.
Qed.

(** The constructor leaves a well-formed pool, and the failure
    bookkeeping keeps it so. *)
Lemma foldl_fresh_is_Some (t : Z) (es : list string) :
  ∀ (hm : gmap string EndpointHealth) (e : string),
  e ∈ es ∨ is_Some (hm !! e) →
  is_Some (foldl (λ (hm : gmap string EndpointHealth) url,
                    <[url := freshHealth url t]> hm) hm es !! e).
Proof.
  induction es as [|e0 es IH]; intros hm e [Hin|Hsome]; simpl; try done.
  - by apply elem_of_nil in Hin.
  - apply IH. apply elem_of_cons in Hin as [->|Hin]; [right|by left].
    by rewrite lookup_insert_eq.
  - apply IH. right. destruct (decide (e0 = e)) as [->|Hne].
    + by rewrite lookup_insert_eq.
    + by rewrite lookup_insert_ne.
Qed.

Lemma initialPool_wellFormed (es : list string) (cfg : RpcPoolConfig) (t : Z) :
  es ≠ [] → wellFormed (initialPool es cfg t).
Proof.
  intros Hne. split; simpl.
  - destruct es; [done|simpl; lia].
  - intros e He. apply foldl_fresh_is_Some. by left.
Qed.

Lemma handleConnectionError_wellFormed endpoint t t' p :
  wellFormed p → wellFormed (exec (handleConnectionError endpoint t t') p).
Proof.
  intros [Hidx Hall].
  unfold exec, handleConnectionError, bind, getHealth, gets, putHealth, modify.
  destruct (healthMap p !! endpoint) as [h|] eqn:Hh; simpl; [|done].
  split; [done|]. simpl. intros e He.
  destruct (decide (endpoint = e)) as [->|Hne].
  - by rewrite lookup_insert_eq.
  - rewrite lookup_insert_ne by done. by apply Hall.
Qed.

(** The walk stops at the first usable endpoint of the ring, counted
    from [currentIndex], and leaves [currentIndex] on it; when none of
    the first [fuel] is usable it has advanced [fuel] positions. *)
Lemma walkRing_spec fuel : ∀ p,
  wellFormed p →
  (∃ j e,
     (j < fuel)%nat ∧ ringAt p (currentIndex p) j = Some e ∧
     usableEndpoint p now e = true ∧
     (∀ j' e', (j' < j)%nat → ringAt p (currentIndex p) j' = Some e' →
               usableEndpoint p now e' = false) ∧
     walkRing fuel now p
     = (Ok (Some e),
        set_currentIndex ((currentIndex p + j) mod length (endpoints p))%nat p)) ∨
  ((∀ j' e', (j' < fuel)%nat → ringAt p (currentIndex p) j' = Some e' →
             usableEndpoint p now e' = false) ∧
   walkRing fuel now p
   = (Ok None,
      set_currentIndex ((currentIndex p + fuel) mod length (endpoints p))%nat p)).
Proof.
  induction fuel as [|fuel IH]; intros p Hwf.
  - right. split; [intros; lia|]. simpl.
    rewrite Nat.add_0_r, Nat.mod_small by apply Hwf.
    by rewrite set_currentIndex_same.
  - destruct (wellFormed_current p Hwf) as (e0 & h0 & He0 & Hh0).
    assert (Hring0 : ringAt p (currentIndex p) 0 = Some e0).
    { unfold ringAt. rewrite Nat.add_0_r, Nat.mod_small by apply Hwf. done. }
    assert (Hrun : walkRing (S fuel) now p
                   = if usable now h0 then (Ok (Some e0), p)
                     else walkRing fuel now
                            (set_currentIndex
                               ((currentIndex p + 1) mod length (endpoints p))%nat p)).
    { simpl. erewrite bind_Ok by reflexivity.
      erewrite bind_Ok by (by apply healthAt_current).
      simpl. destruct (usable now h0); [done|].
      erewrite bind_Ok by reflexivity. erewrite bind_Ok by reflexivity. done. }
    rewrite Hrun. destruct (usable now h0) eqn:Hu.
    + left. exists 0%nat, e0. split; [lia|]. split; [done|].
      split; [by unfold usableEndpoint; rewrite Hh0|]. split; [intros; lia|].
      rewrite Nat.add_0_r, Nat.mod_small by apply Hwf.
      by rewrite set_currentIndex_same.
    + assert (Hfirst : ∀ e', ringAt p (currentIndex p) 0 = Some e' →
                             usableEndpoint p now e' = false).
      { intros e' He'. rewrite Hring0 in He'. injection He' as <-.
        unfold usableEndpoint. by rewrite Hh0. }
      destruct (IH _ (wellFormed_step p Hwf))
        as [(j & e & Hj & Hring & Huse & Hbefore & ->)|(Hnone & ->)].
      * left. exists (S j), e. split; [lia|].
        rewrite ringAt_step in Hring. split; [done|]. split; [done|].
        split.
        { intros [|j'] e' Hj' He'; [by apply Hfirst|].
          apply (Hbefore j' e'); [lia|]. by rewrite ringAt_step. }
        simpl. rewrite Nat.Div0.add_mod_idemp_l.
        by replace (currentIndex p + 1 + j)%nat with (currentIndex p + S j)%nat by lia.
      * right. split.
        { intros [|j'] e' Hj' He'; [by apply Hfirst|].
          apply (Hnone j' e'); [lia|]. by rewrite ringAt_step. }
        simpl. rewrite Nat.Div0.add_mod_idemp_l.
        by replace (currentIndex p + 1 + fuel)%nat
             with (currentIndex p + S fuel)%nat by lia.
Qed.

(** The scan returns an endpoint at least as early as the one it
    started with and as every endpoint it looked at. *)
Lemma scanEarliest_spec es : ∀ best p,
  (∀ e, e ∈ es → is_Some (healthMap p !! e)) →
  ∃ e, scanEarliest es best (nextAvailableOf p best) p = (Ok e, p) ∧
       (e = best ∨ e ∈ es) ∧
       nextAvailableOf p e ≤ nextAvailableOf p best ∧
       ∀ e', e' ∈ es → nextAvailableOf p e ≤ nextAvailableOf p e'.
Proof.
  induction es as [|e0 es IH]; intros best p Hall; simpl.
  - exists best. split; [done|]. split; [by left|]. split; [lia|].
    by intros e' ?%elem_of_nil.
  - destruct (Hall e0) as [h0 Hh0]; [by left|].
    erewrite bind_Ok by (unfold getHealth; by rewrite Hh0).
    assert (Hnext : nextAvailableTime h0 = nextAvailableOf p e0)
      by (unfold nextAvailableOf; by rewrite Hh0).
    rewrite Hnext.
    destruct (Z.ltb_spec (nextAvailableOf p e0) (nextAvailableOf p best)) as [Hlt|Hge].
    + destruct (IH e0 p) as (e & -> & Hin & Hle & Hmin); [by intros; apply Hall; right|].
      exists e. split; [done|]. split; [|split; [lia|]].
      * destruct Hin as [->|?]; right; [by left|by right].
      * intros e' [->|?]%elem_of_cons; [done|by apply Hmin].
    + destruct (IH best p) as (e & -> & Hin & Hle & Hmin); [by intros; apply Hall; right|].
      exists e. split; [done|]. split; [|split; [lia|]].
      * destruct Hin as [->|?]; [by left|right; by right].
      * intros e' [->|?]%elem_of_cons; [lia|by apply Hmin].
Qed.

(** Every position of the list is a position of the ring. *)
Lemma ringAt_covers p k e :
  (currentIndex p < length (endpoints p))%nat →
  endpoints p !! k = Some e →
  ∃ j, (j < length (endpoints p))%nat ∧ ringAt p (currentIndex p) j = Some e.
Proof.
  intros Hidx Hk. pose proof (lookup_lt_Some _ _ _ Hk) as Hlt.
  exists ((k + (length (endpoints p) - currentIndex p)) mod length (endpoints p))%nat.
  split; [apply Nat.mod_upper_bound; lia|].
  unfold ringAt. rewrite Nat.Div0.add_mod_idemp_r.
  replace (currentIndex p + (k + (length (endpoints p) - currentIndex p)))%nat
    with (k + 1 * length (endpoints p))%nat by lia.
  by rewrite Nat.Div0.mod_add, Nat.mod_small.
Qed.

End Selection.

(** The test of the walk, spelled out: the endpoint has a record whose
    status is not Down and whose cooldown is over. *)
Lemma usableEndpoint_qualifies (p : RpcPool.WsRpcPool) (now : Z) (e : string) :
  RpcPool.usableEndpoint p now e = true ↔
  ∃ h, RpcPool.healthMap p !! e = Some h ∧
       RpcPool.status h ≠ RpcPool.DOWN ∧ RpcPool.nextAvailableTime h ≤ now.
Proof.
  unfold RpcPool.usableEndpoint, RpcPool.usable.
  destruct (RpcPool.healthMap p !! e) as [h|]; [|split; [done|by intros (? & ? & _)]].
  rewrite andb_true_iff, Z.leb_le, negb_true_iff. split.
  - intros [Hnext Hstatus]. exists h. split; [done|]. split; [|done].
    intros Hdown. by rewrite Hdown in Hstatus.
  - intros (h' & [= <-] & Hstatus & Hnext). split; [done|].
    by destruct (RpcPool.status h).
Qed.

Lemma usableEndpoint_fails (p : RpcPool.WsRpcPool) (now : Z) (e : string)
    (h : RpcPool.EndpointHealth) :
  RpcPool.healthMap p !! e = Some h →
  RpcPool.usableEndpoint p now e = false →
  RpcPool.status h = RpcPool.DOWN ∨ now < RpcPool.nextAvailableTime h.
Proof.
  intros Hh Hno.
  assert (RpcPool.status h = RpcPool.DOWN ∨ RpcPool.status h ≠ RpcPool.DOWN)
    as [?|Hup] by (destruct (RpcPool.status h); by auto).
  { by left. }
  right. destruct (Z.lt_ge_cases now (RpcPool.nextAvailableTime h)) as [?|Hle]; [done|].
  assert (RpcPool.usableEndpoint p now e = true) as Hyes
    by (apply usableEndpoint_qualifies; by exists h).
  congruence.
Qed.

(** C8.  On a well-formed pool [getCurrentHealthyEndpoint] returns an
    endpoint of the ring.  Either it is the first endpoint, walking the
    ring from [currentIndex] for fewer than [endpoints.length] steps,
    whose status is not Down and whose [nextAvailableTime] is not after
    [now], every endpoint before it being Down or still cooling off, and
    [currentIndex] is left on it; or every endpoint is Down or still
    cooling off, the pool is unchanged, and the endpoint returned has the
    smallest [nextAvailableTime] of all. *)
Theorem getCurrentHealthyEndpoint_spec (p : RpcPool.WsRpcPool) (now : Z) :
  RpcPool.wellFormed p →
  ∃ e p' h,
    RpcPool.getCurrentHealthyEndpoint now p = (Ok e, p') ∧
    e ∈ RpcPool.endpoints p ∧
    RpcPool.healthMap p !! e = Some h ∧
    ((∃ j, (j < length (RpcPool.endpoints p))%nat ∧
           RpcPool.ringAt p (RpcPool.currentIndex p) j = Some e ∧
           RpcPool.status h ≠ RpcPool.DOWN ∧
           RpcPool.nextAvailableTime h ≤ now ∧
           (∀ j' e' h', (j' < j)%nat →
                        RpcPool.ringAt p (RpcPool.currentIndex p) j' = Some e' →
                        RpcPool.healthMap p !! e' = Some h' →
                        RpcPool.status h' = RpcPool.DOWN ∨
                        now < RpcPool.nextAvailableTime h') ∧
           p' = RpcPool.set_currentIndex
                  ((RpcPool.currentIndex p + j) mod length (RpcPool.endpoints p))%nat p) ∨
     ((∀ e' h', e' ∈ RpcPool.endpoints p → RpcPool.healthMap p !! e' = Some h' →
                (RpcPool.status h' = RpcPool.DOWN ∨ now < RpcPool.nextAvailableTime h') ∧
                RpcPool.nextAvailableTime h ≤ RpcPool.nextAvailableTime h') ∧
      p' = p)).
Proof.
  intros Hwf. unfold RpcPool.getCurrentHealthyEndpoint.
  erewrite bind_Ok by reflexivity.
  destruct (walkRing_spec now (length (RpcPool.endpoints p)) p Hwf)
    as [(j & e & Hj & Hring & Huse & Hbefore & Hrun)|(Hnone & Hrun)].
  - erewrite bind_Ok by exact Hrun.
    apply usableEndpoint_qualifies in Huse as (h & Hh & Hstatus & Hnext).
    eexists e, _, h. split; [reflexivity|].
    split; [by eapply list_elem_of_lookup_2|]. split; [done|].
    left. exists j. repeat split; try done.
    intros j' e' h' Hj' He' Hh'. eapply usableEndpoint_fails; [done|by eapply Hbefore].
  - erewrite bind_Ok by exact Hrun.
    replace ((RpcPool.currentIndex p + length (RpcPool.endpoints p))
               mod length (RpcPool.endpoints p))%nat
      with (RpcPool.currentIndex p).
    2:{ replace (RpcPool.currentIndex p + length (RpcPool.endpoints p))%nat
          with (RpcPool.currentIndex p + 1 * length (RpcPool.endpoints p))%nat by lia.
        rewrite Nat.Div0.mod_add, Nat.mod_small; [done|apply Hwf]. }
    rewrite set_currentIndex_same.
    destruct (wellFormed_current p Hwf) as (e0 & h0 & He0 & Hh0).
    erewrite bind_Ok by reflexivity.
    erewrite bind_Ok by (by apply healthAt_current).
    erewrite bind_Ok by reflexivity. simpl.
    replace (RpcPool.nextAvailableTime h0) with (RpcPool.nextAvailableOf p e0)
      by (unfold RpcPool.nextAvailableOf; by rewrite Hh0).
    destruct (scanEarliest_spec (RpcPool.endpoints p) e0 p (proj2 Hwf))
      as (e & -> & Hin & _ & Hmin).
    assert (He : e ∈ RpcPool.endpoints p).
    { destruct Hin as [->|?]; [by eapply list_elem_of_lookup_2|done]. }
    destruct (proj2 Hwf e He) as [h Hh].
    exists e, p, h. split; [done|]. split; [done|]. split; [done|].
    right. split; [|done].
    intros e' h' He' Hh'. split.
    + apply list_elem_of_lookup in He' as [k Hk].
      destruct (ringAt_covers p k e' (proj1 Hwf) Hk) as (j & Hj & Hring).
      eapply usableEndpoint_fails; [done|by eapply Hnone].
    + specialize (Hmin e' He'). unfold RpcPool.nextAvailableOf in Hmin.
      by rewrite Hh, Hh' in Hmin.
Qed.

Lemma getCurrentHealthyEndpoint_spec_witness :
  ∃ e p' h,
    RpcPool.getCurrentHealthyEndpoint 400 Samples.afterThreeErrors = (Ok e, p') ∧
    e ∈ RpcPool.endpoints Samples.afterThreeErrors ∧
    RpcPool.healthMap Samples.afterThreeErrors !! e = Some h ∧
    ((∃ j, (j < length (RpcPool.endpoints Samples.afterThreeErrors))%nat ∧
           RpcPool.ringAt Samples.afterThreeErrors
             (RpcPool.currentIndex Samples.afterThreeErrors) j = Some e ∧
           RpcPool.status h ≠ RpcPool.DOWN ∧
           RpcPool.nextAvailableTime h ≤ 400 ∧
           (∀ j' e' h', (j' < j)%nat →
                        RpcPool.ringAt Samples.afterThreeErrors
                          (RpcPool.currentIndex Samples.afterThreeErrors) j' = Some e' →
                        RpcPool.healthMap Samples.afterThreeErrors !! e' = Some h' →
                        RpcPool.status h' = RpcPool.DOWN ∨
                        400 < RpcPool.nextAvailableTime h') ∧
           p' = RpcPool.set_currentIndex
                  ((RpcPool.currentIndex Samples.afterThreeErrors + j)
                     mod length (RpcPool.endpoints Samples.afterThreeErrors))%nat
                  Samples.afterThreeErrors) ∨
     ((∀ e' h', e' ∈ RpcPool.endpoints Samples.afterThreeErrors →
                RpcPool.healthMap Samples.afterThreeErrors !! e' = Some h' →
                (RpcPool.status h' = RpcPool.DOWN ∨
                 400 < RpcPool.nextAvailableTime h') ∧
                RpcPool.nextAvailableTime h ≤ RpcPool.nextAvailableTime h') ∧
      p' = Samples.afterThreeErrors)).
Proof.
  apply (getCurrentHealthyEndpoint_spec Samples.afterThreeErrors 400).
  split.
  - vm_compute. lia.
  - change (RpcPool.endpoints Samples.afterThreeErrors) with ["wss://a"; "wss://b"].
    intros e [->|[->|[]%elem_of_nil]%elem_of_cons]%elem_of_cons;
      vm_compute; by eexists.
Defined.

(** With [wss://a] down the pool picks [wss://b]; once both are cooling
    off it falls back on the one that becomes available first. *)
Example selection_skips_down :
  fst (RpcPool.getCurrentHealthyEndpoint 400 Samples.afterThreeErrors) = Ok "wss://b".
Proof. reflexivity. Qed.

Example selection_falls_back :
  fst (RpcPool.getCurrentHealthyEndpoint 400
         (exec (RpcPool.handleConnectionError "wss://b" 350 350) Samples.afterThreeErrors))
  = Ok "wss://b".
Proof. reflexivity. Qed.

(** * Further properties *)

(** ** Addresses and labels *)

Section MoreAddressFacts.
Import Address.

Lemma toLowerCaseChar_idempotent (c : ascii) :
  toLowerCaseChar (toLowerCaseChar c) = toLowerCaseChar c.
Proof. destruct c as [[] [] [] [] [] [] [] []]; reflexivity. Qed.

Lemma toLowerCase_idempotent (s : string) : toLowerCase (toLowerCase s) = toLowerCase s.
Proof.
  induction s as [|c s IH]; simpl; [done|].
  by rewrite toLowerCaseChar_idempotent, IH.
Qed.

End MoreAddressFacts.

(** X1.  Normalizing is idempotent, so a normalized address is watched
    exactly when it is a member of the watched set as it stands. *)
Theorem normalizeAddress_idempotent (a : string) (watched : gset string) :
  Address.normalizeAddress (Address.normalizeAddress a) = Address.normalizeAddress a ∧
  (Address.isAddressWatched (Address.normalizeAddress a) watched = true ↔
   Address.normalizeAddress a ∈ watched).
Proof.
  split; [apply toLowerCase_idempotent|].
  rewrite isAddressWatched_true. unfold Address.normalizeAddress.
  by rewrite toLowerCase_idempotent.
Qed.

(** X2.  The label lookup ignores the case of hex digits, like the
    watch test: two spellings of one address get the same label. *)
Theorem getAddressLabel_case_insensitive (a a' : string) (labels : gmap string string) :
  Address.caseVariant a a' = true →
  Address.getAddressLabel a' labels = Address.getAddressLabel a labels.
Proof.
  intros Hv. unfold Address.getAddressLabel.
  by rewrite (caseVariant_normalizeAddress a a' Hv).
Qed.

Lemma getAddressLabel_case_insensitive_witness :
  Address.getAddressLabel "0xD551234Ae421e3BCBA99A0dA6d736074f22192Ff"
    (Event.addressLabelMap Samples.mockConfig)
  = Address.getAddressLabel "0xd551234ae421e3bcba99a0da6d736074f22192ff"
      (Event.addressLabelMap Samples.mockConfig).
Proof.
  apply (getAddressLabel_case_insensitive
           "0xd551234ae421e3bcba99a0da6d736074f22192ff"
           "0xD551234Ae421e3BCBA99A0dA6d736074f22192Ff").
  reflexivity.
Defined.

Lemma getWatchedSide_classified (from : string) (to : option string)
    (watched : gset string) :
  (Address.getWatchedSide from to watched = Some Address.SideBoth ↔
   Address.normalizeAddress from ∈ watched ∧
   ∃ t, to = Some t ∧ t ≠ "" ∧ Address.normalizeAddress t ∈ watched) ∧
  (Address.getWatchedSide from to watched = Some Address.SideFrom ↔
   Address.normalizeAddress from ∈ watched ∧
   ¬ ∃ t, to = Some t ∧ t ≠ "" ∧ Address.normalizeAddress t ∈ watched) ∧
  (Address.getWatchedSide from to watched = Some Address.SideTo ↔
   (Address.normalizeAddress from ∉ watched) ∧
   ∃ t, to = Some t ∧ t ≠ "" ∧ Address.normalizeAddress t ∈ watched).
Proof.
  assert (Hto : (∃ t, to = Some t ∧ t ≠ "" ∧ Address.normalizeAddress t ∈ watched) ↔
                match to with
                | Some t => if Address.truthy to
                            then Address.isAddressWatched t watched else false
                | None => false
                end = true).
  { destruct to as [[|c t]|]; simpl.
    - split; [by intros (t & [= <-] & ? & _)|done].
    - rewrite isAddressWatched_true. split; [by intros (t' & [= <-] & _ & ?)|].
      intros ?. by exists (String c t).
    - split; [by intros (t & ? & _)|done]. }
  rewrite Hto. unfold Address.getWatchedSide. rewrite <- isAddressWatched_true.
  destruct (Address.isAddressWatched from watched);
    destruct (match to with Some _ => _ | None => _ end); simpl;
    repeat split; try done; try (by intros [? ?]); try (by intros [? ?]; eauto);
    intros [? ?]; congruence.
Qed.


(** X3.  [getWatchedSide] reports exactly the sides that are watched: a
    recipient that is [null] or empty counts as not watched. *)
Theorem getWatchedSide_sides (from : string) (to : option string)
    (watched : gset string) :
  (Address.getWatchedSide from to watched = Some Address.SideBoth ↔
   Address.normalizeAddress from ∈ watched ∧
   ∃ t, to = Some t ∧ t ≠ "" ∧ Address.normalizeAddress t ∈ watched) ∧
  (Address.getWatchedSide from to watched = Some Address.SideFrom ↔
   Address.normalizeAddress from ∈ watched ∧
   ¬ ∃ t, to = Some t ∧ t ≠ "" ∧ Address.normalizeAddress t ∈ watched) ∧
  (Address.getWatchedSide from to watched = Some Address.SideTo ↔
   (Address.normalizeAddress from ∉ watched) ∧
   ∃ t, to = Some t ∧ t ≠ "" ∧ Address.normalizeAddress t ∈ watched).
Proof. apply getWatchedSide_classified. Qed.

(** ** What reaches the sink *)

Section SinkFacts.
Import Address Event Watcher.
Variable formatEther : Z → string.
Variable config : AppConfig.
Variable Date_now : list Effect → Z.

(** Every step either does nothing or accepts an event built from a
    transaction that [shouldProcessTransaction] let through; what the sink
    answers plays no part. *)
Lemma step_builds onTransfer s p :
  exec (step formatEther config onTransfer Date_now s) p = p ∨
  ∃ h tx type' seenInMempool' now event,
    shouldProcessTransaction tx config (seenTxHashes p) = true ∧
    buildTransferEvent formatEther tx config type' seenInMempool' now = Ok event ∧
    (faithfulStep s = true → h = tx_hash tx) ∧
    exec (step formatEther config onTransfer Date_now s) p = accepted h event p.
Proof.
  destruct s as [client h|tx bn]; simpl.
  - unfold processPendingTransaction, exec, try_catch, bind, gets,
      seen_add, modify, lift, call_onTransfer, ret; simpl.
    destruct (getTransaction client h) as [[tx|]|msg] eqn:Hget; simpl; try by left.
    destruct (shouldProcessTransaction tx config (seenTxHashes p)) eqn:Hshould; simpl;
      [|by left].
    destruct (shouldProcessTransaction_builds formatEther config _ _ pending true
                (Date_now (effects p ++ [AddSeen h])) Hshould) as [event Hev].
    rewrite Hev. right.
    exists h, tx, pending, true, (Date_now (effects p ++ [AddSeen h])), event.
    split; [done|]. split; [exact Hev|]. split.
    { unfold answersFor. rewrite Hget. by intros ->%bool_decide_eq_true. }
    unfold accepted. rewrite <- app_assoc. simpl. by destruct (onTransfer event).
  - unfold processBlockTransaction, exec, try_catch, bind, gets, seen_has,
      seen_add, modify, lift, call_onTransfer, ret; simpl.
    destruct (shouldProcessTransaction _ config (seenTxHashes p)) eqn:Hshould.
    + pose proof Hshould as (Hnew & _)%shouldProcessTransaction_true.
      simpl in Hnew. rewrite bool_decide_eq_false_2 by done. simpl.
      destruct (shouldProcessTransaction_builds formatEther config _ _ confirmed false
                  (Date_now (effects p ++ [AddSeen (tx_hash tx)])) Hshould)
        as [event Hev].
      rewrite Hev. right.
      exists (tx_hash tx), (withBlockNumber tx bn), confirmed, false,
        (Date_now (effects p ++ [AddSeen (tx_hash tx)])), event.
      split; [done|]. split; [exact Hev|]. split; [done|].
      unfold accepted. rewrite <- app_assoc. simpl. by destruct (onTransfer event).
    + left. by case_bool_decide.
Qed.

(** The sink's failures are swallowed: whatever [onTransfer] answers,
    the dedup set and the sequence of effects are the same. *)
Lemma step_sink_irrelevant onTransfer onTransfer' s p :
  exec (step formatEther config onTransfer Date_now s) p
  = exec (step formatEther config onTransfer' Date_now s) p.
Proof.
  destruct s as [client h|tx bn]; simpl.
  - unfold processPendingTransaction, exec, try_catch, bind, gets,
      seen_add, modify, lift, call_onTransfer, ret; simpl.
    destruct (getTransaction client h) as [[tx|]|msg]; simpl; try done.
    destruct (shouldProcessTransaction tx config (seenTxHashes p)); simpl; [|done].
    destruct (buildTransferEvent _ _ _ _ _ _); simpl; [|done].
    by destruct (onTransfer a), (onTransfer' a).
  - unfold processBlockTransaction, exec, try_catch, bind, gets, seen_has,
      seen_add, modify, lift, call_onTransfer, ret; simpl.
    case_bool_decide; simpl; [done|].
    destruct (shouldProcessTransaction _ config (seenTxHashes p)); simpl; [|done].
    destruct (buildTransferEvent _ _ _ _ _ _); simpl; [|done].
    by destruct (onTransfer a), (onTransfer' a).
Qed.


End SinkFacts.

Section RunFacts.
Import Address Event Watcher.
Variable formatEther : Z → string.
Variable config : AppConfig.
Variable onTransfer : TransferEvent → Outcome unit.
Variable Date_now : list Effect → Z.

Local Abbreviation run := (run formatEther config onTransfer Date_now).
Local Abbreviation step := (step formatEther config onTransfer Date_now).


(** The dedup set only grows, and a hash that is in it is not emitted. *)
Lemma run_seen schedule : ∀ p h,
  h ∈ seenTxHashes p →
  h ∈ seenTxHashes (run schedule p) ∧
  ∀ event, event ∈ emitted (effects (run schedule p)) → txHash event = h →
           event ∈ emitted (effects p).
Proof.
  induction schedule as [|s rest IH]; intros p h Hh; simpl; [done|].
  destruct (step_builds formatEther config Date_now onTransfer s p)
    as [Heq|(h' & tx & ty & sim & now & ev & Hshould & Hev & _ & Heq)];
    rewrite Heq; [by apply IH|].
  destruct (IH (accepted h' ev p) h) as [Hseen Hemit].
  { simpl. by apply elem_of_union_r. }
  split; [done|]. intros event Hin Hhash.
  specialize (Hemit event Hin Hhash). rewrite emitted_accepted in Hemit.
  apply elem_of_app in Hemit as [?| ->%list_elem_of_singleton]; [done|].
  apply shouldProcessTransaction_true in Hshould as (Hnew & _).
  apply (buildTransferEvent_fields formatEther config) in Hev as (_ & Htx & _).
  congruence.
Qed.

Lemma run_sink_irrelevant onTransfer' schedule : ∀ p,
  run schedule p = Watcher.run formatEther config onTransfer' Date_now schedule p.
Proof.
  induction schedule as [|s rest IH]; intros p; simpl; [done|].
  by rewrite (step_sink_irrelevant formatEther config Date_now onTransfer onTransfer'), IH.
Qed.

(** The events a list of block transactions adds to the sink, in the
    order of the list. *)
Lemma run_block_steps bn (txs : list (string + RawTransaction)) : ∀ p,
  ∃ new,
    emitted (effects (run (omap (λ t, match t with
                                      | inl _ => None
                                      | inr tx => Some (BlockTxStep tx bn)
                                      end) txs) p))
    = emitted (effects p) ++ new ∧
    sublist (txHash <$> new)
      (omap (λ t, match t with inl _ => None | inr tx => Some (tx_hash tx) end) txs) ∧
    Forall (λ event, type event = confirmed ∧ seenInMempool event = false ∧
                     blockNumber event = Some bn) new.
Proof.
  induction txs as [|[h|tx] txs IH]; intros p; simpl.
  - exists []. by rewrite app_nil_r.
  - apply IH.
  - destruct (step_cases formatEther config onTransfer Date_now (BlockTxStep tx bn) p)
      as [Heq|(h & ev & Hex & _ & _ & Heq)]; simpl in Heq; rewrite Heq.
    + destruct (IH p) as (new & Hnew & Hsub & Hall).
      exists new. split; [done|]. split; [by apply sublist_cons|done].
    + destruct (IH (accepted h ev p)) as (new & Hnew & Hsub & Hall).
      destruct Hex as (Hty & Hsim & Hhash & Hbn).
      exists (ev :: new). split; [|split; [|by constructor]].
      * etransitivity; [exact Hnew|]. by rewrite emitted_accepted, <- app_assoc.
      * simpl. rewrite Hhash. by apply sublist_skip.
Qed.

End RunFacts.



(** X5.  The dedup set only grows, and a hash that is in the set is
    never emitted afterwards, whatever the clients answer. *)
Theorem seen_hash_never_emitted (formatEther : Z → string)
    (config : Event.AppConfig) (onTransfer : Event.TransferEvent → Outcome unit)
    (Date_now : list Watcher.Effect → Z) (schedule : list Watcher.Step)
    (p : Watcher.Pipeline) (h : string) :
  h ∈ Watcher.seenTxHashes p →
  h ∈ Watcher.seenTxHashes
        (Watcher.run formatEther config onTransfer Date_now schedule p) ∧
  ∀ event,
    event ∈ Watcher.emitted
              (Watcher.effects
                 (Watcher.run formatEther config onTransfer Date_now schedule p)) →
    Event.txHash event = h →
    event ∈ Watcher.emitted (Watcher.effects p).
Proof. apply run_seen. Qed.

Lemma seen_hash_never_emitted_witness :
  "0xabc" ∈ Watcher.seenTxHashes
              (Watcher.run Samples.showWei Samples.mockConfig Samples.quietSink
                 Samples.frozenClock Samples.dedupSchedule
                 {| Watcher.seenTxHashes := {["0xabc"]}; Watcher.effects := [] |}).
Proof.
  refine (proj1 (seen_hash_never_emitted Samples.showWei Samples.mockConfig
                   Samples.quietSink Samples.frozenClock Samples.dedupSchedule
                   {| Watcher.seenTxHashes := {["0xabc"]}; Watcher.effects := [] |}
                   "0xabc" _)).
  simpl. set_solver.
Defined.

(** X6.  A sink that throws disturbs nothing: the dedup set and the
    sequence of insertions and emissions are the same as with a sink
    that always returns. *)
Theorem sink_failures_are_swallowed (formatEther : Z → string)
    (config : Event.AppConfig)
    (onTransfer onTransfer' : Event.TransferEvent → Outcome unit)
    (Date_now : list Watcher.Effect → Z) (schedule : list Watcher.Step)
    (p : Watcher.Pipeline) :
  Watcher.run formatEther config onTransfer Date_now schedule p
  = Watcher.run formatEther config onTransfer' Date_now schedule p.
Proof. apply run_sink_irrelevant. Qed.

(** X7.  [processBlock] emits confirmed events only, all carrying the
    block's number, and in the order of the block's transactions: the
    hashes it emits form a subsequence of the hashes of the block's full
    transactions.  Entries that are bare hashes emit nothing. *)
Theorem processBlock_emits_in_order (formatEther : Z → string)
    (config : Event.AppConfig) (onTransfer : Event.TransferEvent → Outcome unit)
    (Date_now : list Watcher.Effect → Z) (block : Watcher.Block)
    (p : Watcher.Pipeline) :
  ∃ new,
    Watcher.emitted
      (Watcher.effects
         (exec (Watcher.processBlock formatEther config onTransfer Date_now block) p))
    = Watcher.emitted (Watcher.effects p) ++ new ∧
    sublist (Event.txHash <$> new)
      (omap (λ t, match t with
                  | inl _ => None
                  | inr tx => Some (Event.tx_hash tx)
                  end) (Watcher.transactions block)) ∧
    Forall (λ event, Event.type event = Event.confirmed ∧
                     Event.seenInMempool event = false ∧
                     Event.blockNumber event = Some (Watcher.number block)) new.
Proof.
  rewrite processBlock_run. apply run_block_steps.
Qed.

(** ** More on the continuity engine *)

Section EngineEdges.
Import Watcher Continuity.
Variable config : BlockContinuityConfig.

(** The front of [processNewBlock] on an initialized engine. *)
Lemma processNewBlock_initialized n m l :
  isInitialized m = true → lastProcessedBlockNumber m = Some l →
  processNewBlock config n m
  = (if n =? l + 1
     then bind (fetchAndProcessBlock config n) (λ _, set_lastProcessedBlockNumber n)
     else if n >? l + 1
     then bind (backfillBlocks config (l + 1) (n - 1))
            (λ _, bind (fetchAndProcessBlock config n)
                    (λ _, set_lastProcessedBlockNumber n))
     else if n <=? l then ret tt else ret tt) m.
Proof.
  intros Hi Hl. unfold processNewBlock, bind at 1, gets. rewrite Hi. simpl.
  unfold bind at 1, ret. unfold bind at 1, gets. by rewrite Hl.
Qed.

Lemma backfill_iteration_returns k m :
  (∀ handler, onError config = Some handler → ∀ e h, handler e h = Ok tt) →
  ∃ m1,
    try_catch
      (bind (fetchAndProcessBlock config k) (λ _, set_lastProcessedBlockNumber k))
      (λ error, call_onError config error) m = (Ok tt, m1) ∧
    client m1 = client m ∧ isInitialized m1 = isInitialized m ∧
    fetched (calls m1) = fetched (calls m) ++ [k].
Proof.
  intros Hquiet.
  unfold try_catch, bind, fetchAndProcessBlock, try_catch, bind, call_getBlock,
    call_onBlock, throw, call_onError, set_lastProcessedBlockNumber, modify, ret.
  destruct (getBlock (client m) k (calls m)) as [b|e]; simpl.
  - destruct (onBlock config b _) as [[]|e]; simpl.
    + eexists. split; [reflexivity|]. simpl. rewrite !fetched_app. simpl.
      by rewrite !app_nil_r.
    + destruct (onError config) as [handler|] eqn:Hh.
      * rewrite (Hquiet handler eq_refl). eexists. split; [reflexivity|]. simpl.
        rewrite !fetched_app. simpl. by rewrite !app_nil_r.
      * eexists. split; [reflexivity|]. simpl.
        rewrite !fetched_app. simpl. by rewrite !app_nil_r.
  - destruct (onError config) as [handler|] eqn:Hh.
    + rewrite (Hquiet handler eq_refl). eexists. split; [reflexivity|]. simpl.
      rewrite !fetched_app. simpl. by rewrite !app_nil_r.
    + eexists. split; [reflexivity|]. simpl. by rewrite !fetched_app.
Qed.

Lemma backfillLoop_returns fuel : ∀ k e m,
  (∀ handler, onError config = Some handler → ∀ err h, handler err h = Ok tt) →
  fuel = Z.to_nat (e - k + 1) →
  ∃ m', backfillLoop config fuel k e m = (Ok tt, m') ∧
        client m' = client m ∧ isInitialized m' = isInitialized m ∧
        fetched (calls m') = fetched (calls m) ++ seqZ k (e - k + 1).
Proof.
  induction fuel as [|fuel IH]; intros k e m Hquiet Hfuel; simpl.
  - exists m. rewrite seqZ_nil by lia. by rewrite app_nil_r.
  - rewrite Zle_imp_le_bool by lia.
    destruct (backfill_iteration_returns k m Hquiet) as (m1 & Hiter & Hc1 & Hi1 & Hf1).
    erewrite bind_Ok by exact Hiter.
    destruct (IH (k + 1) e m1 Hquiet) as (m' & Hrun & Hc' & Hi' & Hf'); [lia|].
    exists m'. split; [done|]. split; [congruence|]. split; [congruence|].
    rewrite Hf', Hf1, <- app_assoc. f_equal.
    rewrite (seqZ_cons k (e - k + 1)) by lia. simpl. do 2 f_equal; lia.
Qed.

End EngineEdges.

(** X8.  A head that is not beyond [lastProcessedBlockNumber] (a
    duplicate or an old block) is skipped: nothing is fetched, [onBlock]
    is not called and the engine is left exactly as it was. *)
Theorem stale_head_is_skipped (config : Continuity.BlockContinuityConfig)
    (m : Continuity.BlockContinuityManager) (l n : Z) :
  Continuity.isInitialized m = true →
  Continuity.lastProcessedBlockNumber m = Some l →
  n ≤ l →
  Continuity.processNewBlock config n m = (Ok tt, m).
Proof.
  intros Hi Hl Hle. rewrite (processNewBlock_initialized config n m l Hi Hl).
  rewrite (proj2 (Z.eqb_neq n (l + 1))) by lia.
  destruct (Z.gtb_spec n (l + 1)); [lia|]. by destruct (n <=? l).
Qed.

Lemma stale_head_is_skipped_witness :
  Continuity.processNewBlock Samples.recordingConfig 101
    (Continuity.runOps Samples.recordingConfig
       [Continuity.Initialize; Continuity.ProcessNewBlock 101;
        Continuity.ProcessNewBlock 102]
       (Continuity.newManager (Samples.steadyClient 100)))
  = (Ok tt,
     Continuity.runOps Samples.recordingConfig
       [Continuity.Initialize; Continuity.ProcessNewBlock 101;
        Continuity.ProcessNewBlock 102]
       (Continuity.newManager (Samples.steadyClient 100))).
Proof.
  apply (stale_head_is_skipped Samples.recordingConfig _ 102 101);
    [reflexivity|reflexivity|lia].
Defined.

(** X9.  Outside a backfill a failure is not absorbed: when the next
    block in sequence cannot be fetched, or [onBlock] throws on it,
    [processNewBlock] throws that same error and
    [lastProcessedBlockNumber] keeps its value, so the block is asked for
    again by the next head. *)
Theorem routine_failure_propagates (config : Continuity.BlockContinuityConfig)
    (m : Continuity.BlockContinuityManager) (l : Z) (e : string) :
  Continuity.isInitialized m = true →
  Continuity.lastProcessedBlockNumber m = Some l →
  (Continuity.getBlock (Continuity.client m) (l + 1) (Continuity.calls m) = Throw e ∨
   ∃ b, Continuity.getBlock (Continuity.client m) (l + 1) (Continuity.calls m) = Ok b ∧
        Continuity.onBlock config b (Continuity.calls m ++ [Continuity.GetBlock (l + 1)])
        = Throw e) →
  fst (Continuity.processNewBlock config (l + 1) m) = Throw e ∧
  Continuity.lastProcessedBlockNumber
    (exec (Continuity.processNewBlock config (l + 1)) m) = Some l ∧
  Continuity.assigned
    (Continuity.calls (exec (Continuity.processNewBlock config (l + 1)) m))
  = Continuity.assigned (Continuity.calls m).
Proof.
  intros Hi Hl Hfail. unfold exec.
  rewrite (processNewBlock_initialized config (l + 1) m l Hi Hl), Z.eqb_refl.
  unfold bind, Continuity.fetchAndProcessBlock, try_catch, bind,
    Continuity.call_getBlock, Continuity.call_onBlock, throw.
  destruct Hfail as [Hget|(b & Hget & Hon)]; rewrite Hget; simpl.
  - rewrite assigned_app. simpl. by rewrite app_nil_r.
  - rewrite Hon. simpl. rewrite !assigned_app. simpl. by rewrite !app_nil_r.
Qed.

Lemma routine_failure_propagates_witness :
  fst (Continuity.processNewBlock Samples.recordingConfig (102 + 1)
         (Continuity.runOps Samples.recordingConfig
            [Continuity.Initialize; Continuity.ProcessNewBlock 101;
             Continuity.ProcessNewBlock 102]
            (Continuity.newManager Samples.brokenAt103)))
  = Throw "Failed to fetch block 103".
Proof.
  refine (proj1 (routine_failure_propagates Samples.recordingConfig
                   (Continuity.runOps Samples.recordingConfig
                      [Continuity.Initialize; Continuity.ProcessNewBlock 101;
                       Continuity.ProcessNewBlock 102]
                      (Continuity.newManager Samples.brokenAt103))
                   102 "Failed to fetch block 103" _ _ _));
    [reflexivity|reflexivity|by left].
Defined.

(** X10.  [backfillBlocks] never throws and never stops early, as long
    as the [onError] handler (if there is one) does not throw: whatever
    the node answers and whatever [onBlock] does, every block number of
    the range is requested exactly once, in ascending order. *)
Theorem backfill_requests_whole_range (config : Continuity.BlockContinuityConfig)
    (m : Continuity.BlockContinuityManager) (startBlock endBlock : Z) :
  (∀ handler, Continuity.onError config = Some handler →
              ∀ e h, handler e h = Ok tt) →
  ∃ m',
    Continuity.backfillBlocks config startBlock endBlock m = (Ok tt, m') ∧
    Continuity.fetched (Continuity.calls m')
    = Continuity.fetched (Continuity.calls m)
      ++ seqZ startBlock (endBlock - startBlock + 1) ∧
    Continuity.client m' = Continuity.client m ∧
    Continuity.isInitialized m' = Continuity.isInitialized m.
Proof.
  intros Hquiet.
  destruct (backfillLoop_returns config (Z.to_nat (endBlock - startBlock + 1))
              startBlock endBlock m Hquiet eq_refl) as (m' & Hrun & Hc & Hi & Hf).
  by exists m'.
Qed.

Lemma backfill_requests_whole_range_witness :
  ∃ m',
    Continuity.backfillBlocks Samples.recordingConfig 101 105
      (Continuity.newManager Samples.brokenAt103) = (Ok tt, m') ∧
    Continuity.fetched (Continuity.calls m') = [] ++ seqZ 101 (105 - 101 + 1) ∧
    Continuity.client m' = Samples.brokenAt103 ∧
    Continuity.isInitialized m' = false.
Proof.
  apply (backfill_requests_whole_range Samples.recordingConfig
           (Continuity.newManager Samples.brokenAt103) 101 105).
  by intros handler [= <-].
Defined.

(** X11.  Reconnecting an initialized engine to a node that serves
    every block and whose head is not behind: the engine switches to the
    new client, hands the missed blocks [lastProcessed+1 .. latest] to
    [onBlock] in order (none when nothing was missed) and ends holding
    the node's head. *)
Theorem reconnection_backfills_missed_blocks
    (config : Continuity.BlockContinuityConfig)
    (newClient : Continuity.PublicClient)
    (m : Continuity.BlockContinuityManager) (l latest : Z) :
  (∀ k h, ∃ b, Continuity.getBlock newClient k h = Ok b ∧ Watcher.number b = k) →
  (∀ b h, Continuity.onBlock config b h = Ok tt) →
  Continuity.isInitialized m = true →
  Continuity.lastProcessedBlockNumber m = Some l →
  Continuity.getBlockNumber newClient (Continuity.calls m) = Ok latest →
  l ≤ latest →
  ∃ m',
    Continuity.handleReconnection config newClient m = (Ok tt, m') ∧
    Continuity.client m' = newClient ∧
    Continuity.lastProcessedBlockNumber m' = Some latest ∧
    Continuity.onBlockNumbers (Continuity.calls m')
    = Continuity.onBlockNumbers (Continuity.calls m) ++ seqZ (l + 1) (latest - l).
Proof.
  intros Hserves Hon Hi Hl Hget Hle.
  unfold Continuity.handleReconnection, bind at 1, Continuity.set_client, modify.
  unfold bind at 1, gets. unfold bind at 1, gets. simpl. rewrite Hi, Hl.
  unfold try_catch, bind at 1, Continuity.call_getBlockNumber. simpl. rewrite Hget.
  destruct (Z.gtb_spec latest l) as [Hgt|Hngt].
  - unfold Continuity.backfillBlocks.
    match goal with
    | |- context [Continuity.backfillLoop config ?f ?s ?e] =>
        destruct (backfillLoop_serving config newClient Hserves Hon f s e
                    (Continuity.record Continuity.GetBlockNumber
                       {| Continuity.lastProcessedBlockNumber := Some l;
                          Continuity.isInitialized := true;
                          Continuity.client := newClient;
                          Continuity.calls := Continuity.calls m |})
                    eq_refl eq_refl)
          as (m1 & Hrun & Hc1 & Hi1 & Hnums & Hlast)
    end.
    erewrite bind_Ok by exact Hrun.
    eexists. split; [reflexivity|]. simpl. split; [done|]. split; [done|].
    rewrite onBlockNumbers_app, Hnums. simpl. rewrite onBlockNumbers_app. simpl.
    rewrite !app_nil_r. do 2 f_equal. lia.
  - assert (latest = l) as -> by lia. rewrite Z.eqb_refl.
    eexists. split; [reflexivity|]. simpl. split; [done|]. split; [done|].
    rewrite onBlockNumbers_app, seqZ_nil by lia. done.
Qed.

Lemma reconnection_backfills_missed_blocks_witness :
  ∃ m',
    Continuity.handleReconnection Samples.recordingConfig (Samples.steadyClient 106)
      (Continuity.runOps Samples.recordingConfig
         [Continuity.Initialize; Continuity.ProcessNewBlock 101;
          Continuity.ProcessNewBlock 102]
         (Continuity.newManager (Samples.steadyClient 100)))
    = (Ok tt, m') ∧
    Continuity.client m' = Samples.steadyClient 106 ∧
    Continuity.lastProcessedBlockNumber m' = Some 106 ∧
    Continuity.onBlockNumbers (Continuity.calls m')
    = [101; 102] ++ seqZ (102 + 1) (106 - 102).
Proof.
  apply (reconnection_backfills_missed_blocks Samples.recordingConfig
           (Samples.steadyClient 106)
           (Continuity.runOps Samples.recordingConfig
              [Continuity.Initialize; Continuity.ProcessNewBlock 101;
               Continuity.ProcessNewBlock 102]
              (Continuity.newManager (Samples.steadyClient 100)))
           102 106).
  - intros k h. by exists (Samples.emptyBlock k).
  - reflexivity.
  - reflexivity.
  - reflexivity.
  - reflexivity.
  - lia.
Defined.



(** ** No block is handed to [onBlock] twice *)

Section Ordered.
Import Watcher Continuity.
Variable config : BlockContinuityConfig.
Hypothesis onBlock_returns : ∀ b h, onBlock config b h = Ok tt.

Lemma StronglySorted_lt_snoc (l : list Z) (x : Z) :
  StronglySorted Z.lt l → (∀ y, y ∈ l → y < x) → StronglySorted Z.lt (l ++ [x]).
Proof.
  induction 1 as [|a l Hsorted IH Hall]; intros Hbelow; simpl.
  - repeat constructor.
  - constructor.
    + apply IH. intros y Hy. apply Hbelow. by right.
    + apply Forall_app. split; [done|]. constructor; [|done]. apply Hbelow. by left.
Qed.

Lemma sameBlocks_refl m : sameBlocks m m.
Proof. done. Qed.

Lemma sameBlocks_trans m1 m2 m3 : sameBlocks m1 m2 → sameBlocks m2 m3 → sameBlocks m1 m3.
Proof.
  intros (? & ? & ? & ?) (? & ? & ? & ?). unfold sameBlocks.
  repeat split; congruence.
Qed.

Lemma sameBlocks_record call m :
  (∀ b, call ≠ OnBlock b) → sameBlocks m (record call m).
Proof.
  intros Hcall. repeat split. simpl. rewrite onBlockNumbers_app.
  destruct call; simpl; try by rewrite app_nil_r. by destruct (Hcall block).
Qed.

Lemma sameBlocks_inOrder m m' : sameBlocks m m' → inOrder m → inOrder m'.
Proof.
  intros (Hl & Hi & Hc & Hb) (? & ? & ? & ?). unfold inOrder.
  by rewrite Hl, Hi, Hc, Hb.
Qed.

Lemma sameBlocks_inOrderBelow b m m' :
  sameBlocks m m' → inOrderBelow b m → inOrderBelow b m'.
Proof.
  intros Hv (Hm & Hi & Hb). pose proof Hv as (Hl & Hi' & _).
  split; [by eapply sameBlocks_inOrder|]. by rewrite Hl, Hi'.
Qed.

Lemma inOrderBelow_weaken b b' m : b ≤ b' → inOrderBelow b m → inOrderBelow b' m.
Proof.
  intros Hle (Hm & Hi & Hb). split; [done|]. split; [done|].
  intros l Hl. specialize (Hb l Hl). lia.
Qed.

(** Writing [n] over a value that is not above [n]. *)
Lemma assign_inOrder n m :
  inOrderBelow n m → inOrderBelow n (exec (set_lastProcessedBlockNumber n) m).
Proof.
  intros ((Hh & Hnone & Hsorted & Hle) & Hi & Hb).
  unfold exec, set_lastProcessedBlockNumber, modify; simpl.
  split; [|split; [done|by intros l [= ->]]].
  split; [done|]. split; [by rewrite Hi|]. simpl.
  rewrite onBlockNumbers_app. simpl. rewrite app_nil_r. split; [done|].
  intros x Hx. destruct (Hle x Hx) as (l & Hl & Hxl).
  exists n. split; [done|]. specialize (Hb l Hl). lia.
Qed.

(** Fetching block [k] and handing it to [onBlock]: either the fetch
    fails and nothing is handed over, or [k] is. *)
Lemma fetchAndProcessBlock_blocks k m :
  honest (client m) →
  (∃ e m1, fetchAndProcessBlock config k m = (Throw e, m1) ∧ sameBlocks m m1) ∨
  (∃ m1, fetchAndProcessBlock config k m = (Ok tt, m1) ∧
         lastProcessedBlockNumber m1 = lastProcessedBlockNumber m ∧
         isInitialized m1 = isInitialized m ∧ client m1 = client m ∧
         onBlockNumbers (calls m1) = onBlockNumbers (calls m) ++ [k]).
Proof.
  intros Hh.
  unfold fetchAndProcessBlock, try_catch, bind, call_getBlock, call_onBlock, throw.
  destruct (getBlock (client m) k (calls m)) as [b|e] eqn:Hget; simpl.
  - rewrite onBlock_returns. right. eexists. split; [reflexivity|]. simpl.
    repeat split. rewrite !onBlockNumbers_app. simpl.
    by rewrite (Hh k _ b Hget), app_nil_r.
  - left. eexists e, _. split; [reflexivity|]. by apply sameBlocks_record.
Qed.

Lemma fetch_assign_inOrder k m :
  inOrderBelow (k - 1) m →
  inOrderBelow k
    (exec (bind (fetchAndProcessBlock config k)
                (λ _, set_lastProcessedBlockNumber k)) m) ∧
  (∀ e m1, bind (fetchAndProcessBlock config k)
             (λ _, set_lastProcessedBlockNumber k) m = (Throw e, m1) →
           sameBlocks m m1).
Proof.
  intros Hm. pose proof Hm as ((Hh & Hnone & Hsorted & Hle) & Hi & Hb).
  unfold exec.
  destruct (fetchAndProcessBlock_blocks k m Hh)
    as [(e & m1 & Hrun & Hsame)|(m1 & Hrun & Hl1 & Hi1 & Hc1 & Hnums)].
  - erewrite bind_Throw by exact Hrun. simpl. split.
    + apply inOrderBelow_weaken with (k - 1); [lia|].
      by eapply sameBlocks_inOrderBelow.
    + by intros e' m' [= <- <-].
  - erewrite bind_Ok by exact Hrun. split; [|done].
    unfold set_lastProcessedBlockNumber, modify; simpl.
    split; [|split; [simpl; congruence|by simpl; intros l [= ->]]].
    split; [by simpl; rewrite Hc1|]. split; [by simpl; rewrite Hi1, Hi|]. simpl.
    rewrite onBlockNumbers_app, Hnums. simpl. rewrite app_nil_r. split.
    + apply StronglySorted_lt_snoc; [done|].
      intros y Hy. destruct (Hle y Hy) as (l & Hl & Hyl). specialize (Hb l Hl). lia.
    + intros x [Hx| ->%list_elem_of_singleton]%elem_of_app.
      * destruct (Hle x Hx) as (l & Hl & Hxl). specialize (Hb l Hl).
        exists k. split; [done|lia].
      * exists k. split; [done|lia].
Qed.

Lemma call_onError_sameBlocks e m : sameBlocks m (exec (call_onError config e) m).
Proof.
  unfold exec, call_onError. destruct (onError config) as [handler|]; simpl.
  - by apply sameBlocks_record.
  - apply sameBlocks_refl.
Qed.

Lemma backfill_iteration_inOrder k m :
  inOrderBelow (k - 1) m →
  inOrderBelow k
    (exec (try_catch
             (bind (fetchAndProcessBlock config k)
                   (λ _, set_lastProcessedBlockNumber k))
             (λ error, call_onError config error)) m).
Proof.
  intros Hm. destruct (fetch_assign_inOrder k m Hm) as [Hok Hthrow].
  unfold exec in *. unfold try_catch.
  destruct (bind (fetchAndProcessBlock config k) _ m) as [[[]|e] m1] eqn:Hrun;
    simpl in *; [done|].
  apply inOrderBelow_weaken with (k - 1); [lia|].
  eapply sameBlocks_inOrderBelow; [|exact Hm].
  eapply sameBlocks_trans; [by eapply Hthrow|]. apply call_onError_sameBlocks.
Qed.

Lemma backfillLoop_inOrder fuel : ∀ k e m,
  inOrderBelow (k - 1) m →
  inOrderBelow (Z.max (k - 1) e) (exec (backfillLoop config fuel k e) m).
Proof.
  induction fuel as [|fuel IH]; intros k e m Hm; simpl.
  - apply inOrderBelow_weaken with (k - 1); [lia|done].
  - destruct (Z.leb_spec k e) as [Hle|Hgt].
    + apply (backfill_iteration_inOrder k) in Hm.
      rewrite exec_bind. unfold exec in Hm.
      destruct (try_catch _ _ m) as [[[]|err] m1]; simpl in Hm.
      * apply inOrderBelow_weaken with (Z.max (k + 1 - 1) e); [lia|].
        apply IH. by replace (k + 1 - 1) with k by lia.
      * apply inOrderBelow_weaken with k; [lia|done].
    + apply inOrderBelow_weaken with (k - 1); [lia|done].
Qed.

Lemma inOrder_uninitialized m :
  inOrder m → isInitialized m = false → onBlockNumbers (calls m) = [].
Proof.
  intros (_ & Hnone & _ & Hle) Hi. specialize (Hnone Hi).
  destruct (onBlockNumbers (calls m)) as [|x l]; [done|].
  destruct (Hle x) as (l' & Hl' & _); [by left|]. congruence.
Qed.

Lemma initialize_inOrder m :
  inOrder m →
  inOrder (exec initialize m) ∧
  (isInitialized m = false →
   fst (initialize m) = Ok tt →
   ∃ latest, inOrderBelow latest (exec initialize m)).
Proof.
  intros Hm. unfold exec.
  destruct (isInitialized m) eqn:Hi.
  { split; [|done]. unfold initialize, bind at 1, gets. by rewrite Hi. }
  rewrite (initialize_uninitialized m Hi).
  pose proof (inOrder_uninitialized m Hm Hi) as Hnil.
  destruct Hm as (Hh & Hnone & Hsorted & Hle).
  destruct (getBlockNumber (client m) (calls m)) as [latest|e]; simpl.
  - assert (Hnew : inOrder
              {| lastProcessedBlockNumber := Some latest; isInitialized := true;
                 client := client m;
                 calls := (calls m ++ [GetBlockNumber]) ++ [Assign latest] |}).
    { split; [done|]. split; [done|]. simpl.
      rewrite !onBlockNumbers_app, Hnil. simpl. split; [constructor|].
      by intros x ?%elem_of_nil. }
    split; [done|]. intros _ _. exists latest. split; [done|]. split; [done|].
    simpl. intros l [= ->]. lia.
  - split; [|done].
    split; [done|]. split; [by simpl|]. simpl.
    rewrite onBlockNumbers_app, Hnil. simpl. split; [constructor|].
    by intros x ?%elem_of_nil.
Qed.

Lemma classify_inOrder n m :
  inOrder m → isInitialized m = true →
  inOrder
    (exec (bind (gets lastProcessedBlockNumber)
             (λ last,
                match last with
                | None =>
                    bind (fetchAndProcessBlock config n)
                      (λ _, set_lastProcessedBlockNumber n)
                | Some lastProcessed =>
                    if n =? lastProcessed + 1
                    then bind (fetchAndProcessBlock config n)
                           (λ _, set_lastProcessedBlockNumber n)
                    else if n >? lastProcessed + 1
                    then bind (backfillBlocks config (lastProcessed + 1) (n - 1))
                           (λ _, bind (fetchAndProcessBlock config n)
                                   (λ _, set_lastProcessedBlockNumber n))
                    else if n <=? lastProcessed then ret tt else ret tt
                end)) m).
Proof.
  intros Hm Hi. rewrite exec_bind. unfold gets.
  destruct (lastProcessedBlockNumber m) as [l|] eqn:Hl.
  - assert (Hbelow : inOrderBelow l m).
    { split; [done|]. split; [done|]. intros l' Hl'. rewrite Hl in Hl'.
      injection Hl' as <-. lia. }
    destruct (Z.eqb_spec n (l + 1)) as [->|Hne].
    { apply fetch_assign_inOrder. by replace (l + 1 - 1) with l by lia. }
    destruct (Z.gtb_spec n (l + 1)) as [Hgt|Hle].
    + rewrite exec_bind.
      replace l with (l + 1 - 1) in Hbelow by lia.
      apply (backfillLoop_inOrder (Z.to_nat (n - 1 - (l + 1) + 1)) _ (n - 1)) in Hbelow.
      unfold exec in Hbelow. unfold backfillBlocks.
      destruct (backfillLoop config _ (l + 1) (n - 1) m) as [[[]|e] m1];
        simpl in Hbelow; [|by destruct Hbelow].
      apply fetch_assign_inOrder.
      apply inOrderBelow_weaken with (Z.max (l + 1 - 1) (n - 1)); [lia|done].
    + by destruct (n <=? l).
  - apply fetch_assign_inOrder.
    split; [done|]. split; [done|]. intros l' Hl'. congruence.
Qed.

Lemma processNewBlock_inOrder n m :
  inOrder m → inOrder (exec (processNewBlock config n) m).
Proof.
  intros Hm. unfold processNewBlock. rewrite exec_bind. unfold gets at 1.
  rewrite exec_bind.
  destruct (isInitialized m) eqn:Hi; simpl.
  - unfold ret. by apply classify_inOrder.
  - destruct (initialize_inOrder m Hm) as [Hinit Hok]. unfold exec in *.
    destruct (initialize m) as [[[]|e] m1]; simpl in *; [|done].
    destruct (Hok Hi eq_refl) as (latest & _ & Hi1 & _).
    by apply classify_inOrder.
Qed.

Lemma handleReconnection_inOrder newClient m :
  inOrder m → honest newClient →
  reconnectsBehind (HandleReconnection newClient) m = false →
  inOrder (exec (handleReconnection config newClient) m).
Proof.
  intros Hm Hhonest Hahead. unfold handleReconnection, reconnectsBehind in *.
  rewrite exec_bind. unfold set_client, modify. rewrite exec_bind. unfold gets at 1.
  rewrite exec_bind. unfold gets at 1. cbn [lastProcessedBlockNumber isInitialized].
  set (m0 := {| lastProcessedBlockNumber := lastProcessedBlockNumber m;
                isInitialized := isInitialized m;
                client := newClient; calls := calls m |}).
  assert (Hm0 : inOrder m0).
  { destruct Hm as (_ & ? & ? & ?). by split. }
  destruct (isInitialized m) eqn:Hi;
    [destruct (lastProcessedBlockNumber m) as [l|] eqn:Hl|];
    try by apply initialize_inOrder.
  unfold exec, try_catch, bind at 1, call_getBlockNumber. simpl.
  destruct (getBlockNumber newClient (calls m)) as [latest|e]; simpl.
  - destruct (Z.gtb_spec latest l) as [Hgt|Hle].
    + assert (Hbelow : inOrderBelow (l + 1 - 1) (record GetBlockNumber m0)).
      { split; [|split; [done|]].
        - eapply sameBlocks_inOrder; [|exact Hm0]. by apply sameBlocks_record.
        - simpl. intros l' [= <-]. lia. }
      apply (backfillLoop_inOrder (Z.to_nat (latest - (l + 1) + 1)) _ latest) in Hbelow.
      unfold exec in Hbelow. unfold backfillBlocks, bind.
      destruct (backfillLoop config _ (l + 1) latest _) as [[[]|e] m1];
        simpl in *; [|by destruct Hbelow].
      apply (assign_inOrder latest m1).
      apply inOrderBelow_weaken with (Z.max (l + 1 - 1) latest); [lia|done].
    + destruct (Z.eqb_spec latest l) as [->|Hne]; simpl.
      * eapply sameBlocks_inOrder; [|exact Hm0]. by apply sameBlocks_record.
      * apply Z.ltb_ge in Hahead. lia.
  - unfold throw. simpl.
    eapply sameBlocks_inOrder; [|exact Hm0]. by apply sameBlocks_record.
Qed.

Lemma runOps_inOrder ops : ∀ m,
  inOrder m → honestOps ops → neverReconnectsBehind config ops m = true →
  inOrder (runOps config ops m).
Proof.
  induction ops as [|op ops IH]; intros m Hm Hhonest Hops; simpl in *; [done|].
  apply andb_prop in Hops as [Hop Hrest]. apply negb_true_iff in Hop.
  apply Forall_cons in Hhonest as [Hop_honest Hhonest].
  apply IH; [|done|done].
  destruct op as [|n|newClient]; simpl.
  - by apply initialize_inOrder.
  - by apply processNewBlock_inOrder.
  - by apply handleReconnection_inOrder.
Qed.

End Ordered.

(** X13.  No block is processed twice.  In any run of [initialize],
    [processNewBlock] and [handleReconnection] from a new engine, with
    nodes that may fail at will but serve the block asked for when they
    serve one, with an [onBlock] that never throws, and as long as no
    reconnection finds the node's head behind the engine: the block
    numbers handed to [onBlock] are strictly increasing, and none is
    beyond [lastProcessedBlockNumber]. *)
Theorem blocks_are_handed_in_ascending_order
    (config : Continuity.BlockContinuityConfig) (c : Continuity.PublicClient)
    (ops : list Continuity.Op) :
  (∀ b h, Continuity.onBlock config b h = Ok tt) →
  Continuity.honest c → Continuity.honestOps ops →
  Continuity.neverReconnectsBehind config ops (Continuity.newManager c) = true →
  StronglySorted Z.lt
    (Continuity.onBlockNumbers
       (Continuity.calls (Continuity.runOps config ops (Continuity.newManager c)))) ∧
  ∀ x, x ∈ Continuity.onBlockNumbers
             (Continuity.calls (Continuity.runOps config ops (Continuity.newManager c))) →
       ∃ l, Continuity.lastProcessedBlockNumber
              (Continuity.runOps config ops (Continuity.newManager c)) = Some l ∧
            x ≤ l.
Proof.
  intros Hon Hc Hops Hahead.
  destruct (runOps_inOrder config Hon ops (Continuity.newManager c))
    as (_ & _ & Hsorted & Hle); try done.
  split; [done|]. split; [done|]. split; [constructor|]. by intros x ?%elem_of_nil.
Qed.

Lemma blocks_are_handed_in_ascending_order_witness :
  StronglySorted Z.lt
    (Continuity.onBlockNumbers
       (Continuity.calls
          (Continuity.runOps Samples.recordingConfig
             [Continuity.Initialize; Continuity.ProcessNewBlock 101;
              Continuity.ProcessNewBlock 105; Continuity.ProcessNewBlock 103;
              Continuity.HandleReconnection (Samples.steadyClient 107)]
             (Continuity.newManager Samples.brokenAt103)))).
Proof.
  refine (proj1 (blocks_are_handed_in_ascending_order Samples.recordingConfig
                   Samples.brokenAt103
                   [Continuity.Initialize; Continuity.ProcessNewBlock 101;
                    Continuity.ProcessNewBlock 105; Continuity.ProcessNewBlock 103;
                    Continuity.HandleReconnection (Samples.steadyClient 107)]
                   _ _ _ _)).
  - reflexivity.
  - intros k h b. simpl. unfold Samples.fetchExcept103.
    destruct (k =? 103); [done|]. by intros [= <-].
  - repeat constructor. intros k h b. simpl. by intros [= <-].
  - reflexivity.
Defined.

(** ** The endpoint pool *)

Section PoolFacts.
Import RpcPool.

Lemma foldl_fresh_lookup (t : Z) (es : list string) :
  ∀ (hm : gmap string EndpointHealth) (e : string),
  foldl (λ (hm : gmap string EndpointHealth) url,
           <[url := freshHealth url t]> hm) hm es !! e
  = if decide (e ∈ es) then Some (freshHealth e t) else hm !! e.
Proof.
  induction es as [|e0 es IH]; intros hm e; simpl.
  - destruct (decide (e ∈ [])) as [Hin|_]; [by apply elem_of_nil in Hin|done].
  - rewrite IH.
    destruct (decide (e ∈ es)) as [Hin|Hout].
    + rewrite decide_True; [done|by right].
    + destruct (decide (e0 = e)) as [->|Hne].
      * rewrite decide_True by left. by rewrite lookup_insert_eq.
      * rewrite lookup_insert_ne by done.
        rewrite decide_False; [done|].
        intros [->|?]%elem_of_cons; done.
Qed.

Lemma usable_fresh (e : string) (t now : Z) :
  0 ≤ now → usable now (freshHealth e t) = true.
Proof.
  intros Hnow. unfold usable. simpl. rewrite andb_true_r. by apply Z.leb_le.
Qed.

Lemma walkRing_first fuel now p e h :
  endpoints p !! currentIndex p = Some e → healthMap p !! e = Some h →
  usable now h = true →
  walkRing (S fuel) now p = (Ok (Some e), p).
Proof.
  intros He Hh Hu. simpl. erewrite bind_Ok by reflexivity.
  erewrite bind_Ok by (by apply healthAt_current). simpl. by rewrite Hu.
Qed.

Lemma initialPool_selects_first (e : string) (rest : list string)
    (cfg : RpcPoolConfig) (t now : Z) :
  0 ≤ now →
  getCurrentHealthyEndpoint now (initialPool (e :: rest) cfg t)
  = (Ok e, initialPool (e :: rest) cfg t).
Proof.
  intros Hnow. unfold getCurrentHealthyEndpoint.
  erewrite bind_Ok by reflexivity.
  erewrite bind_Ok; cycle 1.
  { apply walkRing_first with (freshHealth e t); [done| |by apply usable_fresh].
    unfold initialPool. cbn [healthMap].
    rewrite foldl_fresh_lookup. by rewrite decide_True by left. }
  done.
Qed.

End PoolFacts.



(** X15.  A pool fresh from the constructor selects the first endpoint
    of its list, at any clock reading that is not negative, and the
    selection changes nothing in the pool. *)
Theorem new_pool_selects_first_endpoint
    (e : string) (rest : list string) (cfg : RpcPool.RpcPoolConfig) (t now : Z) :
  0 ≤ now →
  RpcPool.getCurrentHealthyEndpoint now (RpcPool.initialPool (e :: rest) cfg t)
  = (Ok e, RpcPool.initialPool (e :: rest) cfg t).
Proof. apply initialPool_selects_first. Qed.

Lemma new_pool_selects_first_endpoint_witness :
  RpcPool.getCurrentHealthyEndpoint 1000 Samples.twoEndpoints
  = (Ok "wss://a", Samples.twoEndpoints).
Proof.
  apply (new_pool_selects_first_endpoint "wss://a" ["wss://b"] RpcPool.DEFAULT_CONFIG 0 1000).
  lia.
Defined.

(** ** Cooldowns and failover *)

Section Cooldown.
Import RpcPool.

Lemma handleConnectionError_exec e now now' p h :
  healthMap p !! e = Some h →
  exec (handleConnectionError e now now') p
  = set_healthMap
      (<[e := {| url := url h;
                 status := if failCount h + 1 >=? 3 then DOWN else DEGRADED;
                 failCount := failCount h + 1;
                 lastErrorTime := now;
                 lastSuccessTime := lastSuccessTime h;
                 nextAvailableTime :=
                   now' + Z.min (2 ^ (failCount h + 1) * baseDelay (config p))
                            (maxCooldown (config p)) |}]> (healthMap p)) p.
Proof.
  intros Hh. unfold exec. by rewrite (handleConnectionError_result e now now' p h Hh).
Qed.

Lemma recordSuccess_exec e t p h :
  healthMap p !! e = Some h →
  exec (recordSuccess e t) p
  = set_healthMap
      (<[e := {| url := url h; status := HEALTHY; failCount := 0;
                 lastErrorTime := lastErrorTime h;
                 lastSuccessTime := t; nextAvailableTime := 0 |}]> (healthMap p)) p.
Proof.
  intros Hh. unfold exec, recordSuccess, bind, getHealth, putHealth, modify.
  by rewrite Hh.
Qed.

(** The cooldown is at least [min(2 * baseDelay, maxCooldown)]. *)
Lemma cooldown_bounds (fc b cap : Z) :
  0 ≤ fc → 0 ≤ b →
  Z.min (2 * b) cap ≤ Z.min (2 ^ (fc + 1) * b) cap ∧
  Z.min (2 ^ (fc + 1) * b) cap ≤ Z.min (2 ^ (fc + 2) * b) cap.
Proof.
  intros Hfc Hb.
  assert (H1 : 2 ^ 1 ≤ 2 ^ (fc + 1)) by (apply Z.pow_le_mono_r; lia).
  assert (H2 : 2 ^ (fc + 2) = 2 * 2 ^ (fc + 1)).
  { replace (fc + 2) with (Z.succ (fc + 1)) by lia. apply Z.pow_succ_r. lia. }
  change (2 ^ 1) with 2 in H1. rewrite H2.
  generalize dependent (2 ^ (fc + 1)). intros P H1 _. split; nia.
Qed.

Lemma handleConnectionError_cooling e now now' p h t :
  healthMap p !! e = Some h → 0 ≤ failCount h → 0 ≤ baseDelay (config p) →
  t < now' + Z.min (2 * baseDelay (config p)) (maxCooldown (config p)) →
  usableEndpoint (exec (handleConnectionError e now now') p) t e = false.
Proof.
  intros Hh Hfc Hb Ht. rewrite (handleConnectionError_exec e now now' p h Hh).
  unfold usableEndpoint. cbn [healthMap set_healthMap]. rewrite lookup_insert_eq.
  unfold usable. cbn [nextAvailableTime].
  apply andb_false_intro1, Z.leb_gt.
  pose proof (cooldown_bounds (failCount h) (baseDelay (config p))
                (maxCooldown (config p)) Hfc Hb) as [Hlow _].
  lia.
Qed.

Lemma handleConnectionError_others e now now' p e' :
  e' ≠ e →
  healthMap (exec (handleConnectionError e now now') p) !! e' = healthMap p !! e'.
Proof.
  intros Hne. destruct (healthMap p !! e) as [h|] eqn:Hh.
  - rewrite (handleConnectionError_exec e now now' p h Hh).
    cbn [healthMap set_healthMap]. by rewrite lookup_insert_ne.
  - unfold exec, handleConnectionError, bind, getHealth. by rewrite Hh.
Qed.

Lemma handleConnectionError_ring e now now' p :
  endpoints (exec (handleConnectionError e now now') p) = endpoints p ∧
  currentIndex (exec (handleConnectionError e now now') p) = currentIndex p.
Proof.
  destruct (healthMap p !! e) as [h|] eqn:Hh.
  - by rewrite (handleConnectionError_exec e now now' p h Hh).
  - unfold exec, handleConnectionError, bind, getHealth. by rewrite Hh.
Qed.

Lemma getCurrentHealthyEndpoint_found now p e p' :
  walkRing (length (endpoints p)) now p = (Ok (Some e), p') →
  getCurrentHealthyEndpoint now p = (Ok e, p').
Proof.
  intros Hrun. unfold getCurrentHealthyEndpoint.
  erewrite bind_Ok by reflexivity. by erewrite bind_Ok by exact Hrun.
Qed.

End Cooldown.

(** X16.  After [handleConnectionError] the endpoint is left alone for
    at least [min(2 * baseDelay, maxCooldown)] and its cooldown ends at
    most [maxCooldown] after the error; from the third failure in a row
    on it is Down and is not usable at any time. *)
Theorem failed_endpoint_cools_down (p : RpcPool.WsRpcPool) (e : string)
    (h : RpcPool.EndpointHealth) (now now' : Z) :
  RpcPool.healthMap p !! e = Some h →
  0 ≤ RpcPool.failCount h → 0 ≤ RpcPool.baseDelay (RpcPool.config p) →
  (∀ t, t < now' + Z.min (2 * RpcPool.baseDelay (RpcPool.config p))
                     (RpcPool.maxCooldown (RpcPool.config p)) →
        RpcPool.usableEndpoint (exec (RpcPool.handleConnectionError e now now') p) t e
        = false) ∧
  RpcPool.nextAvailableOf (exec (RpcPool.handleConnectionError e now now') p) e
  ≤ now' + RpcPool.maxCooldown (RpcPool.config p) ∧
  (2 ≤ RpcPool.failCount h →
   ∀ t, RpcPool.usableEndpoint (exec (RpcPool.handleConnectionError e now now') p) t e
        = false).
Proof.
  intros Hh Hfc Hb. split; [|split].
  - intros t Ht. by eapply handleConnectionError_cooling.
  - rewrite (handleConnectionError_exec e now now' p h Hh).
    unfold RpcPool.nextAvailableOf. cbn [RpcPool.healthMap RpcPool.set_healthMap].
    rewrite lookup_insert_eq. cbn [RpcPool.nextAvailableTime]. lia.
  - intros Hthird t. rewrite (handleConnectionError_exec e now now' p h Hh).
    unfold RpcPool.usableEndpoint. cbn [RpcPool.healthMap RpcPool.set_healthMap].
    rewrite lookup_insert_eq. unfold RpcPool.usable. cbn [RpcPool.status].
    destruct (Z.geb_spec (RpcPool.failCount h + 1) 3); [|lia].
    apply andb_false_r.
Qed.

Lemma failed_endpoint_cools_down_witness :
  (∀ t, t < 1000 + Z.min (2 * 5000) 300000 →
        RpcPool.usableEndpoint
          (exec (RpcPool.handleConnectionError "wss://a" 1000 1000) Samples.twoEndpoints)
          t "wss://a" = false) ∧
  RpcPool.nextAvailableOf
    (exec (RpcPool.handleConnectionError "wss://a" 1000 1000) Samples.twoEndpoints)
    "wss://a" ≤ 1000 + 300000 ∧
  (2 ≤ 0 →
   ∀ t, RpcPool.usableEndpoint
          (exec (RpcPool.handleConnectionError "wss://a" 1000 1000) Samples.twoEndpoints)
          t "wss://a" = false).
Proof.
  apply (failed_endpoint_cools_down Samples.twoEndpoints "wss://a"
           (RpcPool.freshHealth "wss://a" 0) 1000 1000 eq_refl); vm_compute; congruence.
Defined.

(** X17.  The backoff never shrinks between two errors in a row on the
    same endpoint: the second cooldown is at least the first, and twice
    the first while the cap is not reached. *)
Theorem backoff_never_shrinks (p : RpcPool.WsRpcPool) (e : string)
    (h : RpcPool.EndpointHealth) (a a' b b' : Z) :
  RpcPool.healthMap p !! e = Some h →
  0 ≤ RpcPool.failCount h → 0 ≤ RpcPool.baseDelay (RpcPool.config p) →
  RpcPool.nextAvailableOf (exec (RpcPool.handleConnectionError e a a') p) e - a'
  ≤ RpcPool.nextAvailableOf
      (exec (RpcPool.handleConnectionError e b b')
         (exec (RpcPool.handleConnectionError e a a') p)) e - b' ∧
  (2 ^ (RpcPool.failCount h + 2) * RpcPool.baseDelay (RpcPool.config p)
   ≤ RpcPool.maxCooldown (RpcPool.config p) →
   RpcPool.nextAvailableOf
     (exec (RpcPool.handleConnectionError e b b')
        (exec (RpcPool.handleConnectionError e a a') p)) e - b'
   = 2 * (RpcPool.nextAvailableOf (exec (RpcPool.handleConnectionError e a a') p) e - a')).
Proof.
  intros Hh Hfc Hb.
  rewrite (handleConnectionError_exec e a a' p h Hh).
  erewrite (handleConnectionError_exec e b b') by apply lookup_insert_eq.
  unfold RpcPool.nextAvailableOf. cbn [RpcPool.healthMap RpcPool.set_healthMap].
  rewrite !lookup_insert_eq.
  cbn [RpcPool.nextAvailableTime RpcPool.failCount RpcPool.config RpcPool.set_healthMap].
  replace (RpcPool.failCount h + 1 + 1) with (RpcPool.failCount h + 2) by lia.
  pose proof (cooldown_bounds (RpcPool.failCount h) (RpcPool.baseDelay (RpcPool.config p))
                (RpcPool.maxCooldown (RpcPool.config p)) Hfc Hb) as [_ Hup].
  split; [lia|]. intros Hcap.
  assert (H2 : 2 ^ (RpcPool.failCount h + 2) = 2 * 2 ^ (RpcPool.failCount h + 1)).
  { replace (RpcPool.failCount h + 2) with (Z.succ (RpcPool.failCount h + 1)) by lia.
    apply Z.pow_succ_r. lia. }
  assert (Hpos : 0 ≤ 2 ^ (RpcPool.failCount h + 1)) by (apply Z.pow_nonneg; lia).
  rewrite H2 in *. generalize dependent (2 ^ (RpcPool.failCount h + 1)). intros P.
  intros. nia.
Qed.

Lemma backoff_never_shrinks_witness :
  RpcPool.nextAvailableOf
    (exec (RpcPool.handleConnectionError "wss://a" 100 100) Samples.twoEndpoints)
    "wss://a" - 100
  ≤ RpcPool.nextAvailableOf
      (exec (RpcPool.handleConnectionError "wss://a" 200 200)
         (exec (RpcPool.handleConnectionError "wss://a" 100 100) Samples.twoEndpoints))
      "wss://a" - 200.
Proof.
  apply (proj1 (backoff_never_shrinks Samples.twoEndpoints "wss://a"
                  (RpcPool.freshHealth "wss://a" 0) 100 100 200 200 eq_refl
                  ltac:(vm_compute; congruence) ltac:(vm_compute; congruence))).
Defined.

(** X18.  [recordSuccess] wipes the failure history: the endpoint is
    usable at once, and the next error starts the backoff again, with
    the status Degraded and the shortest cooldown, however many failures
    came before. *)
Theorem success_resets_backoff (p : RpcPool.WsRpcPool) (e : string)
    (h : RpcPool.EndpointHealth) (t now now' : Z) :
  RpcPool.healthMap p !! e = Some h →
  (∀ t', 0 ≤ t' →
         RpcPool.usableEndpoint (exec (RpcPool.recordSuccess e t) p) t' e = true) ∧
  ∃ h', RpcPool.healthMap
          (exec (RpcPool.handleConnectionError e now now')
             (exec (RpcPool.recordSuccess e t) p)) !! e = Some h' ∧
        RpcPool.status h' = RpcPool.DEGRADED ∧
        RpcPool.failCount h' = 1 ∧
        RpcPool.lastSuccessTime h' = t ∧
        RpcPool.nextAvailableTime h'
        = now' + Z.min (2 * RpcPool.baseDelay (RpcPool.config p))
                   (RpcPool.maxCooldown (RpcPool.config p)).
Proof.
  intros Hh. rewrite (recordSuccess_exec e t p h Hh).
  split.
  - intros t' Ht'. unfold RpcPool.usableEndpoint.
    cbn [RpcPool.healthMap RpcPool.set_healthMap]. rewrite lookup_insert_eq.
    unfold RpcPool.usable. simpl. rewrite andb_true_r. by apply Z.leb_le.
  - erewrite handleConnectionError_exec
      by (cbn [RpcPool.healthMap RpcPool.set_healthMap]; apply lookup_insert_eq).
    cbn [RpcPool.healthMap RpcPool.set_healthMap]. rewrite lookup_insert_eq.
    eexists. split; [reflexivity|]. by simpl.
Qed.

Lemma success_resets_backoff_witness :
  RpcPool.usableEndpoint
    (exec (RpcPool.recordSuccess "wss://a" 500) Samples.afterThreeErrors)
    600 "wss://a" = true.
Proof.
  refine (proj1 (success_resets_backoff Samples.afterThreeErrors "wss://a"
                   {| RpcPool.url := "wss://a"; RpcPool.status := RpcPool.DOWN;
                      RpcPool.failCount := 3; RpcPool.lastErrorTime := 300;
                      RpcPool.lastSuccessTime := 0;
                      RpcPool.nextAvailableTime := 300 + 40000 |} 500 0 0 _) 600 _).
  - reflexivity.
  - lia.
Defined.

(** X19.  An endpoint the pool has no record of: [handleConnectionError]
    and [recordSuccess] fail on it (a [TypeError] at the first field
    access) while [handleDisconnection] ignores it; none of the three
    changes the pool.  [handleDisconnection] also ignores every endpoint
    once the pool is destroyed. *)
Theorem unknown_endpoint_is_refused_or_ignored (p : RpcPool.WsRpcPool) (e : string)
    (now now' : Z) :
  (RpcPool.healthMap p !! e = None →
   RpcPool.handleConnectionError e now now' p
   = (Throw "TypeError: Cannot read properties of undefined", p) ∧
   RpcPool.recordSuccess e now p
   = (Throw "TypeError: Cannot read properties of undefined", p) ∧
   RpcPool.handleDisconnection e now now' p = (Ok tt, p)) ∧
  (RpcPool.isDestroyed p = true →
   RpcPool.handleDisconnection e now now' p = (Ok tt, p)).
Proof.
  split.
  - intros Hnone. repeat split.
    + unfold RpcPool.handleConnectionError, bind, RpcPool.getHealth. by rewrite Hnone.
    + unfold RpcPool.recordSuccess, bind, RpcPool.getHealth. by rewrite Hnone.
    + unfold RpcPool.handleDisconnection, bind at 1, gets at 1.
      destruct (RpcPool.isDestroyed p); [done|].
      unfold bind, gets. by rewrite Hnone.
  - intros Hd. unfold RpcPool.handleDisconnection, bind at 1, gets at 1. by rewrite Hd.
Qed.

Lemma unknown_endpoint_is_refused_or_ignored_witness :
  RpcPool.handleConnectionError "wss://c" 10 10 Samples.twoEndpoints
  = (Throw "TypeError: Cannot read properties of undefined", Samples.twoEndpoints) ∧
  RpcPool.recordSuccess "wss://c" 10 Samples.twoEndpoints
  = (Throw "TypeError: Cannot read properties of undefined", Samples.twoEndpoints) ∧
  RpcPool.handleDisconnection "wss://c" 10 10 Samples.twoEndpoints
  = (Ok tt, Samples.twoEndpoints).
Proof.
  apply (proj1 (unknown_endpoint_is_refused_or_ignored Samples.twoEndpoints "wss://c" 10 10)).
  reflexivity.
Defined.

(** X20.  Failover.  After an error on endpoint [e], and before its
    cooldown has run out, the selection never returns [e] as long as
    some other endpoint of the pool is usable: it returns an endpoint
    that is. *)
Theorem failover_avoids_failed_endpoint (p : RpcPool.WsRpcPool) (e other : string)
    (h : RpcPool.EndpointHealth) (now now' t : Z) :
  RpcPool.wellFormed p →
  RpcPool.healthMap p !! e = Some h →
  0 ≤ RpcPool.failCount h → 0 ≤ RpcPool.baseDelay (RpcPool.config p) →
  t < now' + Z.min (2 * RpcPool.baseDelay (RpcPool.config p))
               (RpcPool.maxCooldown (RpcPool.config p)) →
  other ∈ RpcPool.endpoints p → other ≠ e →
  RpcPool.usableEndpoint p t other = true →
  ∃ chosen p',
    RpcPool.getCurrentHealthyEndpoint t (exec (RpcPool.handleConnectionError e now now') p)
    = (Ok chosen, p') ∧
    chosen ≠ e ∧ chosen ∈ RpcPool.endpoints p ∧
    RpcPool.usableEndpoint p t chosen = true.
Proof.
  intros Hwf Hh Hfc Hb Ht Hin Hne Huse.
  pose proof (handleConnectionError_wellFormed e now now' p Hwf) as Hwf1.
  pose proof (handleConnectionError_cooling e now now' p h t Hh Hfc Hb Ht) as Hcool.
  pose proof (handleConnectionError_ring e now now' p) as [Hes Hidx].
  assert (Hsame : ∀ x, x ≠ e →
            RpcPool.usableEndpoint (exec (RpcPool.handleConnectionError e now now') p) t x
            = RpcPool.usableEndpoint p t x).
  { intros x Hx. unfold RpcPool.usableEndpoint.
    by rewrite handleConnectionError_others. }
  set (p1 := exec (RpcPool.handleConnectionError e now now') p) in *.
  destruct (walkRing_spec t (length (RpcPool.endpoints p1)) p1 Hwf1)
    as [(j & chosen & Hj & Hring & Hchosen & _ & Hrun)|(Hnone & _)].
  - eexists chosen, _. split; [by apply getCurrentHealthyEndpoint_found|].
    assert (chosen ≠ e) by (intros ->; congruence).
    split; [done|]. split.
    + rewrite <- Hes. by eapply list_elem_of_lookup_2.
    + by rewrite <- Hsame.
  - exfalso. rewrite <- Hes in Hin. apply list_elem_of_lookup in Hin as [k Hk].
    destruct (ringAt_covers p1 k other (proj1 Hwf1) Hk) as (j & Hj & Hring).
    specialize (Hnone j other Hj Hring). rewrite Hsame in Hnone by done. congruence.
Qed.

Lemma failover_avoids_failed_endpoint_witness :
  ∃ chosen p',
    RpcPool.getCurrentHealthyEndpoint 1500
      (exec (RpcPool.handleConnectionError "wss://a" 1000 1000) Samples.twoEndpoints)
    = (Ok chosen, p') ∧
    chosen ≠ "wss://a" ∧ chosen ∈ RpcPool.endpoints Samples.twoEndpoints ∧
    RpcPool.usableEndpoint Samples.twoEndpoints 1500 chosen = true.
Proof.
  apply (failover_avoids_failed_endpoint Samples.twoEndpoints "wss://a" "wss://b"
           (RpcPool.freshHealth "wss://a" 0) 1000 1000 1500).
  - apply initialPool_wellFormed. done.
  - reflexivity.
  - vm_compute. congruence.
  - vm_compute. congruence.
  - reflexivity.
  - apply elem_of_list_here || (right; left).
  - done.
  - reflexivity.
Defined.

(** ** Rotation *)

Section Rotation.
Import RpcPool.
Variable now : Z.

Lemma ring_leaves_start (n start d : nat) :
  (start < n)%nat → (0 < d < n)%nat → ((start + d) mod n)%nat ≠ start.
Proof.
  intros Hs Hd. destruct (decide (start + d < n)%nat).
  - rewrite Nat.mod_small by done. lia.
  - replace (start + d)%nat with ((start + d - n) + 1 * n)%nat by lia.
    rewrite Nat.Div0.mod_add, Nat.mod_small by lia. lia.
Qed.

Lemma ring_returns (n start : nat) :
  (start < n)%nat → ((start + n) mod n)%nat = start.
Proof.
  intros Hs. replace (start + n)%nat with (start + 1 * n)%nat by lia.
  by rewrite Nat.Div0.mod_add, Nat.mod_small.
Qed.

(** One turn of the [do ... while] loop. *)
Lemma rotateLoop_turn fuel start q e h :
  endpoints q !! ((currentIndex q + 1) mod length (endpoints q))%nat = Some e →
  healthMap q !! e = Some h →
  rotateLoop (S fuel) start now q
  = if usable now h
    then (Ok tt, set_currentIndex ((currentIndex q + 1) mod length (endpoints q))%nat q)
    else if (((currentIndex q + 1) mod length (endpoints q))%nat =? start)%nat
    then (Ok tt, set_currentIndex ((currentIndex q + 1) mod length (endpoints q))%nat q)
    else rotateLoop fuel start now
           (set_currentIndex ((currentIndex q + 1) mod length (endpoints q))%nat q).
Proof.
  intros He Hh. simpl.
  erewrite bind_Ok by reflexivity. erewrite bind_Ok by reflexivity.
  erewrite bind_Ok by reflexivity.
  erewrite bind_Ok by (by apply healthAt_current).
  simpl. destruct (usable now h); [done|]. by destruct (_ =? start)%nat.
Qed.

Lemma rotateLoop_spec fuel : ∀ start k q,
  wellFormed q → (start < length (endpoints q))%nat →
  currentIndex q = ((start + k) mod length (endpoints q))%nat →
  (S fuel + k = length (endpoints q))%nat →
  ∃ j, (k < j ≤ length (endpoints q))%nat ∧
       rotateLoop (S fuel) start now q
       = (Ok tt, set_currentIndex ((start + j) mod length (endpoints q))%nat q) ∧
       (∀ j' e', (k < j' < j)%nat → ringAt q start j' = Some e' →
                 usableEndpoint q now e' = false) ∧
       ((j < length (endpoints q))%nat →
        ∃ e, ringAt q start j = Some e ∧ usableEndpoint q now e = true).
Proof.
  induction fuel as [|fuel IH]; intros start k q Hwf Hstart Hidx Hfuel.
  all: assert (Hnext : ((currentIndex q + 1) mod length (endpoints q))%nat
                       = ((start + S k) mod length (endpoints q))%nat)
         by (rewrite Hidx, Nat.Div0.add_mod_idemp_l; f_equal; lia).
  all: destruct (wellFormed_current _ (wellFormed_step q Hwf)) as (e & h & He & Hh);
       cbn [endpoints healthMap currentIndex set_currentIndex] in He, Hh.
  all: rewrite (rotateLoop_turn _ start q e h He Hh), Hnext.
  all: assert (Hring : ringAt q start (S k) = Some e)
         by (unfold ringAt; by rewrite <- Hnext).
  all: destruct (usable now h) eqn:Hu.
  - exists (S k). split; [lia|]. split; [done|]. split; [intros; lia|].
    intros _. exists e. split; [done|]. unfold usableEndpoint. by rewrite Hh.
  - exists (S k). split; [lia|].
    assert (S k = length (endpoints q)) as Hlast by lia.
    rewrite Hlast, ring_returns, Nat.eqb_refl by done.
    split; [done|]. split; [intros; lia|]. intros; lia.
  - exists (S k). split; [lia|]. split; [done|]. split; [intros; lia|].
    intros _. exists e. split; [done|]. unfold usableEndpoint. by rewrite Hh.
  - assert (Hmiddle : ((start + S k) mod length (endpoints q))%nat ≠ start)
      by (apply ring_leaves_start; lia).
    rewrite (proj2 (Nat.eqb_neq _ _) Hmiddle).
    destruct (IH start (S k)
                (set_currentIndex ((start + S k) mod length (endpoints q))%nat q))
      as (j & Hj & Hrun & Hbefore & Hat).
    + split; [|apply Hwf]. simpl. apply Nat.mod_upper_bound. lia.
    + done.
    + done.
    + simpl. lia.
    + exists j. split; [simpl in Hj; lia|]. split; [exact Hrun|]. split.
      * intros j' e' Hj' He'. destruct (decide (j' = S k)) as [->|Hne].
        { rewrite Hring in He'. injection He' as <-.
          unfold usableEndpoint. by rewrite Hh, Hu. }
        apply (Hbefore j' e'); [lia|done].
      * exact Hat.
Qed.

Lemma getCurrentHealthyEndpoint_fallback p :
  wellFormed p →
  walkRing (length (endpoints p)) now p
  = (Ok None,
     set_currentIndex
       ((currentIndex p + length (endpoints p)) mod length (endpoints p))%nat p) →
  ∃ e, getCurrentHealthyEndpoint now p = (Ok e, p).
Proof.
  intros Hwf Hrun. unfold getCurrentHealthyEndpoint.
  erewrite bind_Ok by reflexivity. erewrite bind_Ok by exact Hrun.
  rewrite ring_returns by apply Hwf. rewrite set_currentIndex_same.
  destruct (wellFormed_current p Hwf) as (e0 & h0 & He0 & Hh0).
  erewrite bind_Ok by reflexivity.
  erewrite bind_Ok by (by apply healthAt_current).
  erewrite bind_Ok by reflexivity. simpl.
  replace (nextAvailableTime h0) with (nextAvailableOf p e0)
    by (unfold nextAvailableOf; by rewrite Hh0).
  destruct (scanEarliest_spec (endpoints p) e0 p (proj2 Hwf)) as (e & -> & _).
  by exists e.
Qed.

End Rotation.

(** X21.  [rotateToNextHealthyEndpoint] moves [currentIndex], and
    nothing else, to the first usable endpoint after the current one in
    ring order; when no other endpoint is usable the index comes back to
    where it was, whether the current endpoint is usable or not. *)
Theorem rotation_moves_to_next_usable (p : RpcPool.WsRpcPool) (now : Z) :
  RpcPool.wellFormed p →
  ∃ j, (1 ≤ j ≤ length (RpcPool.endpoints p))%nat ∧
       RpcPool.rotateToNextHealthyEndpoint now p
       = (Ok tt,
          RpcPool.set_currentIndex
            ((RpcPool.currentIndex p + j) mod length (RpcPool.endpoints p))%nat p) ∧
       (∀ j' e', (1 ≤ j' < j)%nat →
                 RpcPool.ringAt p (RpcPool.currentIndex p) j' = Some e' →
                 RpcPool.usableEndpoint p now e' = false) ∧
       ((j < length (RpcPool.endpoints p))%nat →
        ∃ e, RpcPool.ringAt p (RpcPool.currentIndex p) j = Some e ∧
             RpcPool.usableEndpoint p now e = true) ∧
       (j = length (RpcPool.endpoints p) →
        exec (RpcPool.rotateToNextHealthyEndpoint now) p = p).
Proof.
  intros Hwf. pose proof Hwf as [Hidx _].
  assert (Hrun : RpcPool.rotateToNextHealthyEndpoint now p
                 = RpcPool.rotateLoop (length (RpcPool.endpoints p))
                     (RpcPool.currentIndex p) now p) by done.
  destruct (length (RpcPool.endpoints p)) as [|fuel] eqn:Hlen; [lia|].
  destruct (rotateLoop_spec now fuel (RpcPool.currentIndex p) 0 p)
    as (j & Hj & Hloop & Hbefore & Hat); try done.
  - lia.
  - by rewrite Nat.add_0_r, Nat.mod_small by lia.
  - lia.
  - rewrite Hlen in *. exists j. split; [lia|].
    split; [by rewrite Hrun, Hloop|]. split; [|split; [done|]].
    + intros j' e' Hj' He'. apply (Hbefore j' e'); [lia|done].
    + intros ->. unfold exec. rewrite Hrun, Hloop. cbn [snd].
      rewrite <- Hlen, ring_returns by lia. apply set_currentIndex_same.
Qed.

Lemma rotation_moves_to_next_usable_witness :
  ∃ j, (1 ≤ j ≤ length (RpcPool.endpoints Samples.afterThreeErrors))%nat ∧
       RpcPool.rotateToNextHealthyEndpoint 400 Samples.afterThreeErrors
       = (Ok tt,
          RpcPool.set_currentIndex
            ((RpcPool.currentIndex Samples.afterThreeErrors + j)
               mod length (RpcPool.endpoints Samples.afterThreeErrors))%nat
            Samples.afterThreeErrors) ∧
       (∀ j' e', (1 ≤ j' < j)%nat →
                 RpcPool.ringAt Samples.afterThreeErrors
                   (RpcPool.currentIndex Samples.afterThreeErrors) j' = Some e' →
                 RpcPool.usableEndpoint Samples.afterThreeErrors 400 e' = false) ∧
       ((j < length (RpcPool.endpoints Samples.afterThreeErrors))%nat →
        ∃ e, RpcPool.ringAt Samples.afterThreeErrors
               (RpcPool.currentIndex Samples.afterThreeErrors) j = Some e ∧
             RpcPool.usableEndpoint Samples.afterThreeErrors 400 e = true) ∧
       (j = length (RpcPool.endpoints Samples.afterThreeErrors) →
        exec (RpcPool.rotateToNextHealthyEndpoint 400) Samples.afterThreeErrors
        = Samples.afterThreeErrors).
Proof.
  apply (rotation_moves_to_next_usable Samples.afterThreeErrors 400).
  split.
  - vm_compute. lia.
  - change (RpcPool.endpoints Samples.afterThreeErrors) with ["wss://a"; "wss://b"].
    intros e [->|[->|[]%elem_of_nil]%elem_of_cons]%elem_of_cons;
      vm_compute; by eexists.
Defined.

(** X22.  The selection is stable: asked again at the same clock
    reading, [getCurrentHealthyEndpoint] returns the same endpoint and
    leaves the pool as the first call left it. *)
Theorem selection_is_stable (p : RpcPool.WsRpcPool) (now : Z) :
  RpcPool.wellFormed p →
  ∃ e p', RpcPool.getCurrentHealthyEndpoint now p = (Ok e, p') ∧
          RpcPool.getCurrentHealthyEndpoint now p' = (Ok e, p').
Proof.
  intros Hwf.
  destruct (walkRing_spec now (length (RpcPool.endpoints p)) p Hwf)
    as [(j & e & Hj & Hring & Huse & _ & Hrun)|(_ & Hrun)].
  - eexists e, _. split; [by apply getCurrentHealthyEndpoint_found|].
    apply getCurrentHealthyEndpoint_found. cbn [RpcPool.endpoints RpcPool.set_currentIndex].
    unfold RpcPool.usableEndpoint in Huse.
    destruct (RpcPool.healthMap p !! e) as [h|] eqn:Hh; [|done].
    destruct (length (RpcPool.endpoints p)) as [|fuel] eqn:Hlen; [lia|].
    apply walkRing_first with h; try done.
    cbn [RpcPool.endpoints RpcPool.currentIndex RpcPool.set_currentIndex].
    unfold RpcPool.ringAt in Hring. by rewrite Hlen in Hring.
  - destruct (getCurrentHealthyEndpoint_fallback now p Hwf Hrun) as [e He].
    by exists e, p.
Qed.

Lemma selection_is_stable_witness :
  ∃ e p', RpcPool.getCurrentHealthyEndpoint 400 Samples.afterThreeErrors = (Ok e, p') ∧
          RpcPool.getCurrentHealthyEndpoint 400 p' = (Ok e, p').
Proof.
  apply (selection_is_stable Samples.afterThreeErrors 400).
  split.
  - vm_compute. lia.
  - change (RpcPool.endpoints Samples.afterThreeErrors) with ["wss://a"; "wss://b"].
    intros e [->|[->|[]%elem_of_nil]%elem_of_cons]%elem_of_cons;
      vm_compute; by eexists.
Defined.

(** ** Waiting for the next retry *)

Section RetryTime.
Import RpcPool.

Lemma scanWaits_available values now : ∀ acc base,
  (∃ h, h ∈ values ∧ nextAvailableTime h ≤ now) →
  scanWaits values now acc base = 0.
Proof.
  induction values as [|h0 values IH]; intros acc base (h & Hin & Hh); simpl.
  - by apply elem_of_nil in Hin.
  - destruct (Z.gtb_spec (nextAvailableTime h0) now) as [Hgt|Hle]; [|done].
    apply IH. exists h. split; [|done].
    apply elem_of_cons in Hin as [->|Hin]; [lia|done].
Qed.

Lemma scanWaits_waiting values now : ∀ acc base,
  (∀ h, h ∈ values → now < nextAvailableTime h) →
  (∀ h, h ∈ values → scanWaits values now acc base ≤ nextAvailableTime h - now) ∧
  (∀ w, acc = Some w → scanWaits values now acc base ≤ w) ∧
  ((∃ h, h ∈ values ∧ scanWaits values now acc base = nextAvailableTime h - now) ∨
   acc = Some (scanWaits values now acc base) ∨
   (acc = None ∧ values = [] ∧ scanWaits values now acc base = base)).
Proof.
  induction values as [|h0 values IH]; intros acc base Hall; simpl.
  - split; [by intros h ?%elem_of_nil|]. split.
    + by intros w ->.
    + destruct acc as [w|]; [right; by left|right; by right].
  - destruct (Z.gtb_spec (nextAvailableTime h0) now) as [Hgt|Hle].
    2:{ specialize (Hall h0 ltac:(left)). lia. }
    match goal with
    | |- context [scanWaits values now ?acc' base] =>
        destruct (IH acc' base) as (Hmin & Hacc & Hwho); [by intros; apply Hall; right|]
    end.
    specialize (Hacc _ eq_refl).
    split; [|split].
    + intros h [->|Hin]%elem_of_cons; [|by apply Hmin].
      destruct acc as [w|]; lia.
    + intros w ->. lia.
    + destruct Hwho as [(h & Hin & Hh)|[Hsame|(? & _)]]; [| |done].
      * left. exists h. split; [by right|done].
      * match type of Hsame with
        | _ = Some ?r => set (result := r) in *
        end.
        injection Hsame as Hsame. destruct acc as [w|].
        -- destruct (Z.min_spec w (nextAvailableTime h0 - now)) as [[_ Hm]|[_ Hm]];
             rewrite Hm in Hsame.
           ++ right. left. by rewrite Hsame.
           ++ left. exists h0. split; [by left|done].
        -- left. exists h0. split; [by left|done].
Qed.

Lemma health_values p h :
  h ∈ (map_to_list (healthMap p)).*2 ↔ ∃ e, healthMap p !! e = Some h.
Proof.
  rewrite list_elem_of_fmap. split.
  - intros ([e h'] & -> & Hin). exists e. by apply elem_of_map_to_list.
  - intros (e & He). exists (e, h). split; [done|]. by apply elem_of_map_to_list.
Qed.

End RetryTime.

(** X23.  [getNextRetryTime] is 0 as soon as the cooldown of one
    endpoint has run out, whatever its status, Down included.  When
    every endpoint is still cooling off it is the time left until the
    earliest [nextAvailableTime], which is positive. *)
Theorem getNextRetryTime_spec (p : RpcPool.WsRpcPool) (now : Z) :
  RpcPool.wellFormed p →
  ((∃ e h, RpcPool.healthMap p !! e = Some h ∧ RpcPool.nextAvailableTime h ≤ now) →
   RpcPool.getNextRetryTime now p = 0) ∧
  ((∀ e h, RpcPool.healthMap p !! e = Some h → now < RpcPool.nextAvailableTime h) →
   0 < RpcPool.getNextRetryTime now p ∧
   (∃ e h, RpcPool.healthMap p !! e = Some h ∧
           RpcPool.nextAvailableTime h = now + RpcPool.getNextRetryTime now p) ∧
   ∀ e h, RpcPool.healthMap p !! e = Some h →
          now + RpcPool.getNextRetryTime now p ≤ RpcPool.nextAvailableTime h).
Proof.
  intros Hwf. unfold RpcPool.getNextRetryTime. split.
  - intros (e & h & He & Hh). apply scanWaits_available.
    exists h. split; [|done]. apply health_values. by exists e.
  - intros Hall.
    destruct (scanWaits_waiting ((map_to_list (RpcPool.healthMap p)).*2) now None
                (RpcPool.baseDelay (RpcPool.config p)))
      as (Hmin & _ & Hwho).
    { intros h (e & He)%health_values. by eapply Hall. }
    destruct (wellFormed_current p Hwf) as (e0 & h0 & _ & Hh0).
    destruct Hwho as [(h & (e & He)%health_values & Hh)|[?|(_ & Hnil & _)]]; [|done|].
    + split; [specialize (Hall e h He); lia|]. split.
      * exists e, h. split; [done|lia].
      * intros e' h' He'.
        assert (h' ∈ (map_to_list (RpcPool.healthMap p)).*2) as Hin
          by (apply health_values; by exists e').
        specialize (Hmin h' Hin). lia.
    + assert (h0 ∈ (map_to_list (RpcPool.healthMap p)).*2) as Hin
        by (apply health_values; by exists e0).
      rewrite Hnil in Hin. by apply elem_of_nil in Hin.
Qed.

Lemma getNextRetryTime_spec_witness :
  RpcPool.getNextRetryTime 400 Samples.afterThreeErrors = 0.
Proof.
  refine (proj1 (getNextRetryTime_spec Samples.afterThreeErrors 400 _) _).
  - split.
    + vm_compute. lia.
    + change (RpcPool.endpoints Samples.afterThreeErrors) with ["wss://a"; "wss://b"].
      intros e [->|[->|[]%elem_of_nil]%elem_of_cons]%elem_of_cons;
        vm_compute; by eexists.
  - exists "wss://b", (RpcPool.freshHealth "wss://b" 0). split; [reflexivity|].
    vm_compute. congruence.
Defined.

(** X24.  [getClient] returns the client the pool holds and throws when
    it holds none; it holds none from a [close] signal on a known
    endpoint until the reconnection, and after [destroy]. *)
Theorem no_client_while_disconnected (p : RpcPool.WsRpcPool) (e : string)
    (h : RpcPool.EndpointHealth) (now now' : Z) :
  (∀ c, RpcPool.currentClient p = Some c → RpcPool.getClient p = (Ok c, p)) ∧
  (RpcPool.isDestroyed p = false → RpcPool.healthMap p !! e = Some h →
   is_ok (fst (RpcPool.getClient (exec (RpcPool.handleDisconnection e now now') p)))
   = false) ∧
  is_ok (fst (RpcPool.getClient (exec RpcPool.destroy p))) = false ∧
  RpcPool.handleDisconnection e now now' (exec RpcPool.destroy p)
  = (Ok tt, exec RpcPool.destroy p).
Proof.
  split; [|split; [|split]].
  - intros c Hc. unfold RpcPool.getClient, bind, gets. by rewrite Hc.
  - intros Hd Hh.
    destruct (handleDisconnection_health e now now' p h Hd Hh) as (_ & Hclient & _).
    unfold RpcPool.getClient, bind, gets. by rewrite Hclient.
  - done.
  - done.
Qed.

Lemma no_client_while_disconnected_witness :
  is_ok (fst (RpcPool.getClient
                (exec (RpcPool.handleDisconnection "wss://a" 10 10) Samples.twoEndpoints)))
  = false.
Proof.
  apply (proj1 (proj2 (no_client_while_disconnected Samples.twoEndpoints "wss://a"
                         (RpcPool.freshHealth "wss://a" 0) 10 10)));
    reflexivity.
Defined.


(** X25.  In any run of [initialize], [processNewBlock] and
    [handleReconnection] from a new engine, whatever the nodes and the
    callbacks do, the engine holds a block number exactly when it is
    initialized, so [isReady] is the flag [isInitialized]; and an engine
    that is ready stays ready. *)
Theorem ready_iff_initialized (config : Continuity.BlockContinuityConfig)
    (c : Continuity.PublicClient) (ops ops' : list Continuity.Op) :
  (Continuity.isInitialized (Continuity.runOps config ops (Continuity.newManager c)) = true
   ↔ is_Some (Continuity.getLastProcessedBlockNumber
                (Continuity.runOps config ops (Continuity.newManager c)))) ∧
  Continuity.isReady (Continuity.runOps config ops (Continuity.newManager c))
  = Continuity.isInitialized (Continuity.runOps config ops (Continuity.newManager c)) ∧
  (Continuity.isReady (Continuity.runOps config ops (Continuity.newManager c)) = true →
   Continuity.isReady (Continuity.runOps config (ops ++ ops') (Continuity.newManager c))
   = true).
Proof.
  assert (Hnew : Continuity.settled (Continuity.newManager c)).
  { split; [done|]. by intros [? ?]. }
  assert (Hready : ∀ m, Continuity.settled m →
            Continuity.isReady m = Continuity.isInitialized m).
  { intros m Hs. unfold Continuity.isReady.
    destruct (Continuity.isInitialized m) eqn:Hi; [|done].
    by destruct (proj1 Hs Hi) as [l ->]. }
  destruct (runOps_settled config ops _ Hnew) as [Hs _].
  split; [exact Hs|]. split; [by apply Hready|].
  rewrite runOps_app, (Hready _ Hs).
  rewrite (Hready _ (proj1 (runOps_settled config ops' _ Hs))).
  by apply runOps_settled.
Qed.

Lemma ready_iff_initialized_witness :
  Continuity.isReady
    (Continuity.runOps Samples.recordingConfig
       ([Continuity.ProcessNewBlock 101]
        ++ [Continuity.HandleReconnection (Samples.steadyClient 90)])
       (Continuity.newManager Samples.brokenAt103)) = true.
Proof.
  apply (proj2 (proj2 (ready_iff_initialized Samples.recordingConfig Samples.brokenAt103
                         [Continuity.ProcessNewBlock 101]
                         [Continuity.HandleReconnection (Samples.steadyClient 90)]))).
  reflexivity.
Defined.

(** ** From the wallets file to the lookups *)

Section ConfigFacts.
Import Address Event Config.

Lemma loadWallets_labels (validated : list WatchedWallet) :
  ∀ (m : gmap string string) (k : string),
  foldl (λ (m : gmap string string) w, <[address w := label w]> m) m
        (loadWallets validated) !! k
  = match last (filter (λ w, toLowerCase (address w) = k) validated) with
    | Some w => Some (label w)
    | None => m !! k
    end.
Proof.
  induction validated as [|w validated IH]; intros m k; [done|].
  unfold loadWallets in *. rewrite fmap_cons. cbn [foldl address label].
  rewrite IH, filter_cons.
  destruct (decide (toLowerCase (address w) = k)) as [Hk|Hk].
  - rewrite last_cons.
    destruct (last (filter _ validated)); [done|].
    by rewrite Hk, lookup_insert_eq.
  - destruct (last (filter _ validated)); [done|].
    by rewrite lookup_insert_ne.
Qed.

Lemma loadWallets_addresses (validated : list WatchedWallet) (k : string) :
  k ∈ address <$> loadWallets validated
  ↔ ∃ w, w ∈ validated ∧ toLowerCase (address w) = k.
Proof.
  unfold loadWallets. rewrite <- list_fmap_compose, list_elem_of_fmap.
  split; intros (w & H1 & H2); exists w; simpl in *; by split.
Qed.

End ConfigFacts.

(** X26.  The configuration built from a validated wallets file watches
    exactly the addresses of the file, under any capitalisation on
    either side; the label found for an address is the one of the last
    wallet of the file with that address; and the file is not empty. *)
Theorem configured_wallets_are_watched
    (url : string) (thresholdWei : Outcome Z) (level : string)
    (validated : list Event.WatchedWallet) (cfg : Event.AppConfig) :
  Config.loadConfig url thresholdWei level validated = Ok cfg →
  (∀ a, Address.isAddressWatched a (Event.watchedAddressesSet cfg) = true
        ↔ ∃ w, w ∈ validated ∧
               Address.toLowerCase (Event.address w) = Address.toLowerCase a) ∧
  (∀ a, Address.getAddressLabel a (Event.addressLabelMap cfg)
        = Event.label
            <$> last (filter (λ w, Address.toLowerCase (Event.address w)
                                   = Address.toLowerCase a) validated)) ∧
  validated ≠ [].
Proof.
  unfold Config.loadConfig. intros Hcfg.
  destruct (length (Config.loadWallets validated) =? 0)%nat eqn:Hlen; [done|].
  destruct thresholdWei as [t|e]; [|done].
  injection Hcfg as <-. cbn [Event.watchedAddressesSet Event.addressLabelMap].
  split; [|split].
  - intros a. unfold Address.isAddressWatched, Address.normalizeAddress.
    rewrite bool_decide_eq_true, elem_of_list_to_set.
    apply loadWallets_addresses.
  - intros a. unfold Address.getAddressLabel, Address.normalizeAddress.
    rewrite loadWallets_labels, lookup_empty.
    by destruct (last _).
  - by intros ->.
Qed.

Lemma configured_wallets_are_watched_witness :
  Address.getAddressLabel "0xd551234ae421e3bcba99a0da6d736074f22192ff"
    (foldl (λ (m : gmap string string) w, <[Event.address w := Event.label w]> m) ∅
       (Config.loadWallets
          [ {| Event.label := "Binance 1";
               Event.address := "0xD551234Ae421e3BCBA99A0dA6d736074f22192Ff" |};
            {| Event.label := "Hot wallet";
               Event.address := "0xd551234ae421e3bcba99a0da6d736074f22192FF" |} ]))
  = Some "Hot wallet".
Proof.
  refine (proj1 (proj2 (configured_wallets_are_watched "wss://test" (Ok 100) "info"
            [ {| Event.label := "Binance 1";
                 Event.address := "0xD551234Ae421e3BCBA99A0dA6d736074f22192Ff" |};
              {| Event.label := "Hot wallet";
                 Event.address := "0xd551234ae421e3bcba99a0da6d736074f22192FF" |} ]
            _ eq_refl)) "0xd551234ae421e3bcba99a0da6d736074f22192ff").
Defined.

(** ** The endpoints of the application *)

Section ClientsFacts.
Import RpcPool Clients.

Lemma indexOf_first (self : list string) (x : string) :
  x ∈ self → ∃ i : nat, self !! i = Some x ∧ indexOf self x = Z.of_nat i.
Proof.
  induction self as [|y rest IH]; intros Hin; [by apply elem_of_nil in Hin|].
  simpl. destruct (String.eqb_spec y x) as [->|Hne].
  - by exists 0%nat.
  - apply elem_of_cons in Hin as [->|Hin]; [done|].
    destruct (IH Hin) as (i & Hi & ->). exists (S i). split; [done|].
    destruct (Z.ltb_spec (Z.of_nat i) 0); lia.
Qed.

(** Whatever [f] is, keeping the elements [u] at the positions [f u]
    keeps each of them once. *)
Lemma kept_once (f : string → Z) (l : list string) : ∀ k : nat,
  NoDup (omap (λ '(i, u), if f u =? Z.of_nat i then Some u else None)
           (imap (λ i u, ((k + i)%nat, u)) l)) ∧
  ∀ x, x ∈ omap (λ '(i, u), if f u =? Z.of_nat i then Some u else None)
             (imap (λ i u, ((k + i)%nat, u)) l) →
       Z.of_nat k ≤ f x.
Proof.
  induction l as [|y l IH]; intros k.
  - split; [constructor|]. by intros x ?%elem_of_nil.
  - rewrite imap_cons.
    rewrite (imap_ext _ (λ i u, ((S k + i)%nat, u)))
      by (intros i u _; simpl; f_equal; lia).
    destruct (IH (S k)) as [Hnodup Hlater]. cbn [omap list_omap].
    rewrite Nat.add_0_r.
    destruct (Z.eqb_spec (f y) (Z.of_nat k)) as [Hy|Hy].
    + split.
      * constructor; [|done]. intros Hin. specialize (Hlater y Hin). lia.
      * intros x [->|Hin]%elem_of_cons; [lia|]. specialize (Hlater x Hin). lia.
    + split; [done|]. intros x Hin. specialize (Hlater x Hin). lia.
Qed.

Lemma firstOccurrences_NoDup (self : list string) : NoDup (firstOccurrences self).
Proof. apply (kept_once (indexOf self) self 0). Qed.

Lemma firstOccurrences_elem_of (self : list string) (x : string) :
  x ∈ firstOccurrences self ↔ x ∈ self.
Proof.
  unfold firstOccurrences. rewrite list_elem_of_omap. split.
  - intros ([i u] & (i' & u' & [= -> ->] & Hi)%elem_of_lookup_imap & Hkept).
    destruct (indexOf self u' =? Z.of_nat i'); [|done]. injection Hkept as <-.
    by eapply list_elem_of_lookup_2.
  - intros Hin. destruct (indexOf_first self x Hin) as (i & Hi & Hfirst).
    exists (i, x). split; [apply elem_of_lookup_imap; by exists i, x|].
    by rewrite Hfirst, Z.eqb_refl.
Qed.

Lemma firstOccurrences_head (x : string) (rest : list string) :
  ∃ others, firstOccurrences (x :: rest) = x :: others.
Proof.
  unfold firstOccurrences. rewrite imap_cons. cbn [omap list_omap indexOf].
  rewrite String.eqb_refl. simpl. by eexists.
Qed.

End ClientsFacts.

(** X27.  [initializeRpcPools] cannot fail and builds, whatever pool was
    there before, a pool whose endpoints are the configured URL and the
    default ones, each of them once, with the configured URL first: it
    is the endpoint the pool selects at the start. *)
Theorem configured_url_is_primary (wssRpcUrl : string) (now t : Z)
    (wsPool : option RpcPool.WsRpcPool) :
  0 ≤ t →
  ∃ pool,
    Clients.initializeRpcPools wssRpcUrl now wsPool = (Ok tt, Some pool) ∧
    NoDup (RpcPool.endpoints pool) ∧
    (∀ e, e ∈ RpcPool.endpoints pool
          ↔ e = wssRpcUrl ∨ e ∈ Clients.DEFAULT_WSS_RPC_ENDPOINTS) ∧
    RpcPool.wellFormed pool ∧
    RpcPool.getCurrentHealthyEndpoint t pool = (Ok wssRpcUrl, pool).
Proof.
  intros Ht. unfold Clients.initializeRpcPools, Clients.initializeWsPool.
  pose proof (firstOccurrences_NoDup (wssRpcUrl :: Clients.DEFAULT_WSS_RPC_ENDPOINTS))
    as Hnodup.
  pose proof (firstOccurrences_elem_of (wssRpcUrl :: Clients.DEFAULT_WSS_RPC_ENDPOINTS))
    as Helem.
  destruct (firstOccurrences_head wssRpcUrl Clients.DEFAULT_WSS_RPC_ENDPOINTS)
    as [others Hhead].
  rewrite Hhead in *. eexists. split; [reflexivity|].
  split; [done|]. split; [|split].
  - intros e. cbn [RpcPool.endpoints RpcPool.initialPool].
    rewrite Helem. apply elem_of_cons.
  - by apply initialPool_wellFormed.
  - by apply initialPool_selects_first.
Qed.

Lemma configured_url_is_primary_witness :
  ∃ pool,
    Clients.initializeRpcPools "wss://base-rpc.publicnode.com" 0 None = (Ok tt, Some pool) ∧
    NoDup (RpcPool.endpoints pool) ∧
    (∀ e, e ∈ RpcPool.endpoints pool
          ↔ e = "wss://base-rpc.publicnode.com" ∨ e ∈ Clients.DEFAULT_WSS_RPC_ENDPOINTS) ∧
    RpcPool.wellFormed pool ∧
    RpcPool.getCurrentHealthyEndpoint 1000 pool
    = (Ok "wss://base-rpc.publicnode.com", pool).
Proof.
  apply (configured_url_is_primary "wss://base-rpc.publicnode.com" 0 1000 None). lia.
Defined.
